(** * Mention detection and link normalisation of the Yandex Tracker linker

    A shallow embedding of [src/main.ts] (the Obsidian plugin
    [YandexTrackerLinkerPlugin]): the three regular expressions of the
    plugin, [cleanMarkdown], [createTask]'s reading of the HTTP response,
    [processText] with its re-entrancy lock, the confirmation dialog and
    the settings tab.

    JavaScript strings are sequences of UTF-16 code units; a code unit is
    modelled as a number in [N] and a string as a list of them.  The
    regular expressions are kept as syntax trees and run by a backtracking
    matcher that follows the ECMAScript matching rules for the constructs
    the plugin uses. *)

From Stdlib Require Import String Ascii List NArith Arith Bool Lia.
Import ListNotations.

Set Warnings "-register-all".

(** ** Strings of code units *)

Definition char := N.
Definition str := list char.

(** A string literal of the source (all of them are ASCII). *)
Definition lit (s : string) : str :=
  map N_of_ascii (list_ascii_of_string s).

Definition ch (a : ascii) : char := N_of_ascii a.

(** The line feed, ["\n"]. *)
Definition nl : char := 10%N.

(** The empty string. *)
Definition empty : str := [].

Module Str.

Fixpoint eqb (a b : str) : bool :=
  match a, b with
  | [], [] => true
  | x :: a', y :: b' => N.eqb x y && eqb a' b'
  | _, _ => false
  end.

(** [s.startsWith(p)] *)
Fixpoint startsWith (p s : str) : bool :=
  match p, s with
  | [], _ => true
  | x :: p', y :: s' => N.eqb x y && startsWith p' s'
  | _ :: _, [] => false
  end.

(** [s.endsWith(p)] *)
Definition endsWith (p s : str) : bool :=
  startsWith (rev p) (rev s).

(** [s.includes(p)] *)
Fixpoint includes (p s : str) : bool :=
  startsWith p s ||
  match s with
  | [] => false
  | _ :: s' => includes p s'
  end.

(** [s.slice(a, b)] for [0 <= a] and [0 <= b]. *)
Definition slice (a b : nat) (s : str) : str :=
  firstn (b - a) (skipn a s).

(** [s.split(sep)] for a one-character separator: the pieces between the
    separators, in order; never empty. *)
Fixpoint split (sep : char) (s : str) : list str :=
  match s with
  | [] => [[]]
  | c :: s' =>
      if N.eqb c sep then [] :: split sep s'
      else match split sep s' with
           | [] => [[c]]
           | l :: ls => (c :: l) :: ls
           end
  end.

(** [ls.join(sep)] *)
Fixpoint join (sep : str) (ls : list str) : str :=
  match ls with
  | [] => []
  | [l] => l
  | l :: ls' => l ++ sep ++ join sep ls'
  end.

(** ECMAScript [WhiteSpace] and [LineTerminator] code units: what
    [\s] matches and what [trim] removes. *)
Definition is_line_terminator (c : char) : bool :=
  N.eqb c 10 || N.eqb c 13 || N.eqb c 8232 || N.eqb c 8233.

Definition is_white_space (c : char) : bool :=
  N.eqb c 9 || N.eqb c 11 || N.eqb c 12 || N.eqb c 32 || N.eqb c 160
  || N.eqb c 5760 || (N.leb 8192 c && N.leb c 8202)
  || N.eqb c 8239 || N.eqb c 8287 || N.eqb c 12288 || N.eqb c 65279.

Definition is_space (c : char) : bool :=
  is_white_space c || is_line_terminator c.

Fixpoint trimStart (s : str) : str :=
  match s with
  | c :: s' => if is_space c then trimStart s' else s
  | [] => []
  end.

Definition trimEnd (s : str) : str := rev (trimStart (rev s)).

(** [s.trim()] *)
Definition trim (s : str) : str := trimEnd (trimStart s).

(** [s.indexOf(p)]: the first position at which [p] occurs. *)
Fixpoint indexOf (p s : str) : option nat :=
  if startsWith p s then Some 0
  else match s with
       | [] => None
       | _ :: s' => option_map S (indexOf p s')
       end.

End Str.

(** ** Regular expressions

    The constructs the plugin's patterns are built from: literal
    characters, character classes (and [.]), a quantified class
    ([c*], [c+], [c{1,3}], greedy or lazy), sequencing, capturing
    groups, the lookahead [(?=...)] and the start anchor [^]. *)

Module Re.

Inductive regex : Type :=
| Eps
| Chr (c : char)
| Cls (p : char -> bool)
| Rep (p : char -> bool) (lo : nat) (hi : option nat) (greedy : bool)
| Seq (r1 r2 : regex)
| Grp (n : nat) (r : regex)
| Ahead (r : regex)
| Bol.

(** The matcher's state: the index reached in the input, the input
    that is left from there, and the captures made so far. *)
Record mstate : Type := MState {
  pos : nat;
  rest : str;
  caps : list (nat * str)
}.

Definition adv (n : nat) (st : mstate) : mstate :=
  MState (pos st + n) (skipn n (rest st)) (caps st).

(** How many leading characters of [s] are in the class, at most [hi]. *)
Fixpoint run_len (p : char -> bool) (hi : option nat) (s : str) : nat :=
  match hi with
  | Some 0 => 0
  | _ =>
      match s with
      | c :: s' =>
          if p c then S (run_len p (option_map Nat.pred hi) s') else 0
      | [] => 0
      end
  end.

Fixpoint first_some {A B : Type} (f : A -> option B) (l : list A) : option B :=
  match l with
  | [] => None
  | x :: l' =>
      match f x with
      | Some y => Some y
      | None => first_some f l'
      end
  end.

(** The repetition counts a quantifier tries, in the order it tries
    them: the longest first when greedy, the shortest first when lazy. *)
Definition counts (greedy : bool) (lo n : nat) : list nat :=
  let up := seq lo (S n - lo) in
  if greedy then rev up else up.

(** The matcher, in continuation-passing style as in the ECMAScript
    specification: [run r st k] matches [r] at [st] and hands every state it
    can reach to [k], in the order of the backtracking search, until [k]
    accepts one. *)
Fixpoint run (r : regex) (st : mstate) (k : mstate -> option mstate)
  : option mstate :=
  match r with
  | Eps => k st
  | Chr c =>
      match rest st with
      | x :: _ => if N.eqb x c then k (adv 1 st) else None
      | [] => None
      end
  | Cls p =>
      match rest st with
      | x :: _ => if p x then k (adv 1 st) else None
      | [] => None
      end
  | Rep p lo hi greedy =>
      first_some (fun n => k (adv n st))
                 (counts greedy lo (run_len p hi (rest st)))
  | Seq r1 r2 => run r1 st (fun st1 => run r2 st1 k)
  | Grp n r =>
      run r st (fun st1 =>
        k (MState (pos st1) (rest st1)
             ((n, firstn (pos st1 - pos st) (rest st)) :: caps st1)))
  | Ahead r =>
      match run r st Some with
      | Some st1 => k (MState (pos st) (rest st) (caps st1))
      | None => None
      end
  | Bol => if Nat.eqb (pos st) 0 then k st else None
  end.

(** The result of a successful match: where it starts, the text it
    covers, and the captures. *)
Record mresult : Type := MResult {
  index : nat;
  matched : str;
  groups : list (nat * str)
}.

(** The text of capture [n] (captures are recorded innermost-latest
    first, so the first entry for [n] is the current one). *)
Fixpoint group (n : nat) (g : list (nat * str)) : option str :=
  match g with
  | [] => None
  | (i, s) :: g' => if Nat.eqb i n then Some s else group n g'
  end.

(** One attempt at index [idx], where [s] is the input from there. *)
Definition match_at (r : regex) (idx : nat) (s : str) : option mresult :=
  match run r (MState idx s []) Some with
  | Some st => Some (MResult idx (firstn (pos st - idx) s) (caps st))
  | None => None
  end.

(** [r.exec(s)] for a pattern without the [g] flag: the leftmost
    index at which an attempt succeeds. *)
Fixpoint exec_from (r : regex) (idx : nat) (s : str) : option mresult :=
  match match_at r idx s with
  | Some m => Some m
  | None =>
      match s with
      | [] => None
      | _ :: s' => exec_from r (S idx) s'
      end
  end.

Definition exec (r : regex) (s : str) : option mresult := exec_from r 0 s.

(** [r.test(s)] *)
Definition test (r : regex) (s : str) : bool :=
  match exec r s with Some _ => true | None => false end.

(** The pieces a global scan cuts the input into: the characters no match
    covers and, in between, the matches. *)
Inductive piece : Type :=
| Plain (c : char)
| Match (m : mresult).

(** [scan r idx skip s]: [s] is the input from index [idx] on; the first
    [skip] characters belong to the match found last and are passed over. *)
Fixpoint scan (r : regex) (idx skip : nat) (s : str) : list piece :=
  match skip with
  | S skip' =>
      match s with
      | [] => []
      | _ :: s' => scan r (S idx) skip' s'
      end
  | 0 =>
      match match_at r idx s with
      | Some m =>
          match matched m, s with
          | _ :: _, _ :: s' => Match m :: scan r (S idx) (length (matched m) - 1) s'
          | [], c :: s' => Match m :: Plain c :: scan r (S idx) 0 s'
          | _, [] => [Match m]
          end
      | None =>
          match s with
          | [] => []
          | c :: s' => Plain c :: scan r (S idx) 0 s'
          end
      end
  end.

Definition match_all (r : regex) (s : str) : list piece := scan r 0 0 s.

End Re.

(** ** String replacement *)

Module Replace.
Import Re.

Definition is_digit (c : char) : bool := N.leb 48 c && N.leb c 57.

Definition digit_val (c : char) : nat := N.to_nat c - 48.

Definition capture (n : nat) (caps : list (nat * str)) : str :=
  match group n caps with
  | Some s => s
  | None => []
  end.

Definition in_range (i ncaps : nat) : bool :=
  Nat.leb 1 i && Nat.leb i ncaps.

(** [GetSubstitution]: the expansion of a replacement string.  [$$] is a
    dollar sign, [$&] the matched text, [$`] and [$'] the text before and
    after the match, [$n] and [$nn] a capture when the pattern has that
    many; every other character stands for itself. *)
Fixpoint substitute (matched before after : str) (ncaps : nat)
    (caps : list (nat * str)) (tmpl : str) : str :=
  let go := substitute matched before after ncaps caps in
  match tmpl with
  | [] => []
  | c :: t =>
      if negb (N.eqb c (ch "$")) then c :: go t
      else
        match t with
        | [] => [c]
        | d :: t' =>
            if N.eqb d (ch "$") then ch "$" :: go t'
            else if N.eqb d (ch "&") then matched ++ go t'
            else if N.eqb d (ch "`") then before ++ go t'
            else if N.eqb d (ch "'") then after ++ go t'
            else if is_digit d then
              let one :=
                if in_range (digit_val d) ncaps
                then capture (digit_val d) caps ++ go t'
                else c :: d :: go t' in
              match t' with
              | e :: t'' =>
                  if is_digit e then
                    let i2 := 10 * digit_val d + digit_val e in
                    if Nat.ltb ncaps i2 then one
                    else if in_range i2 ncaps
                         then capture i2 caps ++ go t''
                         else c :: d :: e :: go t''
                  else one
              | [] => one
              end
            else c :: go t
        end
  end.

(** The number of capturing groups of a pattern. *)
Fixpoint ngroups (r : regex) : nat :=
  match r with
  | Seq r1 r2 => ngroups r1 + ngroups r2
  | Grp _ r' => S (ngroups r')
  | Ahead r' => ngroups r'
  | _ => 0
  end.

Definition expand (r : regex) (tmpl s : str) (m : mresult) : str :=
  substitute (matched m) (firstn (index m) s)
             (skipn (index m + length (matched m)) s)
             (ngroups r) (groups m) tmpl.

(** [s.replace(r, tmpl)] for a pattern without the [g] flag: the first
    match only. *)
Definition replace_first (r : regex) (tmpl s : str) : str :=
  match exec r s with
  | None => s
  | Some m =>
      firstn (index m) s ++ expand r tmpl s m
      ++ skipn (index m + length (matched m)) s
  end.

(** [s.replace(r, tmpl)] for a pattern with the [g] flag. *)
Definition replace_all (r : regex) (tmpl s : str) : str :=
  flat_map (fun p => match p with
                     | Plain c => [c]
                     | Match m => expand r tmpl s m
                     end)
           (match_all r s).

(** [s.replace(r, f)] for a pattern with the [g] flag and a callback;
    the callback may fail, and then so does the call. *)
Fixpoint rebuild (f : mresult -> option str) (ps : list piece) : option str :=
  match ps with
  | [] => Some []
  | Plain c :: ps' => option_map (cons c) (rebuild f ps')
  | Match m :: ps' =>
      match f m with
      | None => None
      | Some t => option_map (app t) (rebuild f ps')
      end
  end.

Definition replace_fn (r : regex) (f : mresult -> option str) (s : str)
  : option str :=
  rebuild f (match_all r s).

(** [s.replace(pat, tmpl)] for a string [pat]: the first occurrence of
    [pat], and [tmpl] is expanded just the same (with no captures). *)
Definition replace_str (pat tmpl s : str) : str :=
  match Str.indexOf pat s with
  | None => s
  | Some i =>
      firstn i s
      ++ substitute pat (firstn i s) (skipn (i + length pat) s) 0 [] tmpl
      ++ skipn (i + length pat) s
  end.

End Replace.

(** ** The plugin's patterns *)

Import Re.

Definition cat (rs : list regex) : regex := fold_right Seq Eps rs.
Definition star (p : char -> bool) : regex := Rep p 0 None true.
Definition plus (p : char -> bool) : regex := Rep p 1 None true.
Definition lazy_star (p : char -> bool) : regex := Rep p 0 None false.

Definition is_upper (c : char) : bool := N.leb 65 c && N.leb c 90.
Definition is_digit (c : char) : bool := Replace.is_digit c.
Definition is_space (c : char) : bool := Str.is_space c.
(** [.]: any character but a line terminator *)
Definition dot (c : char) : bool := negb (Str.is_line_terminator c).
Definition one_of (s : str) (c : char) : bool := existsb (N.eqb c) s.
Definition none_of (s : str) (c : char) : bool := negb (one_of s c).

(** [/@([A-Z]+-\d+)(?= )/g] *)
Definition taskRegex : regex :=
  cat [Chr (ch "@");
       Grp 1 (cat [plus is_upper; Chr (ch "-"); plus is_digit]);
       Ahead (Chr (ch " "))].

(** [/(.*?)\s*@([A-Z]+)(?= )/] *)
Definition newTaskRegex : regex :=
  cat [Grp 1 (lazy_star dot);
       star is_space;
       Chr (ch "@");
       Grp 2 (plus is_upper);
       Ahead (Chr (ch " "))].

(** ** [cleanMarkdown] *)

(** [/^\d+\.\s+/] *)
Definition numberedRegex : regex :=
  cat [Bol; plus is_digit; Chr (ch "."); plus is_space].

(** [/^[-*+]\s+/] *)
Definition bulletRegex : regex :=
  cat [Bol; Cls (one_of (lit "-*+")); plus is_space].

(** [/[*_]{1,3}([^*_]+)[*_]{1,3}/g] *)
Definition emphasisRegex : regex :=
  cat [Rep (one_of (lit "*_")) 1 (Some 3) true;
       Grp 1 (plus (none_of (lit "*_")));
       Rep (one_of (lit "*_")) 1 (Some 3) true].

(** [/`([^`]+)`/g] *)
Definition codeRegex : regex :=
  cat [Chr (ch "`"); Grp 1 (plus (none_of (lit "`"))); Chr (ch "`")].

(** [/\[([^\]]+)\]\([^)]+\)/g] *)
Definition mdLinkRegex : regex :=
  cat [Chr (ch "["); Grp 1 (plus (none_of (lit "]"))); Chr (ch "]");
       Chr (ch "("); plus (none_of (lit ")")); Chr (ch ")")].

(** [/^>\s+/] *)
Definition quoteRegex : regex :=
  cat [Bol; Chr (ch ">"); plus is_space].

(** [/<[^>]+>/g] *)
Definition htmlRegex : regex :=
  cat [Chr (ch "<"); plus (none_of (lit ">")); Chr (ch ">")].

Definition cleanMarkdown (text : str) : str :=
  Str.trim
    (Replace.replace_all htmlRegex empty
    (Replace.replace_first quoteRegex empty
    (Replace.replace_all mdLinkRegex (lit "$1")
    (Replace.replace_all codeRegex (lit "$1")
    (Replace.replace_all emphasisRegex (lit "$1")
    (Replace.replace_first bulletRegex empty
    (Replace.replace_first numberedRegex empty text))))))).

(** ** Mention matching *)

Definition nonempty (s : str) : bool :=
  match s with [] => false | _ :: _ => true end.

(** Lines 308-311 of [processText]: the new-task match on the cursor's
    line, [[fullMatch, taskSummary, queueKey]], taken only when the line
    has no ["]("]. *)
Definition newTaskMatch (currentLine : str) : option (str * str * str) :=
  match exec newTaskRegex currentLine with
  | Some m =>
      if negb (Str.includes (lit "](") currentLine)
      then Some (matched m,
                 Replace.capture 1 (groups m),
                 Replace.capture 2 (groups m))
      else None
  | None => None
  end.

(** The markdown link [[taskId](base + taskId)]. *)
Definition taskLink (base taskId : str) : str :=
  lit "[" ++ taskId ++ lit "](" ++ base ++ taskId ++ lit ")".

(** [new RegExp(source)], for the pattern syntax that the link check can
    meet: an escaped punctuation character, [.], and characters that stand
    for themselves.  Any other pattern syntax is not interpreted ([None]). *)
Definition is_syntax (c : char) : bool :=
  one_of (lit "\^$.*+?()[]{}|") c.

Fixpoint RegExp_atoms (src : str) : option (list regex) :=
  match src with
  | [] => Some []
  | c :: t =>
      if N.eqb c (ch "\") then
        match t with
        | d :: t' =>
            if is_syntax d
            then option_map (cons (Chr d)) (RegExp_atoms t')
            else None
        | [] => None
        end
      else if N.eqb c (ch ".") then option_map (cons (Cls dot)) (RegExp_atoms t)
      else if is_syntax c then None
      else option_map (cons (Chr c)) (RegExp_atoms t)
  end.

Definition RegExp (src : str) : option regex :=
  option_map cat (RegExp_atoms src).

(** [`\\[${taskId}\\]\\(${base}${taskId}\\)`] *)
Definition urlPatternSource (base taskId : str) : str :=
  lit "\[" ++ taskId ++ lit "\]\(" ++ base ++ taskId ++ lit "\)".

(** The callback of the replacement at lines 355-369: [content] is the
    text read at the start of the pass, [offset] the index of the match in
    the text being rewritten. *)
Definition linkTask (base content : str) (m : mresult) : option str :=
  let fullMatch := matched m in
  let taskId := Replace.capture 1 (groups m) in
  let offset := index m in
  if Str.endsWith (lit "](") (Str.slice (Nat.max 0 (offset - 3)) offset content)
  then Some fullMatch
  else
    let lines := Str.split nl content in
    let currentLineIndex :=
      length (Str.split nl (Str.slice 0 offset content)) - 1 in
    let currentLine := nth currentLineIndex lines (lit "undefined") in
    match RegExp (urlPatternSource base taskId) with
    | None => None
    | Some urlPattern =>
        if test urlPattern currentLine then Some fullMatch
        else Some (taskLink base taskId)
    end.

(** Lines 355-369: every match of [taskRegex] in [updatedContent] goes
    through [linkTask]. *)
Definition linkTasks (base content updatedContent : str) : option str :=
  Replace.replace_fn taskRegex (linkTask base content) updatedContent.

(** ** The remote call *)

(** Decimal digits of a number, as a template literal prints an integer
    below [1e21] (here: an HTTP status code). *)
Fixpoint digits_of_uint (d : Decimal.uint) : str :=
  match d with
  | Decimal.Nil => []
  | Decimal.D0 d' => ch "0" :: digits_of_uint d'
  | Decimal.D1 d' => ch "1" :: digits_of_uint d'
  | Decimal.D2 d' => ch "2" :: digits_of_uint d'
  | Decimal.D3 d' => ch "3" :: digits_of_uint d'
  | Decimal.D4 d' => ch "4" :: digits_of_uint d'
  | Decimal.D5 d' => ch "5" :: digits_of_uint d'
  | Decimal.D6 d' => ch "6" :: digits_of_uint d'
  | Decimal.D7 d' => ch "7" :: digits_of_uint d'
  | Decimal.D8 d' => ch "8" :: digits_of_uint d'
  | Decimal.D9 d' => ch "9" :: digits_of_uint d'
  end.

Definition decimal (n : N) : str := digits_of_uint (N.to_uint n).

(** A parsed JSON value ([response.json]).  Of a number the plugin reads
    two things: whether it is zero, and the text a template literal prints
    for it, which is the host's [Number::toString] (the digits of a small
    integer, a decimal point for a fraction, exponent form from [1e21]
    on).  A number is modelled by these two, [JNum zero text]; the text
    of zero is ["0"].  The field names of a parsed object are distinct. *)
Inductive json : Type :=
| JNull
| JBool (b : bool)
| JNum (zero : bool) (text : str)
| JStr (s : str)
| JArr (items : list json)
| JObj (fields : list (str * json)).

(** JavaScript truthiness of a value. *)
Definition truthy (v : json) : bool :=
  match v with
  | JNull => false
  | JBool b => b
  | JNum zero _ => negb zero
  | JStr s => nonempty s
  | JArr _ | JObj _ => true
  end.

Fixpoint lookup (name : str) (fields : list (str * json)) : option json :=
  match fields with
  | [] => None
  | (n, v) :: fields' => if Str.eqb n name then Some v else lookup name fields'
  end.

(** [v.key]: a field of an object; [undefined] ([None]) on every other
    value the plugin can hold here. *)
Definition get_key (v : json) : option json :=
  match v with
  | JObj fields => lookup (lit "key") fields
  | _ => None
  end.

(** [`${v}`] *)
Fixpoint ToString (v : json) : str :=
  match v with
  | JNull => lit "null"
  | JBool true => lit "true"
  | JBool false => lit "false"
  | JNum _ text => text
  | JStr s => s
  | JArr items =>
      (fix items_string (l : list json) : str :=
         match l with
         | [] => []
         | x :: l' =>
             (match x with JNull => [] | _ => ToString x end)
             ++ match l' with
                | [] => []
                | _ :: _ => lit "," ++ items_string l'
                end
         end) items
  | JObj _ => lit "[object Object]"
  end.

(** A thrown value: whether it is an [Error], and its message. *)
Record thrown : Type := Thrown {
  isError : bool;
  message : str
}.

Definition Error (msg : str) : thrown := Thrown true msg.

(** How the [try] block of [createTask] ends before the response is read
    (lines 230-254): with the response of [requestUrl], whose [status] is
    an HTTP status code (an integer below 1000) and whose [json] may throw
    when read, or with a
    throw, which is the rejection of [requestUrl] or, for a deadline that
    the host's [Date] does not read as a date, the [RangeError] of
    [toISOString()]. *)
Inductive http_outcome : Type :=
| Response (status : nat) (body : thrown + json)
| Rejected (e : thrown).

Record TaskCreationData : Type := {
  confirmed : bool;
  summary : str;
  description : str;
  deadline : str;
  tags : list str;
  assignee : str
}.

Record YandexTrackerSettings : Type := {
  trackerBaseURL : str;
  apiToken : str;
  orgId : str;
  defaultDescription : str;
  defaultAssignees : list str
}.

(** The request [createTask] builds.  Of the deadline it holds the date
    [d] of [new Date(d).toISOString()], and nothing when the field is
    [undefined]; the text the host's [Date] prints for [d] is not
    modelled. *)
Record request : Type := {
  url : str;
  method : str;
  authorization : str;
  xOrgId : str;
  body_summary : str;
  body_queue_key : str;
  body_description : str;
  body_deadline : option str;
  body_tags : list str;
  body_assignee : option str
}.

(** Lines 230-254: an empty deadline and an empty assignee are left
    out. *)
Definition createTask_request (settings : YandexTrackerSettings)
    (summary queueKey description deadline : str) (tags : list str)
    (assignee : str) : request :=
  {| url := lit "https://api.tracker.yandex.net/v2/issues/";
     method := lit "POST";
     authorization := lit "OAuth " ++ apiToken settings;
     xOrgId := orgId settings;
     body_summary := summary;
     body_queue_key := queueKey;
     body_description := description;
     body_deadline := if nonempty deadline then Some deadline else None;
     body_tags := tags;
     body_assignee := if nonempty assignee then Some assignee else None |}.

(** [Array.isArray(response.json) ? response.json[0] : response.json];
    [undefined] ([None]) for the first element of an empty array. *)
Definition responseData (j : json) : option json :=
  match j with
  | JArr items => nth_error items 0
  | _ => Some j
  end.

(** Lines 256-266: the task key read from the response, or what is
    thrown. *)
Definition createTask_response (o : http_outcome) : thrown + json :=
  match o with
  | Rejected e => inl e
  | Response status body =>
      if negb (Nat.eqb status 201)
      then inl (Error (lit "API request failed: " ++ decimal (N.of_nat status)))
      else
        match body with
        | inl e => inl e
        | inr j =>
            match responseData j with
            | Some d =>
                if truthy d then
                  match get_key d with
                  | Some k =>
                      if truthy k then inr k
                      else inl (Error (lit "Invalid API response: missing task key"))
                  | None =>
                      inl (Error (lit "Invalid API response: missing task key"))
                  end
                else inl (Error (lit "Invalid API response: missing task key"))
            | None => inl (Error (lit "Invalid API response: missing task key"))
            end
        end
  end.

(** Lines 268-274: the [catch] of [createTask] shows a notice for an
    [Error] and throws it again. *)
Definition createTask_notices (r : thrown + json) : list str :=
  match r with
  | inl e =>
      if isError e then [lit "Failed to create task: " ++ message e] else []
  | inr _ => []
  end.

(** ** The controller *)

Record editor : Type := Editor {
  value : str;
  cursor : nat * nat
}.

(** [editor.setValue(v)] replaces the document; the host moves the cursor,
    here to the start. *)
Definition setValue (v : str) (e : editor) : editor := Editor v (0, 0).
Definition setCursor (c : nat * nat) (e : editor) : editor := Editor (value e) c.
Definition getLine (n : nat) (e : editor) : str :=
  nth n (Str.split nl (value e)) [].

(** The plugin instance with the editor it works on, the notices it has
    shown and the confirmation dialogs it has opened (summary and queue). *)
Record plugin : Type := Plugin {
  settings : YandexTrackerSettings;
  isProcessing : bool;
  ed : editor;
  notices : list str;
  modals : list (str * str)
}.

Definition set_isProcessing (b : bool) (p : plugin) : plugin :=
  Plugin (settings p) b (ed p) (notices p) (modals p).
Definition set_ed (e : editor) (p : plugin) : plugin :=
  Plugin (settings p) (isProcessing p) e (notices p) (modals p).
Definition notice (msg : str) (p : plugin) : plugin :=
  Plugin (settings p) (isProcessing p) (ed p) (notices p ++ [msg]) (modals p).
Definition open_modal (summary queueKey : str) (p : plugin) : plugin :=
  Plugin (settings p) (isProcessing p) (ed p) (notices p)
         (modals p ++ [(summary, queueKey)]).

(** An [async] call: it has finished, or it waits for the confirmation
    dialog or for [createTask], whose [try] block builds the request
    [req], and goes on from the plugin state it finds when the answer
    comes.  [Unmodelled] is a run that reaches pattern syntax [RegExp]
    does not interpret. *)
Inductive proc : Type :=
| Done (p : plugin)
| Unmodelled
| AwaitModal (p : plugin) (k : TaskCreationData -> plugin -> proc)
| AwaitRequest (p : plugin) (req : request) (k : http_outcome -> plugin -> proc).

(** [lines[i] = v] for an index inside the array (the only use). *)
Fixpoint set_nth (i : nat) (v : str) (lines : list str) : list str :=
  match lines, i with
  | [], _ => []
  | _ :: ls, 0 => v :: ls
  | l :: ls, S i' => l :: set_nth i' v ls
  end.

(** Lines 354-377: the existing-task pass, the write-back when the text
    changed, and the [finally]. *)
Definition finishPass (content updatedContent : str) (cur : nat * nat)
    (p : plugin) : proc :=
  match linkTasks (trackerBaseURL (settings p)) content updatedContent with
  | None => Unmodelled
  | Some updated =>
      let p1 :=
        if negb (Str.eqb content updated)
        then set_ed (setCursor cur (setValue updated (ed p))) p
        else p in
      Done (set_isProcessing false p1)
  end.

(** Lines 297-378. *)
Definition processText (p0 : plugin) : proc :=
  if isProcessing p0 then Done p0
  else
    let p := set_isProcessing true p0 in
    let cur := cursor (ed p) in
    let content := value (ed p) in
    let lines := Str.split nl content in
    let currentLine := nth (fst cur) lines (lit "undefined") in
    match newTaskMatch currentLine with
    | Some (fullMatch, taskSummary, queueKey) =>
        if nonempty (apiToken (settings p)) && nonempty (orgId (settings p))
        then
          let cleanSummary := cleanMarkdown taskSummary in
          let summary0 :=
            if nonempty (Str.trim cleanSummary) then Str.trim cleanSummary
            else lit "New task" in
          AwaitModal (open_modal summary0 queueKey p) (fun result p1 =>
            if negb (confirmed result)
            then Done (set_isProcessing false (set_isProcessing false p1))
            else
              AwaitRequest p1
                (createTask_request (settings p1) (summary result) queueKey
                   (description result) (deadline result) (tags result)
                   (assignee result))
                (fun o p2 =>
                   let r := createTask_response o in
                   let p3 := fold_left (fun q n => notice n q)
                                       (createTask_notices r) p2 in
                   match r with
                   | inl _ =>
                       Done (set_isProcessing false (set_isProcessing false p3))
                   | inr key =>
                       let taskId := ToString key in
                       let newLine :=
                         Replace.replace_str fullMatch
                           ((if nonempty taskSummary
                             then taskSummary ++ lit " " else [])
                            ++ taskLink (trackerBaseURL (settings p3)) taskId)
                           currentLine in
                       let updatedContent :=
                         Str.join [nl]
                                  (set_nth (fst cur) newLine lines) in
                       finishPass content updatedContent cur
                         (notice (lit "Task " ++ taskId
                                  ++ lit " created successfully!") p3)
                   end))
        else
          Done (set_isProcessing false (set_isProcessing false
                  (notice (lit "Please configure API Token and Organization ID in settings") p)))
    | None => finishPass content content cur p
    end.

(** The [editor-change] handler, lines 194-202. *)
Definition charAt (i : nat) (s : str) : str :=
  match nth_error s i with
  | Some c => [c]
  | None => []
  end.

Definition charBeforeCursor (e : editor) : str :=
  let cur := cursor e in
  let line := getLine (fst cur) e in
  if Nat.ltb 0 (snd cur) then charAt (snd cur - 1) line else [].

Definition onEditorChange (p : plugin) : proc :=
  if negb (isProcessing p) && Str.eqb (charBeforeCursor (ed p)) (lit " ")
  then processText p
  else Done p.

(** The command [convert-tracker-links], lines 184-190. *)
Definition onCommand (p : plugin) : proc := processText p.

(** ** The plugin in its host

    The host delivers events one at a time.  A pass that waits for the
    dialog or for the HTTP response is kept with the continuation that the
    answer resumes. *)

Inductive suspended : Type :=
| OnModal (k : TaskCreationData -> plugin -> proc)
| OnRequest (k : http_outcome -> plugin -> proc).

Record system : Type := System {
  plug : plugin;
  waiting : list suspended
}.

Inductive event : Type :=
| EditorChange (e : editor)
| Command
| ModalResult (d : TaskCreationData)
| RequestResult (o : http_outcome).

(** Where a call leaves the system: [None] for a run this development
    does not interpret. *)
Definition settle (w : list suspended) (r : proc) : option system :=
  match r with
  | Done p => Some (System p w)
  | Unmodelled => None
  | AwaitModal p k => Some (System p (w ++ [OnModal k]))
  | AwaitRequest p _ k => Some (System p (w ++ [OnRequest k]))
  end.

Definition step (s : system) (ev : event) : option system :=
  match ev with
  | EditorChange e => settle (waiting s) (onEditorChange (set_ed e (plug s)))
  | Command => settle (waiting s) (onCommand (plug s))
  | ModalResult d =>
      match waiting s with
      | OnModal k :: w => settle w (k d (plug s))
      | _ => Some s
      end
  | RequestResult o =>
      match waiting s with
      | OnRequest k :: w => settle w (k o (plug s))
      | _ => Some s
      end
  end.

Fixpoint steps (s : system) (evs : list event) : option system :=
  match evs with
  | [] => Some s
  | ev :: evs' =>
      match step s ev with
      | Some s' => steps s' evs'
      | None => None
      end
  end.

(** A freshly loaded plugin: nothing in flight. *)
Definition loaded (st : YandexTrackerSettings) (e : editor) : system :=
  System (Plugin st false e [] []) [].

(** One pass with nothing else happening in between: the trigger, the
    dialog's answer and the response to the request. *)
Definition runPass (p : plugin) (d : TaskCreationData) (o : http_outcome)
  : option plugin :=
  match processText p with
  | Done p' => Some p'
  | Unmodelled => None
  | AwaitRequest _ _ _ => None
  | AwaitModal p1 k =>
      match k d p1 with
      | Done p' => Some p'
      | AwaitRequest p2 _ k2 =>
          match k2 o p2 with
          | Done p' => Some p'
          | _ => None
          end
      | _ => None
      end
  end.

(** The default description, a Tracker [cut] block with Russian text,
    by its code units where they are not ASCII (34 is the double quote). *)
Definition DEFAULT_DESCRIPTION : str :=
  lit "{% cut "
  ++ [34]%N
  ++ [1057; 1086; 1079; 1076; 1072; 1085; 1086]%N
  ++ lit " "
  ++ [1080; 1079]%N
  ++ lit " Obsidian"
  ++ [34]%N
  ++ lit " %}"
  ++ [nl]
  ++ [nl]
  ++ [1069; 1090; 1072]%N
  ++ lit " "
  ++ [1079; 1072; 1076; 1072; 1095; 1072]%N
  ++ lit " "
  ++ [1089; 1086; 1079; 1076; 1072; 1085; 1072]%N
  ++ lit " "
  ++ [1080; 1079]%N
  ++ lit " "
  ++ [1079; 1072; 1084; 1077; 1090; 1086; 1082]%N
  ++ lit " "
  ++ [1074]%N
  ++ lit " Obsidian."
  ++ [nl]
  ++ [nl]
  ++ lit "{% endcut %}".

Definition DEFAULT_SETTINGS : YandexTrackerSettings :=
  {| trackerBaseURL := lit "https://tracker.yandex.ru/";
     apiToken := [];
     orgId := [];
     defaultDescription := DEFAULT_DESCRIPTION;
     defaultAssignees := [] |}.

(** ** Comma-separated inputs

    [value.split(',').map(x => x.trim()).filter(x => x)]: the entries of a
    comma-separated input, as the dialog reads its tags (line 143) and the
    settings tab the default assignees (lines 445-447, where the filter is
    [x.length > 0]). *)
Definition commaSeparated (value : str) : list str :=
  filter nonempty (map Str.trim (Str.split (ch ",") value)).

(** ** The confirmation dialog

    [ConfirmationModal], lines 32-169: the constructor's arguments, the
    values of the inputs, the quick-fill buttons, the promise [result] and
    whether the dialog is on screen.  A promise is settled by the first
    call of its [resolve]; a later call changes nothing. *)
Record ConfirmationModal : Type := {
  modalSummary : str;
  modalQueueKey : str;
  summaryInput : str;
  descriptionInput : str;
  deadlineInput : str;
  tagsInput : str;
  assigneeInput : str;
  assigneeButtons : list str;
  result : option TaskCreationData;
  isOpen : bool
}.

(** [new ConfirmationModal(app, summary, queueKey, plugin)] *)
Definition newConfirmationModal (summary queueKey : str) : ConfirmationModal :=
  {| modalSummary := summary; modalQueueKey := queueKey;
     summaryInput := []; descriptionInput := []; deadlineInput := [];
     tagsInput := []; assigneeInput := []; assigneeButtons := [];
     result := None; isOpen := false |}.

(** [onOpen], lines 48-148, run by [open()]: [tomorrow] is the date part
    of the next day's [toISOString()]. *)
Definition onOpen (st : YandexTrackerSettings) (tomorrow : str)
    (m : ConfirmationModal) : ConfirmationModal :=
  {| modalSummary := modalSummary m; modalQueueKey := modalQueueKey m;
     summaryInput := modalSummary m;
     descriptionInput := defaultDescription st;
     deadlineInput := tomorrow;
     tagsInput := []; assigneeInput := [];
     assigneeButtons := defaultAssignees st;
     result := result m; isOpen := true |}.

Definition resolvePromise (v : TaskCreationData) (m : ConfirmationModal)
  : ConfirmationModal :=
  match result m with
  | Some _ => m
  | None =>
      {| modalSummary := modalSummary m; modalQueueKey := modalQueueKey m;
         summaryInput := summaryInput m;
         descriptionInput := descriptionInput m;
         deadlineInput := deadlineInput m;
         tagsInput := tagsInput m; assigneeInput := assigneeInput m;
         assigneeButtons := assigneeButtons m;
         result := Some v; isOpen := isOpen m |}
  end.

(** The answer of a dialog that was not confirmed (lines 126-133 and
    154-161). *)
Definition dismissed (m : ConfirmationModal) : TaskCreationData :=
  {| confirmed := false; summary := modalSummary m; description := [];
     deadline := []; tags := []; assignee := [] |}.

(** The answer the [Create] button gives (lines 138-145). *)
Definition submitted (m : ConfirmationModal) : TaskCreationData :=
  {| confirmed := true;
     summary := Str.trim (summaryInput m);
     description := Str.trim (descriptionInput m);
     deadline := deadlineInput m;
     tags := commaSeparated (tagsInput m);
     assignee := Str.trim (assigneeInput m) |}.

(** [onClose], lines 150-164, and [close()], which takes the dialog off
    the screen and runs it. *)
Definition onClose (m : ConfirmationModal) : ConfirmationModal :=
  resolvePromise (dismissed m) m.

Definition close (m : ConfirmationModal) : ConfirmationModal :=
  let m' := onClose m in
  {| modalSummary := modalSummary m'; modalQueueKey := modalQueueKey m';
     summaryInput := summaryInput m';
     descriptionInput := descriptionInput m';
     deadlineInput := deadlineInput m';
     tagsInput := tagsInput m'; assigneeInput := assigneeInput m';
     assigneeButtons := assigneeButtons m';
     result := result m'; isOpen := false |}.

(** What the user can do with the dialog: edit an input, press a
    quick-fill button, [Cancel], [Create], or close it with the Escape
    key. *)
Inductive gesture : Type :=
| EditSummary (v : str)
| EditDescription (v : str)
| EditDeadline (v : str)
| EditTags (v : str)
| EditAssignee (v : str)
| ClickAssignee (i : nat)
| ClickCancel
| ClickCreate
| PressEscape.

Definition set_inputs (s d dl t a : str) (m : ConfirmationModal)
  : ConfirmationModal :=
  {| modalSummary := modalSummary m; modalQueueKey := modalQueueKey m;
     summaryInput := s; descriptionInput := d; deadlineInput := dl;
     tagsInput := t; assigneeInput := a;
     assigneeButtons := assigneeButtons m;
     result := result m; isOpen := isOpen m |}.

(** A dialog that is not on the screen takes no gesture. *)
Definition gesture_step (m : ConfirmationModal) (g : gesture)
  : ConfirmationModal :=
  if negb (isOpen m) then m
  else
    let s := summaryInput m in
    let d := descriptionInput m in
    let dl := deadlineInput m in
    let t := tagsInput m in
    let a := assigneeInput m in
    match g with
    | EditSummary v => set_inputs v d dl t a m
    | EditDescription v => set_inputs s v dl t a m
    | EditDeadline v => set_inputs s d v t a m
    | EditTags v => set_inputs s d dl v a m
    | EditAssignee v => set_inputs s d dl t v m
    | ClickAssignee i =>
        match nth_error (assigneeButtons m) i with
        | Some name => set_inputs s d dl t name m
        | None => m
        end
    | ClickCancel => close (resolvePromise (dismissed m) m)
    | ClickCreate => close (resolvePromise (submitted m) m)
    | PressEscape => close m
    end.

(** Lines 317-320: the dialog [processText] opens, after the gestures
    [gs]; [getResult] is its [result]. *)
Definition openedModal (st : YandexTrackerSettings) (tomorrow summary queueKey : str)
  : ConfirmationModal :=
  onOpen st tomorrow (newConfirmationModal summary queueKey).

Definition getResult (m : ConfirmationModal) : option TaskCreationData :=
  result m.

(** ** The settings tab

    [YandexTrackerSettingTab.display], lines 389-449: the five fields, what
    each shows ([setValue]) and what its [onChange] stores. *)
Inductive setting : Type :=
| TrackerBaseURL
| ApiToken
| OrgId
| DefaultDescription
| DefaultAssignees.

Definition shownValue (f : setting) (st : YandexTrackerSettings) : str :=
  match f with
  | TrackerBaseURL => trackerBaseURL st
  | ApiToken => apiToken st
  | OrgId => orgId st
  | DefaultDescription => defaultDescription st
  | DefaultAssignees => Str.join (lit ", ") (defaultAssignees st)
  end.

Definition onChange (f : setting) (value : str) (st : YandexTrackerSettings)
  : YandexTrackerSettings :=
  match f with
  | TrackerBaseURL =>
      {| trackerBaseURL := value; apiToken := apiToken st; orgId := orgId st;
         defaultDescription := defaultDescription st;
         defaultAssignees := defaultAssignees st |}
  | ApiToken =>
      {| trackerBaseURL := trackerBaseURL st; apiToken := value;
         orgId := orgId st;
         defaultDescription := defaultDescription st;
         defaultAssignees := defaultAssignees st |}
  | OrgId =>
      {| trackerBaseURL := trackerBaseURL st; apiToken := apiToken st;
         orgId := value;
         defaultDescription := defaultDescription st;
         defaultAssignees := defaultAssignees st |}
  | DefaultDescription =>
      {| trackerBaseURL := trackerBaseURL st; apiToken := apiToken st;
         orgId := orgId st;
         defaultDescription := value;
         defaultAssignees := defaultAssignees st |}
  | DefaultAssignees =>
      {| trackerBaseURL := trackerBaseURL st; apiToken := apiToken st;
         orgId := orgId st;
         defaultDescription := defaultDescription st;
         defaultAssignees := commaSeparated value |}
  end.

(** ** Specification vocabulary

    What the properties below are stated with.  None of these is in the
    source: the predicates on texts are tied to the source's patterns by
    the lemmas of [ReFacts]. *)

(** A task identifier [U-D]: upper-case letters, a dash, digits. *)
Definition task_id (U D : str) : Prop :=
  nonempty U = true /\ forallb is_upper U = true /\
  nonempty D = true /\ forallb is_digit D = true.

(** The reference [@U-D] that starts [s], when the character after it is
    a space: what one attempt of [taskRegex] finds ([match_at_task]). *)
Definition token_at (s : str) : option str :=
  match s with
  | c :: s1 =>
      if N.eqb c (ch "@") then
        let n := run_len is_upper None s1 in
        if Nat.leb 1 n then
          match skipn n s1 with
          | d :: s2 =>
              if N.eqb d (ch "-") then
                let k := run_len is_digit None s2 in
                if Nat.leb 1 k then
                  match skipn k s2 with
                  | e :: _ =>
                      if N.eqb e (ch " ")
                      then Some (firstn n s1 ++ d :: firstn k s2)
                      else None
                  | [] => None
                  end
                else None
              else None
          | [] => None
          end
        else None
      else None
  | [] => None
  end.

(** A base URL whose characters [RegExp] reads as themselves, or as the
    wildcard when they are a dot. *)
Definition plain_char (c : char) : bool :=
  N.eqb c (ch ".") || negb (is_syntax c).
Definition plain_url (base : str) : bool := forallb plain_char base.

(** The pattern a plain string compiles to. *)
Definition atom (c : char) : regex :=
  if N.eqb c (ch ".") then Cls dot else Chr c.

(** [pat] read with every dot as a wildcard: it matches at the start of
    [s], or somewhere in [s]. *)
Fixpoint wild_prefix (pat s : str) : bool :=
  match pat, s with
  | [], _ => true
  | p :: pat', c :: s' =>
      (if N.eqb p (ch ".") then dot c else N.eqb c p) && wild_prefix pat' s'
  | _ :: _, [] => false
  end.

Fixpoint wild_includes (pat s : str) : bool :=
  wild_prefix pat s ||
  match s with
  | [] => false
  | _ :: s' => wild_includes pat s'
  end.

(** The two checks of [linkTask], by name: the text before [offset] ends
    with ["]("], and the line of [content] that holds [offset]. *)
Definition inside_link (content : str) (offset : nat) : bool :=
  Str.endsWith (lit "](") (Str.slice (Nat.max 0 (offset - 3)) offset content).

Definition line_of (content : str) (offset : nat) : str :=
  nth (length (Str.split nl (Str.slice 0 offset content)) - 1)
      (Str.split nl content) (lit "undefined").

Definition last_line (s : str) : str := last (Str.split nl s) [].
Definition first_line (s : str) : str := hd [] (Str.split nl s).

(** The pass of [linkTasks] over a part [s] of the text that starts at
    [offset]. *)
Definition linkTasksFrom (base content : str) (offset : nat) (s : str)
  : option str :=
  Replace.rebuild (linkTask base content) (scan taskRegex offset 0 s).

(** Every match of [taskRegex] is a reference, with its identifier as
    the one capture. *)
Definition token_piece (p : piece) : Prop :=
  match p with
  | Plain _ => True
  | Match m =>
      exists U D, task_id U D /\
        m = MResult (index m) (ch "@" :: U ++ ch "-" :: D) [(1, U ++ ch "-" :: D)]
  end.

(** [s] starts with upper-case letters and then a space. *)
Definition key_space (s : str) : bool :=
  let n := run_len is_upper None s in
  Nat.leb 1 n &&
  match skipn n s with
  | e :: _ => N.eqb e (ch " ")
  | [] => false
  end.

(** Somewhere in [s] there is an [@], upper-case letters and a space. *)
Fixpoint has_trigger (s : str) : bool :=
  match s with
  | [] => false
  | c :: s' => (N.eqb c (ch "@") && key_space s') || has_trigger s'
  end.

(** The queue key of a trigger that starts [s] after optional white
    space: what the part of [newTaskRegex] after its first group finds
    ([run_trigger]). *)
Definition trigger_at (s : str) : option str :=
  match skipn (run_len is_space None s) s with
  | c :: s2 =>
      if N.eqb c (ch "@") && key_space s2
      then Some (firstn (run_len is_upper None s2) s2)
      else None
  | [] => None
  end.

Fixpoint no_trailing_space (s : str) : bool :=
  match s with
  | [] => true
  | c :: s' =>
      match s' with
      | [] => negb (is_space c)
      | _ :: _ => no_trailing_space s'
      end
  end.

(** [\s*@([A-Z]+)(?= )], the part of [newTaskRegex] after [(.*?)]. *)
Definition triggerRegex : regex :=
  cat [star is_space; Chr (ch "@"); Grp 2 (plus is_upper); Ahead (Chr (ch " "))].


(** The object [d] has a field called [name], whatever its value. *)
Definition has_field (name : str) (d : json) : bool :=
  match d with
  | JObj fields =>
      match lookup name fields with Some _ => true | None => false end
  | _ => false
  end.

(** The line of the document the cursor is on, as [processText] reads
    it. *)
Definition currentLine (p : plugin) : str :=
  nth (fst (cursor (ed p))) (Str.split nl (value (ed p))) (lit "undefined").

Definition has_credentials (p : plugin) : bool :=
  nonempty (apiToken (settings p)) && nonempty (orgId (settings p)).

(** A call keeps the lock while it waits and has released it when it is
    done, whatever it is resumed with, as long as the lock is still held
    then. *)
Fixpoint well_locked (r : proc) : Prop :=
  match r with
  | Done p => isProcessing p = false
  | Unmodelled => True
  | AwaitModal p k =>
      isProcessing p = true /\
      forall d p', isProcessing p' = true -> well_locked (k d p')
  | AwaitRequest p _ k =>
      isProcessing p = true /\
      forall o p', isProcessing p' = true -> well_locked (k o p')
  end.

Definition good_suspended (w : suspended) : Prop :=
  match w with
  | OnModal k => forall d p', isProcessing p' = true -> well_locked (k d p')
  | OnRequest k => forall o p', isProcessing p' = true -> well_locked (k o p')
  end.

(** The lock is held exactly while one pass waits. *)
Definition lock_invariant (s : system) : Prop :=
  match waiting s with
  | [] => isProcessing (plug s) = false
  | [w] => isProcessing (plug s) = true /\ good_suspended w
  | _ :: _ :: _ => False
  end.

(** Settings with credentials, and the answers used in the examples. *)
Definition configured : YandexTrackerSettings :=
  {| trackerBaseURL := trackerBaseURL DEFAULT_SETTINGS;
     apiToken := lit "y0_token";
     orgId := lit "7";
     defaultDescription := defaultDescription DEFAULT_SETTINGS;
     defaultAssignees := [] |}.

Definition cancelled (summary0 : str) : TaskCreationData :=
  {| confirmed := false; summary := summary0; description := [];
     deadline := []; tags := []; assignee := [] |}.

Definition accepted (summary0 : str) : TaskCreationData :=
  {| confirmed := true; summary := summary0; description := [];
     deadline := lit "2026-11-03"; tags := []; assignee := [] |}.

Definition created (key : str) : http_outcome :=
  Response 201 (inr (JObj [(lit "id", JStr (lit "5f1")); (lit "key", JStr key)])).

Definition editing (st : YandexTrackerSettings) (text : str) (cur : nat * nat)
  : plugin :=
  Plugin st false (Editor text cur) [] [].


(** Somewhere in [s] there is a reference [@U-D] followed by a space. *)
Fixpoint has_reference (s : str) : bool :=
  match token_at s with Some _ => true | None => false end
  || match s with
     | [] => false
     | _ :: s' => has_reference s'
     end.

Definition has_char (c : char) (s : str) : bool := existsb (N.eqb c) s.

(** A pattern with nothing in it that a reference could match: no [@],
    no line feed, and after every dot a character that is neither a dot
    nor an upper-case letter. *)
Fixpoint inert_pat (pat : str) : bool :=
  match pat with
  | [] => true
  | q :: pat' =>
      negb (N.eqb q (ch "@")) && negb (N.eqb q nl)
      && (if N.eqb q (ch ".")
          then match pat' with
               | d :: _ => negb (N.eqb d (ch ".")) && negb (is_upper d)
               | [] => false
               end
          else true)
      && inert_pat pat'
  end.

Definition url_inert (base : str) : bool := plain_url base && inert_pat base.

(** [s'] is [s] with some of its [@U-D] replaced by their links. *)
Inductive rewrites (base : str) : str -> str -> Prop :=
| rw_nil : rewrites base [] []
| rw_char c s s' : rewrites base s s' -> rewrites base (c :: s) (c :: s')
| rw_link U D s s' :
    task_id U D -> rewrites base s s' ->
    rewrites base (ch "@" :: (U ++ ch "-" :: D) ++ s)
                  (taskLink base (U ++ ch "-" :: D) ++ s').

(** The text ends with ["]("]. *)
Definition ends_link (s : str) : bool :=
  match rev s with
  | c2 :: c1 :: _ => N.eqb c1 (ch "]") && N.eqb c2 (ch "(")
  | _ => false
  end.

(** [s] starts with upper-case letters, a dash and a digit. *)
Definition bare_token_at (s : str) : bool :=
  let n := run_len is_upper None s in
  Nat.leb 1 n &&
  match skipn n s with
  | d :: s2 => N.eqb d (ch "-") && Nat.leb 1 (run_len is_digit None s2)
  | [] => false
  end.

Fixpoint has_task_token (s : str) : bool :=
  bare_token_at s
  || match s with
     | [] => false
     | _ :: s' => has_task_token s'
     end.

(** A continuation that refuses every state whose next character is in
    the class [p]. *)
Definition refuses (p : char -> bool) (k : mstate -> option mstate) : Prop :=
  forall i c s g, p c = true -> k (MState i (c :: s) g) = None.

(** The configured default, [DEFAULT_SETTINGS.trackerBaseURL]. *)
Definition BASE : str := trackerBaseURL DEFAULT_SETTINGS.

(** An entry of a comma-separated list as the plugin stores it: not
    empty, no comma, no white space at either end. *)
Definition entry (x : str) : bool :=
  nonempty x && Str.eqb (Str.trim x) x && negb (has_char (ch ",") x).

(** The settings after a run of edits in the settings tab. *)
Definition edit_settings (edits : list (setting * str))
    (st : YandexTrackerSettings) : YandexTrackerSettings :=
  fold_left (fun s e => onChange (fst e) (snd e) s) edits st.

(** The dialog after a run of gestures. *)
Definition gestures (m : ConfirmationModal) (gs : list gesture)
  : ConfirmationModal :=
  fold_left gesture_step gs m.

(** The gestures that close the dialog, and the gestures of a run that
    come before the first of them. *)
Definition closing (g : gesture) : bool :=
  match g with
  | ClickCancel | ClickCreate | PressEscape => true
  | _ => false
  end.

Fixpoint edits_before (gs : list gesture) : list gesture :=
  match gs with
  | [] => []
  | g :: gs' => if closing g then [] else g :: edits_before gs'
  end.


(** Text that none of [cleanMarkdown]'s patterns can match: no [*], [_],
    backtick, [[] or [<] in it, and no digit, [-], [+] or [>] at its
    start. *)
Definition markdown_free (text : str) : bool :=
  negb (existsb (one_of (lit "*_`[<")) text)
  && match text with
     | [] => true
     | c :: _ => negb (is_digit c || one_of (lit "-+>") c)
     end.

(** The results of a list of calls, when none of them failed. *)
Fixpoint all_some {A : Type} (l : list (option A)) : option (list A) :=
  match l with
  | [] => Some []
  | Some x :: l' => option_map (cons x) (all_some l')
  | None :: _ => None
  end.

(** The summary the dialog is opened with (lines 314-315). *)
Definition dialogSummary (taskSummary : str) : str :=
  if nonempty (Str.trim (cleanMarkdown taskSummary))
  then Str.trim (cleanMarkdown taskSummary)
  else lit "New task".

(** The rest of [processText] after [await this.createTask(...)] and after
    [await modal.getResult()], for a pass that started in state [p] on the
    match [[fullMatch, taskSummary, queueKey]]; tied to [processText] by
    [processText_mention]. *)
Definition resumeAfterRequest (p : plugin) (fullMatch taskSummary : str)
    (o : http_outcome) (p2 : plugin) : proc :=
  let r := createTask_response o in
  let p3 := fold_left (fun q n => notice n q) (createTask_notices r) p2 in
  match r with
  | inl _ => Done (set_isProcessing false (set_isProcessing false p3))
  | inr key =>
      finishPass (value (ed p))
        (Str.join [nl]
           (set_nth (fst (cursor (ed p)))
              (Replace.replace_str fullMatch
                 ((if nonempty taskSummary then taskSummary ++ lit " " else [])
                  ++ taskLink (trackerBaseURL (settings p3)) (ToString key))
                 (currentLine p))
              (Str.split nl (value (ed p)))))
        (cursor (ed p))
        (notice (lit "Task " ++ ToString key ++ lit " created successfully!") p3)
  end.

Definition resumeAfterModal (p : plugin) (fullMatch taskSummary queueKey : str)
    (d : TaskCreationData) (p1 : plugin) : proc :=
  if negb (confirmed d)
  then Done (set_isProcessing false (set_isProcessing false p1))
  else
    AwaitRequest p1
      (createTask_request (settings p1) (summary d) queueKey
         (description d) (deadline d) (tags d) (assignee d))
      (resumeAfterRequest p fullMatch taskSummary).


(* ------------------------------------------------------------------ *)
(** * Facts about the matcher *)

Module ReFacts.

Lemma first_some_none {A B} (f : A -> option B) l :
  (forall x, In x l -> f x = None) -> first_some f l = None.
Proof.
  induction l as [|x l IH]; simpl; intros H; [reflexivity|].
  rewrite (H x (or_introl eq_refl)). apply IH. intros y Hy. apply H. now right.
Qed.

Lemma first_some_app {A B} (f : A -> option B) l1 l2 :
  first_some f (l1 ++ l2) =
  match first_some f l1 with Some y => Some y | None => first_some f l2 end.
Proof.
  induction l1 as [|x l1 IH]; simpl; [reflexivity|].
  destruct (f x); [reflexivity|apply IH].
Qed.

Lemma run_len_app p a b :
  forallb p a = true ->
  run_len p None (a ++ b) = length a + run_len p None b.
Proof.
  induction a as [|c a IH]; simpl; intros H; [reflexivity|].
  apply andb_true_iff in H as [Hc Ha]. rewrite Hc. simpl. now rewrite IH.
Qed.

Lemma run_len_stop p c s : p c = false -> run_len p None (c :: s) = 0.
Proof. intros H. simpl. now rewrite H. Qed.

Lemma run_len_firstn p s :
  forallb p (firstn (run_len p None s) s) = true.
Proof.
  induction s as [|c s IH]; simpl; [reflexivity|].
  destruct (p c) eqn:E; simpl; [now rewrite E|reflexivity].
Qed.

Lemma run_len_skipn p s c s' :
  skipn (run_len p None s) s = c :: s' -> p c = false.
Proof.
  induction s as [|x s IH]; simpl; [discriminate|].
  destruct (p x) eqn:E; simpl; intros H.
  - now apply IH.
  - now inversion H; subst.
Qed.

Lemma run_len_below p s j :
  j < run_len p None s ->
  exists c s', skipn j s = c :: s' /\ p c = true.
Proof.
  revert j. induction s as [|x s IH]; simpl; intros j Hj; [lia|].
  destruct (p x) eqn:E; simpl in Hj; [|lia].
  destruct j as [|j]; simpl.
  - now exists x, s.
  - apply IH. lia.
Qed.

(** A greedy unbounded repetition followed by something that cannot
    start with a character of the class takes the whole run. *)
Lemma run_greedy p lo st k :
  refuses p k ->
  run (Rep p lo None true) st k =
  if Nat.leb lo (run_len p None (rest st))
  then k (adv (run_len p None (rest st)) st)
  else None.
Proof.
  intros Hk. cbn [run]. unfold counts.
  set (n := run_len p None (rest st)).
  destruct (Nat.leb lo n) eqn:E.
  - apply Nat.leb_le in E.
    replace (S n - lo) with (S (n - lo)) by lia.
    rewrite seq_S, rev_app_distr. simpl.
    replace (lo + (n - lo)) with n by lia.
    destruct (k (adv n st)) eqn:Ek; [reflexivity|].
    apply first_some_none. intros j Hj.
    apply in_rev, in_seq in Hj.
    destruct (@run_len_below p (rest st) j) as (c & s' & Hs & Hc); [fold n; lia|].
    unfold adv. rewrite Hs. now apply Hk.
  - apply Nat.leb_gt in E.
    replace (S n - lo) with 0 by lia. reflexivity.
Qed.

Lemma firstn_run_split p s :
  s = firstn (run_len p None s) s ++ skipn (run_len p None s) s.
Proof. symmetry. apply firstn_skipn. Qed.

Lemma run_len_le p s : run_len p None s <= length s.
Proof.
  induction s as [|c s IH]; simpl; [lia|]. destruct (p c); simpl; lia.
Qed.

Lemma nonempty_length (s : str) : nonempty s = true <-> 1 <= length s.
Proof. destruct s; simpl; split; intros; try lia; try discriminate; auto. Qed.

Lemma upper_not_dash c : is_upper c = true -> N.eqb c (ch "-") = false.
Proof.
  unfold is_upper. intros H. apply andb_true_iff in H as [H1 H2].
  apply N.leb_le in H1. apply N.eqb_neq. unfold ch. simpl. lia.
Qed.

Lemma digit_not_space c : is_digit c = true -> N.eqb c (ch " ") = false.
Proof.
  unfold is_digit, Replace.is_digit. intros H. apply andb_true_iff in H as [H1 H2].
  apply N.leb_le in H1. apply N.eqb_neq. unfold ch. simpl. lia.
Qed.

Lemma upper_not_space c : is_upper c = true -> N.eqb c (ch " ") = false.
Proof.
  unfold is_upper. intros H. apply andb_true_iff in H as [H1 H2].
  apply N.leb_le in H1. apply N.eqb_neq. unfold ch. simpl. lia.
Qed.

Lemma run_Eps st k : run Eps st k = k st.
Proof. reflexivity. Qed.
Lemma run_Seq a b st k : run (Seq a b) st k = run a st (fun st1 => run b st1 k).
Proof. reflexivity. Qed.
Lemma run_Chr c i s g k :
run (Chr c) (MState i s g) k =
match s with
| x :: s' => if N.eqb x c then k (MState (i + 1) s' g) else None
| [] => None
end.
Proof. destruct s; reflexivity. Qed.
Lemma run_Cls p i s g k :
run (Cls p) (MState i s g) k =
match s with
| x :: s' => if p x then k (MState (i + 1) s' g) else None
| [] => None
end.
Proof. destruct s; reflexivity. Qed.
Lemma run_Grp n r st k :
run (Grp n r) st k =
run r st (fun st1 =>
  k (MState (pos st1) (rest st1)
       ((n, firstn (pos st1 - pos st) (rest st)) :: caps st1))).
Proof. reflexivity. Qed.
Lemma run_Ahead r st k :
run (Ahead r) st k =
match run r st Some with
| Some st1 => k (MState (pos st) (rest st) (caps st1))
| None => None
end.
Proof. reflexivity. Qed.
Lemma run_Bol st k : run Bol st k = if Nat.eqb (pos st) 0 then k st else None.
Proof. reflexivity. Qed.

Lemma firstn_more (s : str) n c s2 k :
skipn n s = c :: s2 ->
firstn (n + 1 + k) s = firstn n s ++ c :: firstn k s2.
Proof.
revert s. induction n as [|n IH]; intros s H; simpl in *.
- now subst.
- destruct s as [|x s]; [discriminate|]. simpl. f_equal. now apply IH.
Qed.

Lemma match_at_task idx s :
match_at taskRegex idx s =
option_map (fun tid => MResult idx (ch "@" :: tid) [(1, tid)]) (token_at s).
Proof.
unfold match_at, taskRegex, cat, fold_right, plus.
rewrite run_Seq, run_Chr.
destruct s as [|c s1]; [reflexivity|].
cbn [token_at]. destruct (N.eqb c (ch "@")) eqn:Ec; [|reflexivity].
rewrite run_Seq, run_Grp, run_Seq, run_greedy.
2:{ intros i x s g Hx. rewrite run_Seq, run_Chr. now rewrite (upper_not_dash _ Hx). }
unfold adv; cbn [rest pos caps].
set (n := run_len is_upper None s1).
destruct (Nat.leb 1 n) eqn:En; [|reflexivity].
rewrite run_Seq, run_Chr.
destruct (skipn n s1) as [|d s2] eqn:Es1; [reflexivity|].
destruct (N.eqb d (ch "-")) eqn:Ed; [|reflexivity].
rewrite run_Seq, run_greedy.
2:{ intros i x s g Hx. rewrite run_Eps. cbn [pos rest caps].
    rewrite run_Seq, run_Ahead, run_Chr. now rewrite (digit_not_space _ Hx). }
unfold adv; cbn [rest pos caps].
set (k := run_len is_digit None s2).
destruct (Nat.leb 1 k) eqn:Ek; [|reflexivity].
rewrite run_Eps. cbn [pos rest caps].
rewrite run_Seq, run_Ahead, run_Chr.
destruct (skipn k s2) as [|e s3] eqn:Es2; [reflexivity|].
destruct (N.eqb e (ch " ")) eqn:Ee; [|reflexivity].
rewrite run_Eps.
cbn [option_map pos caps].
apply N.eqb_eq in Ec. subst c.
replace (idx + 1 + n + 1 + k - (idx + 1)) with (n + 1 + k) by lia.
replace (idx + 1 + n + 1 + k - idx) with (S (n + 1 + k)) by lia.
cbn [firstn]. rewrite (@firstn_more s1 n d s2 k Es1). reflexivity.
Qed.

Lemma run_len_app_stop p a b r :
p b = false -> run_len p None (a ++ b :: r) = run_len p None a.
Proof.
intros Hb. induction a as [|c a IH]; simpl.
- now rewrite Hb.
- destruct (p c); [now rewrite IH|reflexivity].
Qed.

Lemma skipn_app_le {A} n (a b : list A) :
n <= length a -> skipn n (a ++ b) = skipn n a ++ b.
Proof.
intros H. rewrite skipn_app. replace (n - length a) with 0 by lia. reflexivity.
Qed.

Lemma firstn_app_le {A} n (a b : list A) :
n <= length a -> firstn n (a ++ b) = firstn n a.
Proof.
intros H. rewrite firstn_app. replace (n - length a) with 0 by lia.
simpl. apply app_nil_r.
Qed.

Lemma token_at_app x r :
x <> [] -> token_at (x ++ ch "@" :: r) = token_at x.
Proof.
destruct x as [|c s1]; [congruence|intros _].
cbn [app token_at]. destruct (N.eqb c (ch "@")); [|reflexivity].
rewrite run_len_app_stop by reflexivity.
set (n := run_len is_upper None s1).
destruct (Nat.leb 1 n); [|reflexivity].
assert (Hn : n <= length s1) by apply run_len_le.
rewrite skipn_app_le, firstn_app_le by assumption.
destruct (skipn n s1) as [|d s2]; [reflexivity|].
cbn [app]. destruct (N.eqb d (ch "-")); [|reflexivity].
rewrite run_len_app_stop by reflexivity.
set (k := run_len is_digit None s2).
destruct (Nat.leb 1 k); [|reflexivity].
assert (Hk : k <= length s2) by apply run_len_le.
rewrite skipn_app_le, firstn_app_le by assumption.
destruct (skipn k s2) as [|e s3]; reflexivity.
Qed.

Lemma token_at_some U D t :
task_id U D ->
token_at (ch "@" :: U ++ ch "-" :: D ++ ch " " :: t) = Some (U ++ ch "-" :: D).
Proof.
intros (HU & HUu & HD & HDd). cbn [token_at]. rewrite N.eqb_refl.
rewrite run_len_app, run_len_stop by (assumption || reflexivity).
rewrite Nat.add_0_r.
apply nonempty_length in HU. apply nonempty_length in HD.
replace (Nat.leb 1 (length U)) with true by (symmetry; now apply Nat.leb_le).
rewrite skipn_app, skipn_all, Nat.sub_diag. cbn [app skipn].
rewrite N.eqb_refl.
rewrite run_len_app, run_len_stop by (assumption || reflexivity).
rewrite Nat.add_0_r.
replace (Nat.leb 1 (length D)) with true by (symmetry; now apply Nat.leb_le).
rewrite skipn_app, skipn_all, Nat.sub_diag. cbn [app skipn].
rewrite N.eqb_refl.
rewrite !firstn_app, !Nat.sub_diag, !firstn_all. cbn [firstn].
now rewrite !app_nil_r.
Qed.

Lemma token_at_inv s tid :
token_at s = Some tid ->
exists U D t, task_id U D /\ tid = U ++ ch "-" :: D /\
              s = ch "@" :: tid ++ ch " " :: t.
Proof.
destruct s as [|c s1]; [discriminate|]. cbn [token_at].
destruct (N.eqb_spec c (ch "@")) as [->|]; [|discriminate].
set (n := run_len is_upper None s1).
destruct (Nat.leb 1 n) eqn:En; [|discriminate].
destruct (skipn n s1) as [|d s2] eqn:Es1; [discriminate|].
destruct (N.eqb_spec d (ch "-")) as [->|]; [|discriminate].
set (k := run_len is_digit None s2).
destruct (Nat.leb 1 k) eqn:Ek; [|discriminate].
destruct (skipn k s2) as [|e s3] eqn:Es2; [discriminate|].
destruct (N.eqb_spec e (ch " ")) as [->|]; [|discriminate].
intros H. inversion H; subst tid; clear H.
exists (firstn n s1), (firstn k s2), s3.
apply Nat.leb_le in En, Ek.
assert (Hn : n <= length s1) by apply run_len_le.
assert (Hk : k <= length s2) by apply run_len_le.
split; [|split; [reflexivity|]].
- repeat split.
  + apply nonempty_length. rewrite length_firstn. lia.
  + apply run_len_firstn.
  + apply nonempty_length. rewrite length_firstn. lia.
  + apply run_len_firstn.
- f_equal. rewrite <- app_assoc. cbn [app].
  rewrite <- Es2, firstn_skipn.
  rewrite <- (firstn_skipn n s1) at 1. now rewrite Es1.
Qed.

Lemma scan_skip r idx a b :
scan r idx (length a) (a ++ b) = scan r (idx + length a) 0 b.
Proof.
revert idx. induction a as [|c a IH]; intros idx; cbn [length app].
- now rewrite Nat.add_0_r.
- cbn [scan]. rewrite IH. f_equal. lia.
Qed.

Lemma scan_nil r idx skip :
match_at r idx [] = None -> scan r idx skip [] = [].
Proof. intros H. destruct skip; cbn [scan]; [now rewrite H|reflexivity]. Qed.

Lemma match_at_task_nil idx : match_at taskRegex idx [] = None.
Proof. now rewrite match_at_task. Qed.

Lemma scan_task_app idx skip pre r :
skip <= length pre ->
scan taskRegex idx skip (pre ++ ch "@" :: r) =
scan taskRegex idx skip pre ++ scan taskRegex (idx + length pre) 0 (ch "@" :: r).
Proof.
revert idx skip. induction pre as [|c pre IH]; intros idx skip Hs.
- cbn [length] in Hs. replace skip with 0 by lia.
  rewrite scan_nil by apply match_at_task_nil.
  cbn [app length]. now rewrite Nat.add_0_r.
- cbn [length] in Hs.
  replace (idx + length (c :: pre)) with (S idx + length pre) by (cbn [length]; lia).
  specialize (IH (S idx)).
  remember (scan taskRegex (S idx + length pre) 0 (ch "@" :: r)) as T eqn:ET.
  clear ET.
  destruct skip as [|skip].
  + change ((c :: pre) ++ ch "@" :: r) with (c :: (pre ++ ch "@" :: r)).
    cbn [scan].
    rewrite !match_at_task.
    change (c :: (pre ++ ch "@" :: r)) with ((c :: pre) ++ ch "@" :: r).
    rewrite token_at_app by discriminate.
    destruct (token_at (c :: pre)) as [tid|] eqn:Et; cbn [option_map matched].
    * destruct (@token_at_inv _ _ Et) as (U & D & t & _ & _ & Hcp).
      rewrite IH; [reflexivity|].
      inversion Hcp; subst. rewrite length_app. cbn [length]. lia.
    * rewrite IH by lia. reflexivity.
  + cbn [app scan]. now rewrite IH by lia.
Qed.

Lemma scan_task_token idx U D post :
task_id U D ->
scan taskRegex idx 0 (ch "@" :: (U ++ ch "-" :: D) ++ ch " " :: post) =
Match (MResult idx (ch "@" :: U ++ ch "-" :: D) [(1, U ++ ch "-" :: D)])
:: scan taskRegex (idx + 1 + length (U ++ ch "-" :: D)) 0 (ch " " :: post).
Proof.
intros H.
remember (scan taskRegex (idx + 1 + length (U ++ ch "-" :: D)) 0 (ch " " :: post))
  as T eqn:ET.
cbn [scan]. rewrite match_at_task.
rewrite <- app_assoc. cbn [app]. rewrite (@token_at_some U D _ H).
cbn [option_map matched length]. f_equal. subst T.
replace (S (length (U ++ ch "-" :: D)) - 1) with (length (U ++ ch "-" :: D)) by lia.
replace (U ++ ch "-" :: D ++ ch " " :: post)
  with ((U ++ ch "-" :: D) ++ ch " " :: post) by (now rewrite <- app_assoc).
rewrite scan_skip. f_equal. lia.
Qed.

Lemma rebuild_app f a b :
Replace.rebuild f (a ++ b) =
match Replace.rebuild f a, Replace.rebuild f b with
| Some x, Some y => Some (x ++ y)
| _, _ => None
end.
Proof.
induction a as [|p a IH]; cbn [app Replace.rebuild].
- destruct (Replace.rebuild f b); reflexivity.
- destruct p as [c|m].
  + rewrite IH. destruct (Replace.rebuild f a), (Replace.rebuild f b); reflexivity.
  + destruct (f m); [|reflexivity].
    rewrite IH. destruct (Replace.rebuild f a), (Replace.rebuild f b); cbn [option_map];
      try reflexivity. now rewrite app_assoc.
Qed.

Lemma is_syntax_cases c :
is_syntax c = true ->
In c [92; 94; 36; 46; 42; 43; 63; 40; 41; 91; 93; 123; 125; 124]%N.
Proof.
unfold is_syntax, one_of. intros H. apply existsb_exists in H as (x & Hx & E).
apply N.eqb_eq in E. now subst x.
Qed.

Lemma not_syntax c :
~ In c [92; 94; 36; 46; 42; 43; 63; 40; 41; 91; 93; 123; 125; 124]%N ->
is_syntax c = false.
Proof.
intros H. destruct (is_syntax c) eqn:E; [|reflexivity].
now apply is_syntax_cases in E.
Qed.

Lemma upper_plain c : is_upper c = true -> plain_char c = true /\ N.eqb c (ch ".") = false.
Proof.
unfold is_upper. intros H. apply andb_true_iff in H as [H1 H2].
apply N.leb_le in H1, H2. unfold plain_char.
assert (E : N.eqb c (ch ".") = false) by (apply N.eqb_neq; unfold ch; simpl; lia).
rewrite E. split; [|reflexivity]. rewrite not_syntax; [reflexivity|].
simpl. intros K. repeat (destruct K as [K|K]; [lia|]). exact K.
Qed.

Lemma digit_plain c : is_digit c = true -> plain_char c = true /\ N.eqb c (ch ".") = false.
Proof.
unfold is_digit, Replace.is_digit. intros H. apply andb_true_iff in H as [H1 H2].
apply N.leb_le in H1, H2. unfold plain_char.
assert (E : N.eqb c (ch ".") = false) by (apply N.eqb_neq; unfold ch; simpl; lia).
rewrite E. split; [|reflexivity]. rewrite not_syntax; [reflexivity|].
simpl. intros K. repeat (destruct K as [K|K]; [lia|]). exact K.
Qed.

Lemma forallb_imp {A} (p q : A -> bool) l :
(forall x, p x = true -> q x = true) -> forallb p l = true -> forallb q l = true.
Proof.
intros H. induction l as [|x l IH]; simpl; [reflexivity|].
intros K. apply andb_true_iff in K as [K1 K2]. now rewrite (H _ K1), IH.
Qed.

Lemma tid_plain U D :
task_id U D -> forallb plain_char (U ++ ch "-" :: D) = true.
Proof.
intros (_ & HU & _ & HD). rewrite forallb_app. cbn [forallb].
rewrite (forallb_imp is_upper plain_char U), (forallb_imp is_digit plain_char D); auto.
- intros x Hx. now apply digit_plain.
- intros x Hx. now apply upper_plain.
Qed.

Lemma atoms_app x r :
forallb plain_char x = true ->
RegExp_atoms (x ++ r) = option_map (app (map atom x)) (RegExp_atoms r).
Proof.
induction x as [|c x IH]; cbn [app forallb map]; intros H.
- destruct (RegExp_atoms r); reflexivity.
- apply andb_true_iff in H as [Hc Hx]. cbn [RegExp_atoms].
  destruct (N.eqb_spec c (ch "\")) as [->|_]; [discriminate|].
  rewrite (IH Hx).
  assert (Ha : atom c = if N.eqb c (ch ".") then Cls dot else Chr c) by reflexivity.
  rewrite Ha. clear Ha.
  destruct (N.eqb c (ch ".")) eqn:Ed.
  + destruct (RegExp_atoms r); reflexivity.
  + unfold plain_char in Hc. rewrite Ed in Hc. cbn [orb] in Hc.
    apply negb_true_iff in Hc. rewrite Hc.
    destruct (RegExp_atoms r); reflexivity.
Qed.

Lemma RegExp_url base U D :
plain_url base = true -> task_id U D ->
RegExp (urlPatternSource base (U ++ ch "-" :: D)) =
Some (cat (map atom (taskLink base (U ++ ch "-" :: D)))).
Proof.
intros Hb Ht. pose proof (tid_plain _ _ Ht) as Hp.
set (tid := U ++ ch "-" :: D) in *.
unfold RegExp, urlPatternSource, taskLink.
change (lit "\[" ++ tid ++ lit "\]\(" ++ base ++ tid ++ lit "\)")
  with (ch "\" :: ch "[" :: (tid ++ ch "\" :: ch "]" :: ch "\" :: ch "("
                               :: (base ++ tid ++ [ch "\"; ch ")"]))).
cbn [RegExp_atoms]. rewrite N.eqb_refl.
change (is_syntax (ch "[")) with true. cbn iota.
rewrite (@atoms_app _ _ Hp). cbn [RegExp_atoms]. rewrite N.eqb_refl.
change (is_syntax (ch "]")) with true. change (is_syntax (ch "(")) with true.
cbn iota.
rewrite (@atoms_app _ _ Hb), (@atoms_app _ _ Hp).
cbn [RegExp_atoms]. rewrite N.eqb_refl.
change (is_syntax (ch ")")) with true. cbn [option_map].
f_equal. f_equal.
change (lit "[" ++ tid ++ lit "](" ++ base ++ tid ++ lit ")")
  with (ch "[" :: (tid ++ ch "]" :: ch "(" :: (base ++ tid ++ [ch ")"]))).
cbn [map]. rewrite map_app. cbn [map]. rewrite !map_app. reflexivity.
Qed.

Lemma run_atoms P i s g k :
run (cat (map atom P)) (MState i s g) k =
if wild_prefix P s
then k (MState (i + length P) (skipn (length P) s) g)
else None.
Proof.
revert i s. induction P as [|p P IH]; intros i s.
- cbn. now rewrite Nat.add_0_r.
- cbn [map cat fold_right]. rewrite run_Seq. fold (cat (map atom P)).
  unfold atom at 1. destruct (N.eqb p (ch ".")) eqn:Ep.
  + rewrite run_Cls. destruct s as [|c s]; cbn [wild_prefix]; [reflexivity|].
    rewrite Ep. destruct (dot c); cbn [andb]; [|reflexivity].
    rewrite IH. cbn [length skipn]. now replace (i + 1 + length P) with (i + S (length P)) by lia.
  + rewrite run_Chr. destruct s as [|c s]; cbn [wild_prefix]; [reflexivity|].
    rewrite Ep. destruct (N.eqb c p); cbn [andb]; [|reflexivity].
    rewrite IH. cbn [length skipn]. now replace (i + 1 + length P) with (i + S (length P)) by lia.
Qed.

Lemma exec_atoms P idx s :
match exec_from (cat (map atom P)) idx s with Some _ => true | None => false end
= wild_includes P s.
Proof.
revert idx. induction s as [|c s IH]; intros idx; cbn [exec_from wild_includes];
  unfold match_at; rewrite run_atoms.
- destruct (wild_prefix P []); reflexivity.
- destruct (wild_prefix P (c :: s)); [reflexivity|]. cbn [orb]. apply IH.
Qed.

Lemma test_atoms P s : test (cat (map atom P)) s = wild_includes P s.
Proof. unfold test, exec. apply exec_atoms. Qed.

Lemma linkTask_token base content off U D :
plain_url base = true -> task_id U D ->
linkTask base content
  (MResult off (ch "@" :: U ++ ch "-" :: D) [(1, U ++ ch "-" :: D)]) =
Some (if inside_link content off
         || wild_includes (taskLink base (U ++ ch "-" :: D)) (line_of content off)
      then ch "@" :: U ++ ch "-" :: D
      else taskLink base (U ++ ch "-" :: D)).
Proof.
intros Hb Ht. unfold linkTask. cbn [matched groups index Replace.capture group Nat.eqb].
fold (inside_link content off).
destruct (inside_link content off); [reflexivity|]. cbn [orb].
rewrite (@RegExp_url base U D Hb Ht), test_atoms. fold (line_of content off).
destruct (wild_includes _ _); reflexivity.
Qed.

Lemma scan_task_pieces s : forall idx skip,
Forall token_piece (scan taskRegex idx skip s).
Proof.
induction s as [|c s IH]; intros idx skip.
- rewrite scan_nil by apply match_at_task_nil. constructor.
- destruct skip as [|skip]; cbn [scan]; [|apply IH].
  rewrite match_at_task.
  destruct (token_at (c :: s)) as [tid|] eqn:Et; cbn [option_map matched].
  + constructor; [|apply IH].
    destruct (@token_at_inv _ _ Et) as (U & D & t & Ht & -> & _).
    now exists U, D.
  + constructor; [exact I|apply IH].
Qed.

Lemma rebuild_total base content ps :
plain_url base = true -> Forall token_piece ps ->
exists out, Replace.rebuild (linkTask base content) ps = Some out.
Proof.
intros Hb. induction 1 as [|p ps Hp _ IH]; cbn [Replace.rebuild].
- now eexists.
- destruct IH as (out & ->). destruct p as [c|m]; cbn [option_map].
  + now eexists.
  + destruct Hp as (U & D & Ht & ->). cbn [index].
    rewrite (linkTask_token _ _ _ _ _ Hb Ht). cbn [option_map]. now eexists.
Qed.

Lemma linkTasksFrom_total base content idx s :
plain_url base = true ->
exists out, linkTasksFrom base content idx s = Some out.
Proof. intros Hb. apply rebuild_total; [exact Hb|apply scan_task_pieces]. Qed.

(** The pass around one reference: the text before it and the text after
  it are rewritten on their own, and the reference is kept or linked by
  the two checks made on [content] at its offset. *)
Lemma linkTasksFrom_token base content idx pre U D post :
plain_url base = true -> task_id U D ->
let tid := U ++ ch "-" :: D in
linkTasksFrom base content idx (pre ++ ch "@" :: tid ++ ch " " :: post) =
match linkTasksFrom base content idx pre,
      linkTasksFrom base content (idx + length pre + 1 + length tid)
                    (ch " " :: post) with
| Some a, Some c =>
    Some (a ++ (if inside_link content (idx + length pre)
                   || wild_includes (taskLink base tid)
                                    (line_of content (idx + length pre))
                then ch "@" :: tid else taskLink base tid) ++ c)
| _, _ => None
end.
Proof.
intros Hb Ht tid. unfold linkTasksFrom.
rewrite scan_task_app by lia.
change (ch "@" :: tid ++ ch " " :: post) with (ch "@" :: (U ++ ch "-" :: D) ++ ch " " :: post).
rewrite (scan_task_token _ _ _ _ Ht).
rewrite rebuild_app. cbn [Replace.rebuild].
rewrite (linkTask_token _ _ _ _ _ Hb Ht). fold tid.
destruct (Replace.rebuild (linkTask base content) (scan taskRegex idx 0 pre)) as [a|];
  [|reflexivity].
destruct (Replace.rebuild _ (scan taskRegex (idx + length pre + 1 + length tid) 0 _))
  as [c|]; reflexivity.
Qed.

Lemma startsWith_firstn p x m :
length p <= m -> Str.startsWith p (firstn m x) = Str.startsWith p x.
Proof.
revert x m. induction p as [|c p IH]; intros x m H; [reflexivity|].
cbn [length] in H. destruct m as [|m]; [lia|].
destruct x as [|y x]; cbn [firstn Str.startsWith]; [reflexivity|].
rewrite IH by lia. reflexivity.
Qed.

Lemma inside_link_app pre suf :
inside_link (pre ++ suf) (length pre) = Str.endsWith (lit "](") pre.
Proof.
unfold inside_link, Str.slice, Str.endsWith. cbn [Nat.max].
set (n := length pre).
rewrite skipn_app_le by (unfold n; lia).
rewrite firstn_app_le by (rewrite length_skipn; fold n; lia).
rewrite firstn_all2 by (rewrite length_skipn; fold n; lia).
replace (skipn (n - 3) pre) with (skipn (length pre - Nat.min 3 n) pre)
  by (f_equal; unfold n; lia).
rewrite <- firstn_rev.
destruct (Nat.le_gt_cases 3 n) as [H|H].
- rewrite Nat.min_l by lia. apply startsWith_firstn. cbn. lia.
- rewrite Nat.min_r by lia.
  rewrite firstn_all2 by (rewrite length_rev; fold n; lia). reflexivity.
Qed.

Lemma split_nonempty sep s : Str.split sep s <> [].
Proof.
destruct s as [|c s]; cbn [Str.split]; [discriminate|].
destruct (N.eqb c sep); [discriminate|]. destruct (Str.split sep s); discriminate.
Qed.

Lemma split_app sep a b :
Str.split sep (a ++ b) =
removelast (Str.split sep a)
++ (last (Str.split sep a) [] ++ hd [] (Str.split sep b)) :: tl (Str.split sep b).
Proof.
induction a as [|c a IH].
- cbn. pose proof (split_nonempty sep b). now destruct (Str.split sep b).
- cbn [app Str.split]. rewrite IH.
  pose proof (split_nonempty sep a) as Ha.
  destruct (N.eqb c sep).
  + destruct (Str.split sep a) as [|l0 ls]; [congruence|]. reflexivity.
  + destruct (Str.split sep a) as [|l0 [|l1 ls]]; [congruence| |]; reflexivity.
Qed.

Lemma line_of_app pre suf :
line_of (pre ++ suf) (length pre) = last_line pre ++ first_line suf.
Proof.
unfold line_of, Str.slice, last_line, first_line. cbn [skipn].
rewrite Nat.sub_0_r, firstn_app_le, firstn_all by lia.
rewrite split_app.
pose proof (split_nonempty nl pre) as Hp.
assert (Hl : length (removelast (Str.split nl pre)) = length (Str.split nl pre) - 1).
{ rewrite removelast_firstn_len, length_firstn. lia. }
rewrite app_nth2; rewrite Hl.
- now rewrite Nat.sub_diag.
- lia.
Qed.


Lemma space_not_at c : is_space c = true -> N.eqb c (ch "@") = false.
Proof.
intros H. apply N.eqb_neq. intros ->. discriminate.
Qed.

Lemma run_trigger i s g :
run triggerRegex (MState i s g) Some =
option_map
  (fun key =>
     MState (i + run_len is_space None s + 1 + length key)
            (skipn (length key) (tl (skipn (run_len is_space None s) s)))
            ((2, key) :: g))
  (trigger_at s).
Proof.
unfold triggerRegex, cat, fold_right, star, plus, trigger_at.
rewrite run_Seq, run_greedy.
2:{ intros j x t h Hx. rewrite run_Seq, run_Chr. now rewrite (space_not_at _ Hx). }
cbn [Nat.leb]. unfold adv; cbn [pos rest caps].
set (w := run_len is_space None s).
rewrite run_Seq, run_Chr.
destruct (skipn w s) as [|c s2]; [reflexivity|].
destruct (N.eqb c (ch "@")); [|reflexivity]. cbn [andb tl].
rewrite run_Seq, run_Grp, run_greedy.
2:{ intros j x t h Hx. cbn [pos rest caps]. rewrite run_Seq, run_Ahead, run_Chr.
    now rewrite (upper_not_space _ Hx). }
unfold adv; cbn [pos rest caps]. unfold key_space.
set (n := run_len is_upper None s2).
destruct (Nat.leb 1 n) eqn:En; [|reflexivity]. cbn [andb].
rewrite run_Seq, run_Ahead, run_Chr.
destruct (skipn n s2) as [|e s3] eqn:E2; [reflexivity|].
destruct (N.eqb e (ch " ")); [|reflexivity].
rewrite run_Eps. cbn [option_map pos rest caps].
assert (Hn : n <= length s2) by apply run_len_le.
rewrite length_firstn, Nat.min_l by lia.
replace (i + w + 1 + n - (i + w + 1)) with n by lia.
now rewrite E2.
Qed.

Lemma first_some_seq_at {B} (f : nat -> option B) m N y :
m <= N -> (forall j, j < m -> f j = None) -> f m = Some y ->
first_some f (seq 0 (S N)) = Some y.
Proof.
intros Hm Hlt Hy.
replace (S N) with (m + S (N - m)) by lia.
rewrite seq_app, first_some_app, first_some_none.
- cbn [Nat.add seq first_some]. now rewrite Hy.
- intros j Hj. apply in_seq in Hj. apply Hlt. lia.
Qed.

Lemma run_newTask i s :
run newTaskRegex (MState i s []) Some =
first_some
  (fun n =>
     option_map
       (fun key =>
          MState (i + n + run_len is_space None (skipn n s) + 1 + length key)
            (skipn (length key)
               (tl (skipn (run_len is_space None (skipn n s)) (skipn n s))))
            [(2, key); (1, firstn n s)])
       (trigger_at (skipn n s)))
  (seq 0 (S (run_len dot None s))).
Proof.
change newTaskRegex with (Seq (Grp 1 (lazy_star dot)) triggerRegex).
rewrite run_Seq, run_Grp. unfold lazy_star. cbn [run counts rest pos caps].
rewrite Nat.sub_0_r.
set (l := seq 0 (S (run_len dot None s))). clearbody l.
induction l as [|n l IH]; cbn [first_some]; [reflexivity|].
unfold adv at 1 2 3. cbn [pos rest caps].
rewrite run_trigger. replace (i + n - i) with n by lia.
destruct (trigger_at (skipn n s)); cbn [option_map]; [reflexivity|apply IH].
Qed.

Lemma has_trigger_app a b :
has_trigger (a ++ ch "@" :: b) = false -> key_space b = false.
Proof.
induction a as [|c a IH]; cbn [app has_trigger]; intros H;
  apply orb_false_iff in H as [H1 H2].
- now rewrite N.eqb_refl in H1.
- now apply IH.
Qed.

Lemma key_space_app y r : key_space (y ++ ch "@" :: r) = key_space y.
Proof.
unfold key_space. rewrite run_len_app_stop by reflexivity.
set (n := run_len is_upper None y).
assert (Hn : n <= length y) by apply run_len_le.
rewrite skipn_app_le by assumption.
destruct (skipn n y); reflexivity.
Qed.

Lemma nts_split x :
x <> [] -> no_trailing_space x = true ->
exists sp c x', x = sp ++ c :: x' /\ forallb is_space sp = true /\ is_space c = false.
Proof.
induction x as [|c x IH]; [congruence|intros _ H].
destruct (is_space c) eqn:Ec.
- destruct x as [|d x].
  + cbn in H. now rewrite Ec in H.
  + destruct IH as (sp & e & x' & -> & Hsp & He); [discriminate|exact H|].
    exists (c :: sp), e, x'. cbn [app forallb]. now rewrite Ec, Hsp.
- now exists [], c, x.
Qed.

Lemma nts_skipn n x :
n < length x -> no_trailing_space x = true -> no_trailing_space (skipn n x) = true.
Proof.
revert x. induction n as [|n IH]; intros x Hn H; [exact H|].
destruct x as [|c x]; [cbn in Hn; lia|]. cbn [skipn]. cbn [length] in Hn.
apply IH; [lia|]. destruct x; [cbn in Hn; lia|exact H].
Qed.

Lemma trigger_before pre ws r n :
n < length pre -> no_trailing_space pre = true ->
has_trigger (pre ++ ws) = false ->
trigger_at (skipn n (pre ++ ws ++ ch "@" :: r)) = None.
Proof.
intros Hn Hnts Hno.
rewrite skipn_app_le by lia.
destruct (nts_split (skipn n pre)) as (sp & c & x' & Hx & Hsp & Hc).
{ intros E. apply (f_equal (@length _)) in E. rewrite length_skipn in E.
  cbn in E. lia. }
{ now apply nts_skipn. }
rewrite Hx. unfold trigger_at.
rewrite <- app_assoc. rewrite run_len_app by assumption.
cbn [app]. rewrite run_len_stop by assumption. rewrite Nat.add_0_r.
rewrite skipn_app, skipn_all, Nat.sub_diag. cbn [app skipn].
destruct (N.eqb_spec c (ch "@")) as [->|]; [|reflexivity]. cbn [andb].
rewrite app_assoc, key_space_app.
rewrite <- (firstn_skipn n pre), Hx in Hno.
rewrite <- !app_assoc in Hno. cbn [app] in Hno.
rewrite app_assoc in Hno. apply has_trigger_app in Hno. now rewrite Hno.
Qed.

Lemma trigger_here ws key post :
forallb is_space ws = true -> nonempty key = true ->
forallb is_upper key = true ->
trigger_at (ws ++ ch "@" :: key ++ ch " " :: post) = Some key.
Proof.
intros Hws Hk Hu. unfold trigger_at.
rewrite run_len_app, run_len_stop, Nat.add_0_r by (assumption || reflexivity).
rewrite skipn_app, skipn_all, Nat.sub_diag. cbn [app skipn].
rewrite N.eqb_refl. unfold key_space.
rewrite run_len_app, run_len_stop, Nat.add_0_r by (assumption || reflexivity).
apply nonempty_length in Hk.
replace (Nat.leb 1 (length key)) with true by (symmetry; now apply Nat.leb_le).
rewrite skipn_app, skipn_all, Nat.sub_diag. cbn [app skipn].
rewrite N.eqb_refl. cbn [andb].
now rewrite firstn_app, Nat.sub_diag, firstn_all, app_nil_r.
Qed.

Lemma exec_from_hit r idx s m :
match_at r idx s = Some m -> exec_from r idx s = Some m.
Proof. intros H. destruct s; cbn [exec_from]; now rewrite H. Qed.

Lemma exec_newTask pre ws key post :
forallb dot pre = true -> no_trailing_space pre = true ->
forallb is_space ws = true ->
nonempty key = true -> forallb is_upper key = true ->
has_trigger (pre ++ ws) = false ->
exec newTaskRegex (pre ++ ws ++ ch "@" :: key ++ ch " " :: post) =
Some (MResult 0 (pre ++ ws ++ ch "@" :: key) [(2, key); (1, pre)]).
Proof.
intros Hdot Hnts Hws Hk Hu Hno.
set (line := pre ++ ws ++ ch "@" :: key ++ ch " " :: post).
assert (Hrun : run newTaskRegex (MState 0 line []) Some =
               Some (MState (length pre + length ws + 1 + length key)
                            (ch " " :: post) [(2, key); (1, pre)])).
{ rewrite run_newTask. apply (first_some_seq_at _ (length pre)).
  - unfold line. rewrite run_len_app by assumption. lia.
  - intros j Hj. unfold line. now rewrite trigger_before.
  - unfold line. rewrite skipn_app, skipn_all, Nat.sub_diag. cbn [app skipn].
    rewrite trigger_here by assumption. cbn [option_map].
    rewrite run_len_app, run_len_stop, Nat.add_0_r by (assumption || reflexivity).
    rewrite firstn_app, Nat.sub_diag, firstn_all. cbn [firstn]. rewrite app_nil_r.
    rewrite skipn_app, skipn_all, Nat.sub_diag. cbn [app skipn tl].
    rewrite skipn_app, skipn_all, Nat.sub_diag. cbn [app skipn Nat.add].
    reflexivity. }
unfold exec. apply exec_from_hit. unfold match_at. rewrite Hrun.
cbn [pos caps]. f_equal. f_equal. rewrite Nat.sub_0_r. unfold line.
replace (length pre + length ws + 1 + length key)
  with (length (pre ++ ws ++ ch "@" :: key))
  by (rewrite !length_app; cbn [length]; lia).
replace (pre ++ ws ++ ch "@" :: key ++ ch " " :: post)
  with ((pre ++ ws ++ ch "@" :: key) ++ ch " " :: post)
  by (now rewrite <- !app_assoc).
now rewrite firstn_app, Nat.sub_diag, firstn_all, firstn_O, app_nil_r.
Qed.

Lemma has_trigger_skipn n s :
has_trigger (skipn n s) = true -> has_trigger s = true.
Proof.
revert s. induction n as [|n IH]; intros s H; [exact H|].
destruct s as [|c s]; [exact H|]. cbn [skipn] in H. cbn [has_trigger].
rewrite (IH _ H). apply orb_true_r.
Qed.

Lemma trigger_at_has t key : trigger_at t = Some key -> has_trigger t = true.
Proof.
unfold trigger_at. intros H. apply (has_trigger_skipn (run_len is_space None t)).
destruct (skipn _ t) as [|c s2]; [discriminate|].
cbn [has_trigger]. destruct (N.eqb c (ch "@") && key_space s2); [reflexivity|discriminate].
Qed.

Lemma match_at_newTask_none idx s :
has_trigger s = false -> match_at newTaskRegex idx s = None.
Proof.
intros H. unfold match_at. rewrite run_newTask, first_some_none; [reflexivity|].
intros n _. destruct (trigger_at (skipn n s)) as [key|] eqn:E; [|reflexivity].
apply trigger_at_has, has_trigger_skipn in E. congruence.
Qed.

Lemma exec_newTask_none s : has_trigger s = false -> exec newTaskRegex s = None.
Proof.
unfold exec. generalize 0. induction s as [|c s IH]; intros idx H;
  cbn [exec_from]; rewrite (match_at_newTask_none idx _ H); [reflexivity|].
apply IH. cbn [has_trigger] in H. now apply orb_false_iff in H as [_ H].
Qed.




Lemma first_some_inv {A B} (f : A -> option B) l y :
  first_some f l = Some y -> exists x, In x l /\ f x = Some y.
Proof.
  induction l as [|x l IH]; cbn [first_some]; [discriminate|].
  destruct (f x) eqn:E.
  - intros [= ->]. exists x. split; [now left|exact E].
  - intros H. destruct (IH H) as (x' & Hin & Hx). exists x'. split; [now right|exact Hx].
Qed.

Lemma exec_from_inv r s : forall idx m,
  exec_from r idx s = Some m ->
  exists k, match_at r (idx + k) (skipn k s) = Some m.
Proof.
  induction s as [|c s IH]; intros idx m; cbn [exec_from].
  - destruct (match_at r idx []) eqn:E; [|discriminate].
    intros [= ->]. exists 0. now rewrite Nat.add_0_r.
  - destruct (match_at r idx (c :: s)) eqn:E.
    + intros [= ->]. exists 0. now rewrite Nat.add_0_r.
    + intros H. destruct (IH _ _ H) as (k & Hk). exists (S k).
      cbn [skipn]. now replace (idx + S k) with (S idx + k) by lia.
Qed.

Lemma trigger_at_inv t key :
  trigger_at t = Some key ->
  exists ws rest,
    t = ws ++ ch "@" :: key ++ ch " " :: rest /\
    length ws = run_len is_space None t /\
    forallb is_space ws = true /\ nonempty key = true /\
    forallb is_upper key = true.
Proof.
  unfold trigger_at. set (w := run_len is_space None t).
  destruct (skipn w t) as [|c s2] eqn:E1; [discriminate|].
  destruct (N.eqb_spec c (ch "@")) as [->|]; [|discriminate]. cbn [andb].
  unfold key_space. set (n := run_len is_upper None s2).
  destruct (Nat.leb 1 n) eqn:En; [|discriminate]. cbn [andb].
  destruct (skipn n s2) as [|e s3] eqn:E2; [discriminate|].
  destruct (N.eqb_spec e (ch " ")) as [->|]; [|discriminate].
  intros [= <-]. exists (firstn w t), s3.
  assert (Hw : w <= length t) by apply run_len_le.
  assert (Hn : n <= length s2) by apply run_len_le.
  apply Nat.leb_le in En.
  repeat split.
  - rewrite <- E2, firstn_skipn, <- E1. now rewrite firstn_skipn.
  - rewrite length_firstn. lia.
  - apply run_len_firstn.
  - apply nonempty_length. rewrite length_firstn. lia.
  - apply run_len_firstn.
Qed.

Lemma firstn_app_exact {A} (a b : list A) m :
  firstn (length a + m) (a ++ b) = a ++ firstn m b.
Proof.
  rewrite firstn_app, firstn_all2 by lia. f_equal. f_equal. lia.
Qed.

Lemma match_at_newTask_inv idx s m :
  match_at newTaskRegex idx s = Some m ->
  exists sum ws key,
    matched m = sum ++ ws ++ ch "@" :: key /\
    groups m = [(2, key); (1, sum)] /\
    forallb is_space ws = true /\ nonempty key = true /\
    forallb is_upper key = true.
Proof.
  unfold match_at. rewrite run_newTask.
  destruct (first_some _ _) as [st|] eqn:E; [|discriminate].
  intros [= <-]. apply first_some_inv in E as (n & Hn & E).
  apply in_seq in Hn.
  destruct (trigger_at (skipn n s)) as [key|] eqn:Et; [|discriminate].
  cbn [option_map] in E. injection E as <-.
  destruct (trigger_at_inv _ _ Et) as (ws & rest & Hs & Hw & Hws & Hk & Hu).
  exists (firstn n s), ws, key. cbn [matched groups pos caps].
  repeat split; auto.
  assert (Hl : n <= length s).
  { pose proof (run_len_le dot s). lia. }
  rewrite <- Hw.
  replace (idx + n + length ws + 1 + length key - idx)
    with (length (firstn n s) + (length ws + 1 + length key))
    by (rewrite length_firstn; lia).
  rewrite <- (firstn_skipn n s) at 2. rewrite firstn_app_exact. f_equal.
  rewrite Hs.
  replace (length ws + 1 + length key) with (length ws + (S (length key))) by lia.
  rewrite firstn_app_exact. f_equal. cbn [firstn]. f_equal.
  replace (length key) with (length key + 0) at 1 by lia.
  rewrite firstn_app_exact. cbn [firstn]. apply app_nil_r.
Qed.

Lemma newTaskMatch_inv line fullMatch taskSummary queueKey :
  newTaskMatch line = Some (fullMatch, taskSummary, queueKey) ->
  exists ws,
    fullMatch = taskSummary ++ ws ++ ch "@" :: queueKey /\
    forallb is_space ws = true /\ nonempty queueKey = true /\
    forallb is_upper queueKey = true.
Proof.
  unfold newTaskMatch. destruct (exec newTaskRegex line) as [m|] eqn:E; [|discriminate].
  destruct (negb _); [|discriminate]. intros [= <- <- <-].
  apply exec_from_inv in E as (k & E).
  apply match_at_newTask_inv in E as (sum & ws & key & Hm & Hg & Hws & Hk & Hu).
  exists ws. rewrite Hm, Hg. cbn. repeat split; auto.
Qed.


Lemma linkTasksFrom_no_ref base content s : forall idx,
  has_reference s = false -> linkTasksFrom base content idx s = Some s.
Proof.
  unfold linkTasksFrom. induction s as [|c s IH]; intros idx H.
  - rewrite scan_nil by apply match_at_task_nil. reflexivity.
  - cbn [has_reference] in H. apply orb_false_iff in H as [H1 H2].
    cbn [scan]. rewrite match_at_task.
    destruct (token_at (c :: s)); [discriminate|]. cbn [option_map Replace.rebuild].
    now rewrite IH.
Qed.










Lemma has_char_app c (a b : str) :
  has_char c (a ++ b) = has_char c a || has_char c b.
Proof. apply existsb_app. Qed.

Lemma class_no_char (p : char -> bool) c (s : str) :
  p c = false -> forallb p s = true -> has_char c s = false.
Proof.
  intros Hc. unfold has_char.
  induction s as [|x s IH]; cbn [existsb forallb]; [reflexivity|].
  intros K. apply andb_true_iff in K as [K1 K2]. rewrite (IH K2), orb_false_r.
  destruct (N.eqb_spec c x) as [->|]; [congruence|reflexivity].
Qed.

Lemma tid_no_char c U D :
  task_id U D ->
  is_upper c = false -> is_digit c = false -> N.eqb c (ch "-") = false ->
  has_char c (U ++ ch "-" :: D) = false.
Proof.
  intros (_ & HU & _ & HD) Hu Hd Hm. rewrite has_char_app.
  rewrite (class_no_char is_upper c U Hu HU). cbn [orb].
  change (ch "-" :: D) with ([ch "-"] ++ D). rewrite has_char_app.
  rewrite (class_no_char is_digit c D Hd HD), orb_false_r.
  unfold has_char. cbn [existsb]. now rewrite Hm.
Qed.




Lemma taskLink_no_char c base U D :
  task_id U D ->
  is_upper c = false -> is_digit c = false ->
  has_char c (lit "-[]()") = false ->
  has_char c base = false ->
  has_char c (taskLink base (U ++ ch "-" :: D)) = false.
Proof.
  intros Ht Hu Hd Hp Hb. unfold taskLink.
  assert (Hm : N.eqb c (ch "-") = false).
  { unfold has_char in Hp. cbn [lit list_ascii_of_string map existsb] in Hp.
    now apply orb_false_iff in Hp as [Hp _]. }
  pose proof (tid_no_char c U D Ht Hu Hd Hm) as Htid.
  set (tid := U ++ ch "-" :: D) in *. clearbody tid.
  rewrite !has_char_app, Hb, Htid.
  unfold has_char in *. cbn [lit list_ascii_of_string map existsb] in *.
  repeat (apply orb_false_iff in Hp as [? Hp]).
  repeat (apply orb_false_iff; split); auto.
Qed.


Lemma first_line_cons c s :
  first_line (c :: s) = if N.eqb c nl then [] else c :: first_line s.
Proof.
  unfold first_line. cbn [Str.split]. destruct (N.eqb c nl); [reflexivity|].
  pose proof (split_nonempty nl s). destruct (Str.split nl s); [congruence|reflexivity].
Qed.





Lemma rewrites_refl base s : rewrites base s s.
Proof. induction s; constructor; auto. Qed.

Lemma rewrites_copy base x s s' :
  rewrites base s s' -> rewrites base (x ++ s) (x ++ s').
Proof. intros H. induction x; cbn [app]; [exact H|now constructor]. Qed.

Lemma rewrites_app base a a' b b' :
  rewrites base a a' -> rewrites base b b' -> rewrites base (a ++ b) (a' ++ b').
Proof.
  intros Ha Hb. induction Ha; cbn [app].
  - exact Hb.
  - now constructor.
  - rewrite <- (app_assoc (taskLink base (U ++ ch "-" :: D))).
    rewrite <- (app_assoc (U ++ ch "-" :: D)).
    now constructor.
Qed.

Lemma linkTasksFrom_nil base content idx :
  linkTasksFrom base content idx [] = Some [].
Proof.
  unfold linkTasksFrom. rewrite scan_nil by apply match_at_task_nil. reflexivity.
Qed.

Lemma linkTasksFrom_plain base content idx c s :
  token_at (c :: s) = None ->
  linkTasksFrom base content idx (c :: s) =
  option_map (cons c) (linkTasksFrom base content (S idx) s).
Proof.
  intros H. unfold linkTasksFrom. cbn [scan]. rewrite match_at_task, H.
  reflexivity.
Qed.

(** The pass at a reference: kept or linked, then the rest. *)
Lemma linkTasksFrom_ref base content idx U D r :
  plain_url base = true -> task_id U D ->
  let tid := U ++ ch "-" :: D in
  linkTasksFrom base content idx (ch "@" :: tid ++ ch " " :: r) =
  option_map
    (app (if inside_link content idx
             || wild_includes (taskLink base tid) (line_of content idx)
          then ch "@" :: tid else taskLink base tid))
    (linkTasksFrom base content (idx + 1 + length tid) (ch " " :: r)).
Proof.
  intros Hb Ht tid.
  pose proof (linkTasksFrom_token base content idx [] U D r Hb Ht) as H.
  cbn [app length] in H. rewrite Nat.add_0_r in H. rewrite linkTasksFrom_nil in H.
  fold tid in H. rewrite H.
  destruct (linkTasksFrom base content (idx + 1 + length tid) (ch " " :: r));
    reflexivity.
Qed.

Lemma token_at_shape s tid :
  token_at s = Some tid ->
  exists U D r, task_id U D /\ tid = U ++ ch "-" :: D /\
                s = ch "@" :: (U ++ ch "-" :: D) ++ ch " " :: r.
Proof.
  intros H. destruct (token_at_inv _ _ H) as (U & D & r & Ht & -> & ->).
  now exists U, D, r.
Qed.

(** What the pass returns is a rewriting of what it was given. *)
Lemma linkTasksFrom_rewrites base content n : forall s idx s',
  length s <= n -> plain_url base = true ->
  linkTasksFrom base content idx s = Some s' -> rewrites base s s'.
Proof.
  induction n as [|n IH]; intros s idx s' Hn Hb H.
  - destruct s; [|cbn in Hn; lia]. rewrite linkTasksFrom_nil in H.
    injection H as <-. constructor.
  - destruct s as [|c s]; [rewrite linkTasksFrom_nil in H; injection H as <-; constructor|].
    destruct (token_at (c :: s)) as [tid|] eqn:Et.
    + destruct (token_at_shape _ _ Et) as (U & D & r & Ht & -> & Hs).
      assert (Hlen : length (ch " " :: r) <= n).
      { apply (f_equal (@length _)) in Hs. cbn [length] in Hs, Hn |- *.
        rewrite length_app in Hs. cbn [length] in Hs. lia. }
      rewrite Hs in H |- *. rewrite (linkTasksFrom_ref base content idx U D r Hb Ht) in H.
      destruct (linkTasksFrom base content _ (ch " " :: r)) as [r'|] eqn:Er; [|discriminate].
      cbn [option_map] in H. injection H as <-.
      assert (Hr : rewrites base (ch " " :: r) r').
      { apply (IH _ _ _ Hlen Hb Er). }
      destruct (_ || _).
      * apply (rewrites_copy base (ch "@" :: U ++ ch "-" :: D)) in Hr.
        exact Hr.
      * now apply rw_link.
    + rewrite (linkTasksFrom_plain _ _ _ _ _ Et) in H.
      destruct (linkTasksFrom base content (S idx) s) as [s0|] eqn:Es; [|discriminate].
      injection H as <-. constructor.
      apply (IH s (S idx) s0); [cbn [length] in Hn; lia|exact Hb|exact Es].
Qed.

Lemma endsWith_ends_link s : Str.endsWith (lit "](") s = ends_link s.
Proof.
  unfold Str.endsWith, ends_link.
  change (rev (lit "](")) with [ch "("; ch "]"].
  destruct (rev s) as [|c2 [|c1 r]]; cbn [Str.startsWith]; try reflexivity.
  - now rewrite andb_false_r.
  - rewrite andb_true_r, andb_comm. f_equal; apply N.eqb_sym.
Qed.

Lemma ends_link_after (d : char) (a x : str) :
  N.eqb d (ch "]") = false -> N.eqb d (ch "(") = false ->
  ends_link (a ++ d :: x) = ends_link x.
Proof.
  intros H1 H2. unfold ends_link. rewrite rev_app_distr. cbn [rev].
  rewrite <- app_assoc. cbn [app].
  destruct (rev x) as [|c2 [|c1 r]]; cbn [app].
  - destruct (rev a); [reflexivity|]. now rewrite H2, andb_false_r.
  - now rewrite H1.
  - reflexivity.
Qed.

Lemma digits_last D :
  nonempty D = true -> forallb is_digit D = true ->
  exists D0 d, D = D0 ++ [d] /\ is_digit d = true.
Proof.
  intros Hn Hd. destruct (exists_last (l := D)) as (D0 & d & ->).
  { destruct D; [discriminate|discriminate]. }
  exists D0, d. split; [reflexivity|].
  rewrite forallb_app in Hd. apply andb_true_iff in Hd as [_ Hd].
  cbn in Hd. now rewrite andb_true_r in Hd.
Qed.

Lemma ends_link_ref (U D p x : str) :
  task_id U D ->
  ends_link (p ++ (ch "@" :: U ++ ch "-" :: D) ++ x) = ends_link x.
Proof.
  intros (_ & _ & HD & HDd).
  destruct (digits_last D HD HDd) as (D0 & d & -> & Hd).
  replace (p ++ (ch "@" :: U ++ ch "-" :: D0 ++ [d]) ++ x)
    with ((p ++ ch "@" :: U ++ ch "-" :: D0) ++ d :: x).
  - apply ends_link_after.
    + unfold is_digit, Replace.is_digit in Hd. apply andb_true_iff in Hd as [H1 H2].
      apply N.leb_le in H1, H2. apply N.eqb_neq. unfold ch. simpl. lia.
    + unfold is_digit, Replace.is_digit in Hd. apply andb_true_iff in Hd as [H1 H2].
      apply N.leb_le in H1, H2. apply N.eqb_neq. unfold ch. simpl. lia.
  - cbn [app]. rewrite <- !app_assoc. cbn [app]. rewrite <- !app_assoc. reflexivity.
Qed.

Lemma ends_link_link (base tid p x : str) :
  ends_link (p ++ taskLink base tid ++ x) = ends_link x.
Proof.
  unfold taskLink.
  replace (p ++ (lit "[" ++ tid ++ lit "](" ++ base ++ tid ++ lit ")") ++ x)
    with ((p ++ lit "[" ++ tid ++ lit "](" ++ base ++ tid) ++ ch ")" :: x).
  - now apply ends_link_after.
  - rewrite <- !app_assoc. reflexivity.
Qed.

Lemma split_no_nl s : has_char nl s = false -> Str.split nl s = [s].
Proof.
  unfold has_char. induction s as [|c s IH]; cbn [existsb Str.split]; [reflexivity|].
  intros H. apply orb_false_iff in H as [H1 H2]. rewrite N.eqb_sym in H1.
  now rewrite H1, (IH H2).
Qed.

Lemma split_has_nl s :
  has_char nl s = true -> exists l l2 ls, Str.split nl s = l :: l2 :: ls.
Proof.
  unfold has_char. induction s as [|c s IH]; cbn [existsb Str.split]; [discriminate|].
  pose proof (split_nonempty nl s) as Hne.
  destruct (N.eqb_spec c nl) as [->|Hc].
  - intros _. destruct (Str.split nl s) as [|l ls]; [congruence|]. now exists [], l, ls.
  - intros H. apply orb_true_iff in H as [H|H].
    + apply N.eqb_eq in H. congruence.
    + destruct (IH H) as (l & l2 & ls & ->). now exists (c :: l), l2, ls.
Qed.

Lemma last_line_no_nl s : has_char nl s = false -> last_line s = s.
Proof. intros H. unfold last_line. now rewrite split_no_nl. Qed.

Lemma last_line_cons c s :
  last_line (c :: s) =
  if has_char nl s then last_line s
  else if N.eqb c nl then s else c :: s.
Proof.
  unfold last_line. cbn [Str.split].
  destruct (has_char nl s) eqn:Hs.
  - destruct (split_has_nl s Hs) as (l & l2 & ls & ->).
    destruct (N.eqb c nl); reflexivity.
  - rewrite (split_no_nl s Hs). destruct (N.eqb c nl); reflexivity.
Qed.

Lemma has_char_cons c x (s : str) :
  has_char c (x :: s) = N.eqb c x || has_char c s.
Proof. reflexivity. Qed.

Lemma last_line_app x s :
  has_char nl x = false ->
  last_line (x ++ s) = if has_char nl s then last_line s else x ++ s.
Proof.
  induction x as [|c x IH]; intros Hx; cbn [app].
  - destruct (has_char nl s) eqn:E; [reflexivity|now apply last_line_no_nl].
  - rewrite has_char_cons in Hx. apply orb_false_iff in Hx as [Hc Hx].
    rewrite last_line_cons, has_char_app, Hx. cbn [orb].
    rewrite (IH Hx). rewrite N.eqb_sym in Hc. rewrite Hc.
    destruct (has_char nl s); reflexivity.
Qed.

Lemma first_line_app x s :
  has_char nl x = false -> first_line (x ++ s) = x ++ first_line s.
Proof.
  induction x as [|c x IH]; intros Hx; cbn [app]; [reflexivity|].
  rewrite has_char_cons in Hx. apply orb_false_iff in Hx as [Hc Hx].
  rewrite first_line_cons. rewrite N.eqb_sym in Hc. now rewrite Hc, (IH Hx).
Qed.

Lemma inert_no_char (c : char) (pat : str) :
  c = ch "@" \/ c = nl -> inert_pat pat = true -> has_char c pat = false.
Proof.
  intros Hc. induction pat as [|q pat IH]; [reflexivity|].
  cbn [inert_pat]. intros H.
  apply andb_true_iff in H as [H Hi]. apply andb_true_iff in H as [H _].
  apply andb_true_iff in H as [Hat Hnl].
  rewrite has_char_cons, (IH Hi), orb_false_r.
  apply negb_true_iff in Hat, Hnl. rewrite N.eqb_sym.
  destruct Hc as [-> | ->]; assumption.
Qed.

Lemma link_no_char (c : char) base U D :
  c = ch "@" \/ c = nl -> inert_pat base = true -> task_id U D ->
  has_char c (taskLink base (U ++ ch "-" :: D)) = false.
Proof.
  intros Hc Hi Ht.
  apply taskLink_no_char; try assumption;
    try (destruct Hc as [-> | ->]; reflexivity).
  now apply inert_no_char.
Qed.

Lemma ref_no_nl U D :
  task_id U D -> has_char nl (ch "@" :: U ++ ch "-" :: D) = false.
Proof.
  intros Ht. rewrite has_char_cons. cbn [orb N.eqb nl ch].
  now apply tid_no_char.
Qed.

Lemma rewrites_has_nl base s s' :
  inert_pat base = true -> rewrites base s s' ->
  has_char nl s = has_char nl s'.
Proof.
  intros Hi H. induction H.
  - reflexivity.
  - now rewrite !has_char_cons, IHrewrites.
  - change (ch "@" :: (U ++ ch "-" :: D) ++ s)
      with ((ch "@" :: U ++ ch "-" :: D) ++ s).
    rewrite !has_char_app, (ref_no_nl U D H),
      (link_no_char nl base U D (or_intror eq_refl) Hi H).
    exact IHrewrites.
Qed.

Lemma rewrites_first_line base s s' :
  inert_pat base = true -> rewrites base s s' ->
  rewrites base (first_line s) (first_line s').
Proof.
  intros Hi H. induction H.
  - constructor.
  - rewrite !first_line_cons. destruct (N.eqb c nl); now constructor.
  - change (ch "@" :: (U ++ ch "-" :: D) ++ s)
      with ((ch "@" :: U ++ ch "-" :: D) ++ s).
    rewrite !first_line_app
      by (apply ref_no_nl || apply link_no_char; auto).
    cbn [app]. now constructor.
Qed.

Lemma rewrites_last_line base s s' :
  inert_pat base = true -> rewrites base s s' ->
  rewrites base (last_line s) (last_line s').
Proof.
  intros Hi H. induction H.
  - constructor.
  - rewrite !last_line_cons, <- (rewrites_has_nl base s s' Hi H).
    destruct (has_char nl s); [exact IHrewrites|].
    destruct (N.eqb c nl); [exact H|now constructor].
  - change (ch "@" :: (U ++ ch "-" :: D) ++ s)
      with ((ch "@" :: U ++ ch "-" :: D) ++ s).
    rewrite !last_line_app
      by (apply ref_no_nl || apply link_no_char; auto).
    rewrite <- (rewrites_has_nl base s s' Hi H0).
    destruct (has_char nl s); [exact IHrewrites|].
    cbn [app]. now constructor.
Qed.

Lemma inert_tail q pat : inert_pat (q :: pat) = true -> inert_pat pat = true.
Proof. cbn [inert_pat]. intros H. now apply andb_true_iff in H as [_ H]. Qed.

(** A match of an inert pattern at the head of a text survives the
    rewriting of the text. *)
Lemma wild_prefix_rewrites base s s' :
  rewrites base s s' ->
  forall Q, inert_pat Q = true -> wild_prefix Q s = true -> wild_prefix Q s' = true.
Proof.
  induction 1 as [|c s s' H IH|U D s s' Ht H IH]; intros Q Hi Hw.
  - exact Hw.
  - destruct Q as [|q Q]; [reflexivity|]. cbn [wild_prefix] in Hw |- *.
    apply andb_true_iff in Hw as [Hq Hw]. rewrite Hq. cbn [andb].
    apply IH; [now apply inert_tail in Hi|exact Hw].
  - destruct Q as [|q Q]; [now destruct (taskLink base _ ++ s')|].
    exfalso. cbn [wild_prefix] in Hw. apply andb_true_iff in Hw as [Hq Hw].
    cbn [inert_pat] in Hi.
    apply andb_true_iff in Hi as [Hi HQ]. apply andb_true_iff in Hi as [Hi Hdot].
    apply andb_true_iff in Hi as [Hat _]. apply negb_true_iff in Hat.
    destruct (N.eqb q (ch ".")) eqn:Eq.
    + destruct Q as [|d Q]; [discriminate|].
      apply andb_true_iff in Hdot as [Hd Hu]. apply negb_true_iff in Hd, Hu.
      destruct Ht as (HU & HUu & _).
      destruct U as [|u U]; [discriminate|]. cbn [app wild_prefix] in Hw.
      rewrite Hd in Hw. apply andb_true_iff in Hw as [Hw _].
      apply N.eqb_eq in Hw. subst d. cbn [forallb] in HUu.
      apply andb_true_iff in HUu as [HUu _]. congruence.
    + apply N.eqb_eq in Hq. subst q. now rewrite N.eqb_refl in Hat.
Qed.

Lemma wild_includes_app P a b :
  wild_includes P b = true -> wild_includes P (a ++ b) = true.
Proof.
  intros H. induction a as [|c a IH]; [exact H|].
  cbn [app wild_includes]. rewrite IH. apply orb_true_r.
Qed.

Lemma wild_includes_skip P x s :
  has_char (ch "[") x = false ->
  wild_includes (ch "[" :: P) (x ++ s) = wild_includes (ch "[" :: P) s.
Proof.
  induction x as [|c x IH]; intros Hx; [reflexivity|].
  rewrite has_char_cons in Hx. apply orb_false_iff in Hx as [Hc Hx].
  cbn [app wild_includes wild_prefix].
  change (N.eqb (ch "[") (ch ".")) with false. cbn iota.
  rewrite N.eqb_sym in Hc. rewrite Hc. cbn [andb orb]. now apply IH.
Qed.

(** A match of an inert link pattern somewhere in a text survives the
    rewriting of the text. *)
Lemma wild_includes_rewrites base s s' P :
  rewrites base s s' ->
  inert_pat (ch "[" :: P) = true ->
  wild_includes (ch "[" :: P) s = true -> wild_includes (ch "[" :: P) s' = true.
Proof.
  intros H Hi. induction H as [|c s s' H IH|U D s s' Ht H IH]; intros Hw.
  - exact Hw.
  - cbn [wild_includes] in Hw. apply orb_true_iff in Hw as [Hw|Hw].
    + apply (wild_prefix_rewrites base (c :: s) (c :: s')) in Hw;
        [|now constructor|exact Hi].
      cbn [wild_includes]. now rewrite Hw.
    + cbn [wild_includes]. rewrite (IH Hw). apply orb_true_r.
  - cbn [wild_includes] in Hw. apply orb_true_iff in Hw as [Hw|Hw].
    + apply (wild_prefix_rewrites base _ (taskLink base (U ++ ch "-" :: D) ++ s')) in Hw;
        [|now constructor|exact Hi].
      destruct (taskLink base (U ++ ch "-" :: D) ++ s') eqn:E;
        cbn [wild_includes]; now rewrite Hw.
    + rewrite wild_includes_skip in Hw
        by (now apply tid_no_char).
      apply wild_includes_app. now apply IH.
Qed.

Lemma inert_app a b :
  inert_pat a = true -> inert_pat b = true -> inert_pat (a ++ b) = true.
Proof.
  intros Ha Hb. induction a as [|q a IH]; [exact Hb|].
  cbn [app inert_pat] in Ha |- *.
  apply andb_true_iff in Ha as [Ha Hi]. rewrite (IH Hi), andb_true_r.
  apply andb_true_iff in Ha as [Ha Hdot]. rewrite Ha. cbn [andb].
  destruct (N.eqb q (ch ".")); [|reflexivity].
  destruct a as [|d a]; [discriminate|exact Hdot].
Qed.

Lemma inert_class (p : char -> bool) (s : str) :
  p (ch "@") = false -> p nl = false -> p (ch ".") = false ->
  forallb p s = true -> inert_pat s = true.
Proof.
  intros H1 H2 H3. induction s as [|c s IH]; [reflexivity|].
  cbn [forallb inert_pat]. intros H. apply andb_true_iff in H as [Hc Hs].
  rewrite (IH Hs), andb_true_r.
  destruct (N.eqb_spec c (ch "@")) as [->|_]; [congruence|].
  destruct (N.eqb_spec c nl) as [->|_]; [congruence|].
  destruct (N.eqb_spec c (ch ".")) as [->|_]; [congruence|]. reflexivity.
Qed.

Lemma inert_link base U D :
  inert_pat base = true -> task_id U D ->
  inert_pat (taskLink base (U ++ ch "-" :: D)) = true.
Proof.
  intros Hi (_ & HU & _ & HD).
  assert (Ht : inert_pat (U ++ ch "-" :: D) = true).
  { apply inert_app; [now apply (inert_class is_upper)|].
    change (ch "-" :: D) with ([ch "-"] ++ D).
    apply inert_app; [reflexivity|now apply (inert_class is_digit)]. }
  unfold taskLink. repeat (apply inert_app; try assumption; try reflexivity).
Qed.

Lemma rewrites_prefix base x : forall s s' y,
  rewrites base s s' -> s' = x ++ y -> has_char (ch "[") x = false ->
  exists y0, s = x ++ y0 /\ rewrites base y0 y.
Proof.
  induction x as [|c x IH]; intros s s' y H E Hx.
  - exists s. cbn [app] in E. subst s'. now split.
  - rewrite has_char_cons in Hx. apply orb_false_iff in Hx as [Hc Hx].
    cbn [app] in E. destruct H as [|c0 s0 s0' H|U D s0 s0' Ht H].
    + discriminate.
    + injection E as -> ->.
      destruct (IH _ _ _ H eq_refl Hx) as (y0 & -> & Hy). now exists y0.
    + unfold taskLink in E. cbn [lit list_ascii_of_string map app] in E.
      injection E as <- _. discriminate.
Qed.

(** Rewriting the text after an [@] that starts no reference does not
    make it start one. *)
Lemma token_at_rewrites base c s s' :
  rewrites base s s' -> token_at (c :: s) = None -> token_at (c :: s') = None.
Proof.
  intros H Hn. destruct (token_at (c :: s')) as [tid|] eqn:E; [|reflexivity].
  destruct (token_at_shape _ _ E) as (U & D & r & Ht & -> & Hs).
  injection Hs as -> Hs.
  destruct (rewrites_prefix base ((U ++ ch "-" :: D) ++ [ch " "]) s s' r H) as (y0 & -> & _).
  - rewrite Hs. rewrite <- (app_assoc (U ++ ch "-" :: D)). reflexivity.
  - rewrite has_char_app, (tid_no_char (ch "[") U D Ht); reflexivity.
  - assert (Heq : ((U ++ ch "-" :: D) ++ [ch " "]) ++ y0
                  = U ++ ch "-" :: D ++ ch " " :: y0).
    { rewrite <- !app_assoc. reflexivity. }
    rewrite Heq in Hn.
    change (64%N) with (ch "@") in Hn.
    now rewrite (token_at_some U D y0 Ht) in Hn.
Qed.

Lemma linkTasksFrom_skip base content x : forall idx y,
  has_char (ch "@") x = false ->
  linkTasksFrom base content idx (x ++ y) =
  option_map (app x) (linkTasksFrom base content (idx + length x) y).
Proof.
  induction x as [|c x IH]; intros idx y Hx; cbn [app length].
  - rewrite Nat.add_0_r. now destruct (linkTasksFrom base content idx y).
  - rewrite has_char_cons in Hx. apply orb_false_iff in Hx as [Hc Hx].
    rewrite linkTasksFrom_plain.
    + rewrite (IH (S idx) y Hx).
      replace (S idx + length x) with (idx + S (length x)) by lia.
      now destruct (linkTasksFrom base content (idx + S (length x)) y).
    + cbn [token_at]. rewrite N.eqb_sym in Hc. now rewrite Hc.
Qed.

Lemma rewrites_space base r r' :
  rewrites base (ch " " :: r) r' -> exists r'', r' = ch " " :: r''.
Proof.
  intros H. inversion H; subst.
  - now eexists.
Qed.

(** The second pass over what the first pass returned: [p] is the part
    of the text the first pass has done, [p'] what it made of it, [s] what
    is left and [s'] what the first pass makes of that. *)
Lemma second_pass base n :
  url_inert base = true ->
  forall s p p' s',
    length s <= n ->
    rewrites base p p' ->
    (forall x, ends_link (p ++ x) = ends_link (p' ++ x)) ->
    linkTasksFrom base (p ++ s) (length p) s = Some s' ->
    linkTasksFrom base (p' ++ s') (length p') s' = Some s'.
Proof.
  intros Hinert. pose proof Hinert as Hin.
  apply andb_true_iff in Hin as [Hb Hi].
  induction n as [|n IH]; intros s p p' s' Hn Hp He H.
  { destruct s; [|cbn in Hn; lia]. rewrite linkTasksFrom_nil in H.
    injection H as <-. apply linkTasksFrom_nil. }
  destruct s as [|c s].
  { rewrite linkTasksFrom_nil in H. injection H as <-. apply linkTasksFrom_nil. }
  pose proof (linkTasksFrom_rewrites base _ _ _ _ _ (Nat.le_refl _) Hb H) as Hss.
  destruct (token_at (c :: s)) as [tid|] eqn:Et.
  - (* a reference *)
    destruct (token_at_shape _ _ Et) as (U & D & r & Ht & -> & Hs).
    assert (Hlen : length (ch " " :: r) <= n).
    { apply (f_equal (@length _)) in Hs. cbn [length] in Hs, Hn |- *.
      rewrite length_app in Hs. cbn [length] in Hs. lia. }
    rewrite Hs in H, Hss. clear Hs Et.
    set (tid := U ++ ch "-" :: D) in *.
    rewrite (linkTasksFrom_ref base _ (length p) U D r Hb Ht) in H. fold tid in H.
    destruct (linkTasksFrom base _ (length p + 1 + length tid) (ch " " :: r))
      as [r'|] eqn:Er; [|discriminate].
    cbn [option_map] in H. injection H as H.
    pose proof (linkTasksFrom_rewrites base _ _ _ _ _ (Nat.le_refl _) Hb Er) as Hr.
    destruct (rewrites_space base r r' Hr) as (r'' & ->).
    rewrite inside_link_app, line_of_app, endsWith_ends_link in H.
    change (64%N) with (ch "@") in *. change (32%N) with (ch " ") in *.
    destruct (ends_link p || wild_includes (taskLink base tid)
                (last_line p ++ first_line (ch "@" :: tid ++ ch " " :: r))) eqn:G.
    + (* kept in the first pass: kept again *)
      subst s'.
      change ((ch "@" :: tid) ++ ch " " :: r'') with (ch "@" :: tid ++ ch " " :: r'') in *.
      rewrite (linkTasksFrom_ref base _ (length p') U D r'' Hb Ht). fold tid.
      rewrite inside_link_app, line_of_app, endsWith_ends_link.
      assert (G' : ends_link p' || wild_includes (taskLink base tid)
                     (last_line p' ++ first_line (ch "@" :: tid ++ ch " " :: r'')) = true).
      { apply orb_true_iff in G as [G|G]; apply orb_true_iff.
        - left. specialize (He []). rewrite !app_nil_r in He. now rewrite <- He.
        - right. revert G.
          apply (wild_includes_rewrites base).
          + apply rewrites_app; [now apply rewrites_last_line|].
            now apply rewrites_first_line.
          + apply (inert_link base U D Hi Ht). }
      rewrite G'.
      specialize (IH (ch " " :: r) (p ++ ch "@" :: tid) (p' ++ ch "@" :: tid)
                     (ch " " :: r'') Hlen).
      rewrite <- !app_assoc in IH. cbn [app] in IH.
      rewrite !length_app in IH. cbn [length] in IH.
      replace (length p + S (length tid)) with (length p + 1 + length tid) in IH by lia.
      replace (length p' + S (length tid)) with (length p' + 1 + length tid) in IH by lia.
      rewrite IH; [reflexivity| | |exact Er].
      * apply rewrites_app; [exact Hp|apply rewrites_refl].
      * intros x. rewrite <- !app_assoc.
        change (ch "@" :: tid) with (ch "@" :: U ++ ch "-" :: D).
        now rewrite !(ends_link_ref U D) by exact Ht.
    + (* linked in the first pass: the link holds no reference *)
      subst s'.
      rewrite linkTasksFrom_skip by (apply (link_no_char (ch "@")); auto).
      specialize (IH (ch " " :: r) (p ++ ch "@" :: tid) (p' ++ taskLink base tid)
                     (ch " " :: r'') Hlen).
      rewrite <- !app_assoc in IH. cbn [app] in IH.
      rewrite !length_app in IH. cbn [length] in IH.
      replace (length p + S (length tid)) with (length p + 1 + length tid) in IH by lia.
      rewrite IH; [reflexivity| | |exact Er].
      * apply rewrites_app; [exact Hp|].
        pose proof (rw_link base U D [] [] Ht (rw_nil base)) as Hl.
        now rewrite !app_nil_r in Hl.
      * intros x. rewrite <- !app_assoc.
        change (ch "@" :: tid) with (ch "@" :: U ++ ch "-" :: D).
        rewrite (ends_link_ref U D) by exact Ht.
        now rewrite ends_link_link.
  - (* an ordinary character *)
    rewrite (linkTasksFrom_plain _ _ _ _ _ Et) in H.
    destruct (linkTasksFrom base _ (S (length p)) s) as [s0|] eqn:Es; [|discriminate].
    cbn [option_map] in H. injection H as <-.
    pose proof (linkTasksFrom_rewrites base _ _ _ _ _ (Nat.le_refl _) Hb Es) as Hs0.
    rewrite linkTasksFrom_plain by (now apply (token_at_rewrites base c s s0)).
    specialize (IH s (p ++ [c]) (p' ++ [c]) s0).
    rewrite <- !app_assoc in IH. cbn [app] in IH.
    rewrite !length_app in IH. cbn [length] in IH.
    rewrite !Nat.add_1_r in IH.
    rewrite IH; [reflexivity| | | |exact Es].
    + cbn [length] in Hn. lia.
    + apply rewrites_app; [exact Hp|apply rewrites_refl].
    + intros x. rewrite <- !app_assoc. apply He.
Qed.

Lemma linkTasks_idempotent base t t1 :
  url_inert base = true ->
  linkTasks base t t = Some t1 -> linkTasks base t1 t1 = Some t1.
Proof.
  intros Hi H.
  apply (second_pass base (length t) Hi t [] [] t1 (Nat.le_refl _)).
  - constructor.
  - reflexivity.
  - exact H.
Qed.

Lemma startsWith_wild P s :
  Str.startsWith P s = true -> wild_prefix P s = true.
Proof.
  revert s. induction P as [|x P IH]; intros [|y s]; cbn [Str.startsWith wild_prefix];
    try reflexivity; try discriminate.
  intros H. apply andb_true_iff in H as [Hxy Hs]. rewrite (IH s Hs), andb_true_r.
  apply N.eqb_eq in Hxy. subst y.
  destruct (N.eqb_spec x (ch ".")) as [->|_]; [reflexivity|apply N.eqb_refl].
Qed.

Lemma includes_wild P s :
  Str.includes P s = true -> wild_includes P s = true.
Proof.
  induction s as [|c s IH]; cbn [Str.includes wild_includes]; intros H;
    apply orb_true_iff in H as [H|H]; try discriminate.
  - now rewrite (startsWith_wild _ _ H).
  - now rewrite (startsWith_wild _ _ H).
  - rewrite (IH H). apply orb_true_r.
Qed.

(** A text whose references all have their link on their line is left as
    it is. *)
Lemma linked_text_fixed base t n :
  plain_url base = true ->
  (forall p U D r,
      t = p ++ ch "@" :: (U ++ ch "-" :: D) ++ ch " " :: r -> task_id U D ->
      Str.includes (taskLink base (U ++ ch "-" :: D)) (line_of t (length p)) = true) ->
  forall s p,
    length s <= n -> t = p ++ s ->
    linkTasksFrom base t (length p) s = Some s.
Proof.
  intros Hb Hall. induction n as [|n IH]; intros s p Hn Ht.
  { destruct s; [apply linkTasksFrom_nil|cbn in Hn; lia]. }
  destruct s as [|c s]; [apply linkTasksFrom_nil|].
  destruct (token_at (c :: s)) as [tid|] eqn:Et.
  - destruct (token_at_shape _ _ Et) as (U & D & r & Hid & -> & Hs).
    assert (Hlen : length (ch " " :: r) <= n).
    { apply (f_equal (@length _)) in Hs. cbn [length] in Hs, Hn |- *.
      rewrite length_app in Hs. cbn [length] in Hs. lia. }
    rewrite Hs in Ht |- *.
    rewrite (linkTasksFrom_ref base t (length p) U D r Hb Hid).
    rewrite (includes_wild _ _ (Hall p U D r Ht Hid)), orb_true_r.
    specialize (IH (ch " " :: r) (p ++ ch "@" :: U ++ ch "-" :: D) Hlen).
    rewrite length_app in IH. cbn [length] in IH.
    replace (length p + S (length (U ++ ch "-" :: D)))
      with (length p + 1 + length (U ++ ch "-" :: D)) in IH by lia.
    rewrite IH; [reflexivity|].
    rewrite Ht, <- !app_assoc. cbn [app]. now rewrite <- app_assoc.
  - rewrite (linkTasksFrom_plain _ _ _ _ _ Et).
    specialize (IH s (p ++ [c])). rewrite length_app, Nat.add_1_r in IH.
    rewrite IH; [reflexivity|cbn [length] in Hn; lia|].
    now rewrite Ht, <- app_assoc.
Qed.

Lemma token_at_bare c s tid : token_at (c :: s) = Some tid -> bare_token_at s = true.
Proof.
  cbn [token_at]. unfold bare_token_at.
  destruct (N.eqb c (ch "@")); [|discriminate].
  destruct (Nat.leb 1 (run_len is_upper None s)); [|discriminate].
  destruct (skipn _ s) as [|d s2]; [discriminate|].
  destruct (N.eqb d (ch "-")); [|discriminate].
  destruct (Nat.leb 1 (run_len is_digit None s2)); [reflexivity|discriminate].
Qed.

Lemma no_token_no_reference s :
  has_task_token s = false -> has_reference s = false.
Proof.
  induction s as [|c s IH]; [reflexivity|].
  cbn [has_task_token has_reference]. intros H.
  apply orb_false_iff in H as [_ H]. rewrite (IH H), orb_false_r.
  destruct (token_at (c :: s)) as [tid|] eqn:E; [|reflexivity].
  apply token_at_bare in E.
  destruct s; cbn [has_task_token] in H; now rewrite E in H.
Qed.

End ReFacts.


(* ------------------------------------------------------------------ *)
(** * The properties of the specification *)

Import ReFacts.

(** ** Supporting lemmas *)

Lemma trimStart_idem s : Str.trimStart (Str.trimStart s) = Str.trimStart s.
Proof.
  induction s as [|c s IH]; [reflexivity|]. cbn [Str.trimStart].
  destruct (Str.is_space c) eqn:E; [exact IH|]. cbn [Str.trimStart]. now rewrite E.
Qed.

Lemma trimStart_snoc s c :
  Str.is_space c = false -> Str.trimStart (s ++ [c]) = Str.trimStart s ++ [c].
Proof.
  intros Hc. induction s as [|x s IH]; cbn [app Str.trimStart].
  - now rewrite Hc.
  - destruct (Str.is_space x); [exact IH|reflexivity].
Qed.

Lemma trimEnd_cons c s :
  Str.is_space c = false -> Str.trimEnd (c :: s) = c :: Str.trimEnd s.
Proof.
  intros Hc. unfold Str.trimEnd. cbn [rev].
  now rewrite (trimStart_snoc _ _ Hc), rev_app_distr.
Qed.

Lemma trim_trim s : Str.trim (Str.trim s) = Str.trim s.
Proof.
  unfold Str.trim.
  assert (H : Str.trimStart (Str.trimEnd (Str.trimStart s))
              = Str.trimEnd (Str.trimStart s)).
  { induction s as [|c s IH]; [reflexivity|]. cbn [Str.trimStart].
    destruct (Str.is_space c) eqn:E; [exact IH|].
    rewrite (trimEnd_cons _ _ E). cbn [Str.trimStart]. now rewrite E. }
  rewrite H. unfold Str.trimEnd. now rewrite rev_involutive, trimStart_idem.
Qed.

Lemma ed_notices l p : ed (fold_left (fun q n => notice n q) l p) = ed p.
Proof. revert p. induction l as [|n l IH]; intros p; cbn; [reflexivity|]. now rewrite IH. Qed.

Lemma isProcessing_notices l p :
  isProcessing (fold_left (fun q n => notice n q) l p) = isProcessing p.
Proof. revert p. induction l as [|n l IH]; intros p; cbn; [reflexivity|]. now rewrite IH. Qed.

Lemma Str_eqb_eq a b : Str.eqb a b = true <-> a = b.
Proof.
  revert b. induction a as [|x a IH]; intros [|y b]; cbn [Str.eqb];
    try (split; [discriminate|congruence]); [tauto|].
  rewrite andb_true_iff, N.eqb_eq, IH. split; [intros [-> ->]; reflexivity|].
  intros H. now inversion H.
Qed.

Lemma finishPass_locked content updated cur p :
  well_locked (finishPass content updated cur p).
Proof.
  unfold finishPass. destruct (linkTasks _ _ _); [|exact I]. reflexivity.
Qed.

Lemma processText_locked p :
  isProcessing p = false -> well_locked (processText p).
Proof.
  intros Hp. unfold processText. rewrite Hp.
  destruct (newTaskMatch _) as [[[fullMatch taskSummary] queueKey]|];
    [|apply finishPass_locked].
  destruct (_ && _); [|reflexivity].
  cbn [well_locked]. split; [reflexivity|]. intros d p1 Hp1.
  destruct (confirmed d); cbn [negb well_locked]; [|reflexivity].
  split; [exact Hp1|]. intros o p2 Hp2.
  destruct (createTask_response o); [reflexivity|apply finishPass_locked].
Qed.

Lemma settle_invariant r s' :
  well_locked r -> settle [] r = Some s' -> lock_invariant s'.
Proof.
  destruct r as [p| |p k|p req k]; cbn [settle well_locked app]; intros H E;
    try discriminate; injection E as <-; exact H.
Qed.

Lemma step_invariant s ev s' :
  lock_invariant s -> step s ev = Some s' -> lock_invariant s'.
Proof.
  unfold lock_invariant at 1. destruct s as [p w]. cbn [waiting plug].
  destruct w as [|w [|w2 w']]; [| |contradiction]; intros Hinv.
  - (* nothing in flight *)
    destruct ev as [e| |d|o]; cbn [step waiting plug].
    + unfold onEditorChange. cbn [isProcessing set_ed]. rewrite Hinv. cbn [negb andb].
      destruct (Str.eqb _ _).
      * apply settle_invariant, processText_locked. exact Hinv.
      * cbn [settle]. intros [= <-]. exact Hinv.
    + apply settle_invariant, processText_locked. exact Hinv.
    + intros [= <-]. exact Hinv.
    + intros [= <-]. exact Hinv.
  - (* one pass waits *)
    destruct Hinv as [Hp Hw].
    destruct ev as [e| |d|o]; cbn [step waiting plug].
    + unfold onEditorChange. cbn [isProcessing set_ed]. rewrite Hp. cbn [negb andb settle].
      intros [= <-]. split; assumption.
    + unfold onCommand, processText. rewrite Hp. cbn [settle].
      intros [= <-]. split; assumption.
    + destruct w as [k|k].
      * apply settle_invariant. now apply Hw.
      * intros [= <-]. split; assumption.
    + destruct w as [k|k].
      * intros [= <-]. split; assumption.
      * apply settle_invariant. now apply Hw.
Qed.

Lemma steps_invariant evs : forall s s',
  lock_invariant s -> steps s evs = Some s' -> lock_invariant s'.
Proof.
  induction evs as [|ev evs IH]; intros s s' Hinv; cbn [steps].
  - now intros [= <-].
  - destruct (step s ev) as [s1|] eqn:E; [|discriminate].
    apply IH. now apply (step_invariant s ev).
Qed.

Lemma settings_notices l p :
  settings (fold_left (fun q n => notice n q) l p) = settings p.
Proof. revert p. induction l as [|n l IH]; intros p; cbn; [reflexivity|]. now rewrite IH. Qed.












(** ** C1 *)




(** ** C2 *)

(** C2, as stated: on ["some notes TASKS "] detection returns
    ["some notes"] and ["TASKS"].  It finds nothing there. *)
Lemma C2_bare_key_not_detected :
  newTaskMatch (lit "some notes TASKS ") = None.
Proof. vm_compute. reflexivity. Qed.

(** C2, amended: on a line without ["]("], detection returns the first
    [@] followed by upper-case letters and a space: the text before it,
    less the white space in between, and the letters.  A line without such
    a trigger, or with ["]("], gives nothing.  In particular
    ["some notes @TASKS "] gives ["some notes"] and ["TASKS"]. *)
Theorem C2_new_task_first (pre ws key post : str) :
  forallb dot pre = true -> no_trailing_space pre = true ->
  forallb is_space ws = true ->
  nonempty key = true -> forallb is_upper key = true ->
  has_trigger (pre ++ ws) = false ->
  let line := pre ++ ws ++ lit "@" ++ key ++ lit " " ++ post in
  Str.includes (lit "](") line = false ->
  newTaskMatch line = Some (pre ++ ws ++ lit "@" ++ key, pre, key)
  /\ (forall l, has_trigger l = false -> newTaskMatch l = None)
  /\ (forall l, Str.includes (lit "](") l = true -> newTaskMatch l = None)
  /\ newTaskMatch (lit "some notes @TASKS ")
     = Some (lit "some notes @TASKS", lit "some notes", lit "TASKS").
Proof.
  intros Hdot Hnts Hws Hk Hu Hno line Hinc. repeat split.
  - unfold newTaskMatch. subst line.
    change (pre ++ ws ++ lit "@" ++ key ++ lit " " ++ post)
      with (pre ++ ws ++ ch "@" :: key ++ ch " " :: post) in *.
    rewrite exec_newTask by assumption. rewrite Hinc. reflexivity.
  - intros l Hl. unfold newTaskMatch. now rewrite exec_newTask_none.
  - intros l Hl. unfold newTaskMatch. rewrite Hl.
    destruct (exec newTaskRegex l); reflexivity.
Qed.

(** Two triggers on a line: the first is the one returned. *)
Lemma C2_new_task_first_witness :
  newTaskMatch (lit "fix it  @ABC and @XYZ ")
  = Some (lit "fix it  @ABC", lit "fix it", lit "ABC").
Proof.
  apply (C2_new_task_first (lit "fix it") (lit "  ") (lit "ABC") (lit "and @XYZ "));
    reflexivity.
Defined.

(** ** C3 *)

(** C3: a pass that finds a new-task mention and ends without a created
    task (no credentials, the dialog not confirmed, or the call failing:
    another status than 201, a rejected request, a response without a
    usable key) leaves the editor as it was at the start of the pass and
    the lock free. *)
Theorem C3_failed_pass_is_atomic (p : plugin) (d : TaskCreationData)
    (o : http_outcome) (fullMatch taskSummary queueKey : str) :
  isProcessing p = false ->
  newTaskMatch (currentLine p) = Some (fullMatch, taskSummary, queueKey) ->
  has_credentials p = false \/ confirmed d = false
  \/ (exists e, createTask_response o = inl e) ->
  (exists p', runPass p d o = Some p' /\ ed p' = ed p /\ isProcessing p' = false)
  /\ (forall status body,
        status <> 201 -> exists e, createTask_response (Response status body) = inl e)
  /\ (forall e, createTask_response (Rejected e) = inl e)
  /\ (forall j,
        match responseData j with Some d' => get_key d' | None => None end = None ->
        exists e, createTask_response (Response 201 (inr j)) = inl e).
Proof.
  intros Hfree Hm Hfail. split; [|split; [|split]].
  - unfold runPass, processText. rewrite Hfree. cbn [ed set_isProcessing settings].
    fold (currentLine p). rewrite Hm. fold (has_credentials p).
    destruct (has_credentials p) eqn:Hc.
    + destruct (confirmed d) eqn:Hd; cbn [negb].
      * destruct Hfail as [H|[H|(e & He)]]; try discriminate.
        rewrite He. cbn [createTask_notices].
        eexists. split; [reflexivity|]. split; [|reflexivity].
        cbn [ed set_isProcessing]. now rewrite ed_notices.
      * eexists. split; [reflexivity|]. split; reflexivity.
    + eexists. split; [reflexivity|]. split; reflexivity.
  - intros status body Hs. cbn [createTask_response].
    destruct (Nat.eqb_spec status 201) as [E|_]; [congruence|]. cbn [negb]. now eexists.
  - reflexivity.
  - intros j Hj. cbn [createTask_response Nat.eqb negb].
    destruct (responseData j) as [d'|]; [|now eexists].
    destruct (truthy d'); [|now eexists]. rewrite Hj. now eexists.
Qed.

(** The dialog is dismissed on ["note @ABC "]: nothing is written. *)
Lemma C3_failed_pass_is_atomic_witness :
  exists p',
    runPass (editing configured (lit "note @ABC ") (0, 10))
            (cancelled (lit "note")) (created (lit "ABC-1")) = Some p'
    /\ ed p' = Editor (lit "note @ABC ") (0, 10)
    /\ isProcessing p' = false.
Proof.
  apply (C3_failed_pass_is_atomic
           (editing configured (lit "note @ABC ") (0, 10))
           (cancelled (lit "note")) (created (lit "ABC-1"))
           (lit "note @ABC") (lit "note") (lit "ABC")).
  - reflexivity.
  - vm_compute. reflexivity.
  - right. left. reflexivity.
Defined.

(** ** C4 *)

(** C4: in every state the plugin can reach from loading, at most one
    pass is in flight, and one is in flight exactly while the lock is
    held.  An edit event that finds the lock held, or a character other
    than one space before the cursor, changes nothing but the editor
    state the edit itself brought: no dialog is opened, no continuation
    is added, the document is the one the event delivered.  So a trigger
    that arrives while a confirmation is pending is dropped, and so is
    the command. *)
Theorem C4_single_pass_entry_guard (st : YandexTrackerSettings) (e0 : editor)
    (evs : list event) (s : system) :
  steps (loaded st e0) evs = Some s ->
  length (waiting s) <= 1
  /\ (waiting s = [] <-> isProcessing (plug s) = false)
  /\ (forall e,
        isProcessing (plug s) = true \/ charBeforeCursor e <> lit " " ->
        step s (EditorChange e) = Some (System (set_ed e (plug s)) (waiting s)))
  /\ (forall k,
        waiting s = [OnModal k] ->
        (forall e, step s (EditorChange e)
                   = Some (System (set_ed e (plug s)) [OnModal k]))
        /\ step s Command = Some s).
Proof.
  intros Hs.
  assert (Hinv : lock_invariant s).
  { apply (steps_invariant evs (loaded st e0)); [reflexivity|exact Hs]. }
  unfold lock_invariant in Hinv. destruct s as [p w]. cbn [waiting plug] in *.
  assert (Hguard : forall e,
             isProcessing p = true \/ charBeforeCursor e <> lit " " ->
             step (System p w) (EditorChange e) = Some (System (set_ed e p) w)).
  { intros e He. cbn [step waiting plug]. unfold onEditorChange.
    cbn [isProcessing set_ed ed].
    destruct He as [He|He].
    - now rewrite He.
    - destruct (Str.eqb _ _) eqn:E; [apply Str_eqb_eq in E; contradiction|].
      now rewrite andb_false_r. }
  destruct w as [|w [|w2 w']]; [| |contradiction].
  - repeat split; auto; try discriminate; cbn [length]; lia.
  - destruct Hinv as [Hp Hw]. repeat split; auto; try discriminate.
    + rewrite Hp. discriminate.
    + intros e. injection H as ->. apply Hguard. now left.
    + cbn [step plug waiting]. unfold onCommand, processText. now rewrite Hp.
Qed.

(** A dialog is pending on ["note @ABC "]: one pass is in flight, and
    typing on is not taken for a trigger. *)
Lemma C4_single_pass_entry_guard_witness :
  match steps (loaded configured (Editor [] (0, 0)))
              [EditorChange (Editor (lit "note @ABC ") (0, 10))] with
  | Some s =>
      length (waiting s) <= 1
      /\ step s (EditorChange (Editor (lit "note @ABC x") (0, 11)))
         = Some (System (set_ed (Editor (lit "note @ABC x") (0, 11)) (plug s))
                        (waiting s))
  | None => False
  end.
Proof.
  destruct (steps (loaded configured (Editor [] (0, 0)))
                  [EditorChange (Editor (lit "note @ABC ") (0, 10))])
    as [s|] eqn:E.
  - destruct (C4_single_pass_entry_guard configured (Editor [] (0, 0))
                [EditorChange (Editor (lit "note @ABC ") (0, 10))] s E)
      as (Hone & _ & Hdrop & _).
    split; [exact Hone|]. apply Hdrop. right. discriminate.
  - vm_compute in E. discriminate E.
Defined.

(** ** C5 *)

(** C5 at ["pay $$ @ABC "]: the text before the trigger is ["pay $$"],
    the task comes back as [ABC-7], and the line is written with one
    dollar sign: the replacement string went through the expansion of
    [$$].  The cursor is where it was. *)
Theorem C5_dollar_in_summary_collapsed :
  let p := editing configured (lit "pay $$ @ABC ") (0, 12) in
  newTaskMatch (currentLine p) = Some (lit "pay $$ @ABC", lit "pay $$", lit "ABC")
  /\ exists p',
       runPass p (accepted (lit "pay")) (created (lit "ABC-7")) = Some p'
       /\ value (ed p') = lit "pay $ [ABC-7](https://tracker.yandex.ru/ABC-7) "
       /\ value (ed p') <> lit "pay $$" ++ lit " " ++ taskLink BASE (lit "ABC-7") ++ lit " "
       /\ cursor (ed p') = (0, 12).
Proof.
  split; [vm_compute; reflexivity|].
  eexists. split; [vm_compute; reflexivity|].
  split; [reflexivity|]. split; [discriminate|reflexivity].
Qed.

(** ** C6 *)

(** C6, as stated: a line that holds the link of one task is a fixed
    point, and two passes are one pass on any text.  A line with the link
    of [ABC-1] and a reference to [XYZ-2] is rewritten; and with the base
    URL [http://a.B-1.c/], whose dots stand for any character in the
    duplicate check, the second pass links a reference to [Q-1] that the
    first pass kept. *)
Lemma C6_second_pass_can_differ :
  (let line := lit "[ABC-1](https://tracker.yandex.ru/ABC-1) @XYZ-2 " in
   Str.includes (taskLink BASE (lit "ABC-1")) line = true
   /\ linkTasks BASE line line
      = Some (lit "[ABC-1](https://tracker.yandex.ru/ABC-1) [XYZ-2](https://tracker.yandex.ru/XYZ-2) ")
   /\ linkTasks BASE line line <> Some line)
  /\ (let base := lit "http://a.B-1.c/" in
      let t := lit "[Q-1](http://a@B-1 c/Q-1) @Q-1 " in
      let t1 := lit "[Q-1](http://a[B-1](http://a.B-1.c/B-1) c/Q-1) @Q-1 " in
      let t2 := lit "[Q-1](http://a[B-1](http://a.B-1.c/B-1) c/Q-1) [Q-1](http://a.B-1.c/Q-1) " in
      linkTasks base t t = Some t1 /\ linkTasks base t1 t1 = Some t2 /\ t1 <> t2).
Proof.
  split; cbv zeta.
  - split; [vm_compute; reflexivity|]. split; [vm_compute; reflexivity|].
    vm_compute. discriminate.
  - split; [vm_compute; reflexivity|]. split; [vm_compute; reflexivity|].
    vm_compute. discriminate.
Qed.

(** C6, amended: for the existing-task pass over a text, with its checks
    made on that same text.  A text with no reference [@U-D] followed by a
    space, so in particular one with no [U-D] token at all, is left
    unchanged, whatever the base URL; with a base URL free of pattern
    syntax other than dots, a text in which every reference has the link
    of the same task on its line comes out identical; and for a base URL
    that, besides, has no [@] and no line feed and has after each dot a
    character that is neither a dot nor an upper-case letter (the default
    is one), the pass returns a text that a second pass leaves
    unchanged. *)
Theorem C6_pass_fixed_points :
  (forall base t, has_reference t = false -> linkTasks base t t = Some t)
  /\ (forall base t, has_task_token t = false -> linkTasks base t t = Some t)
  /\ (forall base t,
        plain_url base = true ->
        (forall p U D r,
            t = p ++ lit "@" ++ (U ++ lit "-" ++ D) ++ lit " " ++ r ->
            task_id U D ->
            Str.includes (taskLink base (U ++ lit "-" ++ D))
                         (line_of t (length p)) = true) ->
        linkTasks base t t = Some t)
  /\ (forall base t,
        url_inert base = true ->
        exists t1,
          linkTasks base t t = Some t1 /\ linkTasks base t1 t1 = Some t1)
  /\ url_inert BASE = true.
Proof.
  split; [|split; [|split; [|split]]].
  - intros base t H. now apply (linkTasksFrom_no_ref base t t 0).
  - intros base t H. apply (linkTasksFrom_no_ref base t t 0).
    now apply no_token_no_reference.
  - intros base t Hb Hall.
    apply (linked_text_fixed base t (length t) Hb Hall t []); [lia|reflexivity].
  - intros base t Hi. pose proof Hi as Hb. apply andb_true_iff in Hb as [Hb _].
    destruct (linkTasksFrom_total base t 0 t Hb) as (t1 & H1).
    exists t1. split; [exact H1|]. now apply (linkTasks_idempotent base t t1).
  - reflexivity.
Qed.

(** Two passes over a text with a linked, a guarded and a bare reference
    under the default base URL. *)
Lemma C6_pass_fixed_points_witness :
  exists t1,
    linkTasks BASE (lit "[A-1](https://tracker.yandex.ru/A-1) @A-1 x](@B-2 @C-3 ")
                   (lit "[A-1](https://tracker.yandex.ru/A-1) @A-1 x](@B-2 @C-3 ")
      = Some t1
    /\ linkTasks BASE t1 t1 = Some t1.
Proof.
  apply (proj1 (proj2 (proj2 (proj2 C6_pass_fixed_points)))). reflexivity.
Defined.

(** ** C7 *)

(** C7: [cleanMarkdown] is a function of its argument that strips, in this
    order, a leading numbered-list marker, a leading bullet, emphasis
    markers, code spans, links (kept as their text), a leading blockquote
    marker and HTML tags, and then trims.  The list and quote markers are
    looked for once, at the start of what the steps before left, so the
    order shows: a number after a bullet stays, a bullet after a number
    goes.  What it returns has no white space left at either end.  The
    example of the specification comes out as ["Do the thing here"]. *)
Theorem C7_cleanMarkdown_steps :
  (forall text,
      cleanMarkdown text =
      Str.trim
        (Replace.replace_all htmlRegex empty
        (Replace.replace_first quoteRegex empty
        (Replace.replace_all mdLinkRegex (lit "$1")
        (Replace.replace_all codeRegex (lit "$1")
        (Replace.replace_all emphasisRegex (lit "$1")
        (Replace.replace_first bulletRegex empty
        (Replace.replace_first numberedRegex empty text))))))))
  /\ (forall text, Str.trim (cleanMarkdown text) = cleanMarkdown text)
  /\ cleanMarkdown (lit "1. **Do** the `thing` [here](http://x)")
     = lit "Do the thing here"
  /\ cleanMarkdown (lit "2. - x") = lit "x"
  /\ cleanMarkdown (lit "- 2. x") = lit "2. x"
  /\ cleanMarkdown (lit "1. > x") = lit "x"
  /\ cleanMarkdown (lit "> 1. x") = lit "1. x"
  /\ cleanMarkdown (lit "- *****a* <b>bold</b> [`c`](u) ") = lit "**a bold c"
  /\ cleanMarkdown (lit "  ") = [].
Proof.
  split; [reflexivity|]. split; [intros text; apply trim_trim|].
  repeat split; vm_compute; reflexivity.
Qed.

(** ** C8 *)

(** C8, as stated: a 201 response whose object has an [id] succeeds.  An
    object with an [id] and an empty [key] fails, and an object with a
    [key] and no [id] succeeds. *)
Lemma C8_id_field_not_read :
  let with_id := JObj [(lit "id", JStr (lit "42")); (lit "key", JStr [])] in
  let without_id := JObj [(lit "key", JStr (lit "ABC-1"))] in
  has_field (lit "id") with_id = true
  /\ has_field (lit "key") with_id = true
  /\ createTask_response (Response 201 (inr with_id))
     = inl (Error (lit "Invalid API response: missing task key"))
  /\ has_field (lit "id") without_id = false
  /\ createTask_response (Response 201 (inr without_id))
     = inr (JStr (lit "ABC-1")).
Proof. repeat split. Qed.

(** C8, amended: the call succeeds, with [k], exactly when the status is
    201, the body reads as JSON, and the body (or the first element of an
    array body) is a truthy value whose [key] field is the truthy [k].
    Every other outcome throws; what [createTask] throws itself (another
    status, no usable [key]) is an [Error], and a thrown [Error] is shown
    in a notice. *)
Theorem C8_key_read_on_201 :
  (forall o k,
      createTask_response o = inr k <->
      exists j d,
        o = Response 201 (inr j) /\ responseData j = Some d /\
        truthy d = true /\ get_key d = Some k /\ truthy k = true)
  /\ (forall status j,
        match createTask_response (Response status (inr j)) with
        | inl e => isError e = true
        | inr _ => True
        end)
  /\ (forall e,
        createTask_notices (inl e) =
        if isError e then [lit "Failed to create task: " ++ message e] else []).
Proof.
  split; [|split].
  - intros o k. split.
    + destruct o as [status [e|j]|e]; cbn [createTask_response];
        try (destruct (Nat.eqb status 201); discriminate); try discriminate.
      destruct (Nat.eqb_spec status 201) as [->|]; cbn [negb]; [|discriminate].
      destruct (responseData j) as [d|] eqn:Ed; [|discriminate].
      destruct (truthy d) eqn:Td; [|discriminate].
      destruct (get_key d) as [k'|] eqn:Ek; [|discriminate].
      destruct (truthy k') eqn:Tk; [|discriminate].
      intros H. inversion H; subst k'. now exists j, d.
    + intros (j & d & -> & Ed & Td & Ek & Tk). cbn [createTask_response Nat.eqb negb].
      now rewrite Ed, Td, Ek, Tk.
  - intros status j. cbn [createTask_response].
    destruct (negb (Nat.eqb status 201)); [reflexivity|].
    destruct (responseData j) as [d|]; [|reflexivity].
    destruct (truthy d); [|reflexivity].
    destruct (get_key d) as [k'|]; [|reflexivity].
    destruct (truthy k'); [exact I|reflexivity].
  - reflexivity.
Qed.

(** A 201 response with an array body: the key of its first element. *)
Lemma C8_key_read_on_201_witness :
  createTask_response
    (Response 201 (inr (JArr [JObj [(lit "key", JStr (lit "ABC-99"))]])))
  = inr (JStr (lit "ABC-99")).
Proof.
  apply (proj1 C8_key_read_on_201).
  exists (JArr [JObj [(lit "key", JStr (lit "ABC-99"))]]),
         (JObj [(lit "key", JStr (lit "ABC-99"))]).
  repeat split.
Defined.

(** ** C9 *)




(** ** C10 *)


(** * Further properties of the code *)

(** ** Comma-separated inputs *)

Lemma split_no_sep sep s :
  Forall (fun x => has_char sep x = false) (Str.split sep s).
Proof.
  induction s as [|c s IH]; cbn [Str.split].
  - constructor; [reflexivity | constructor].
  - destruct (N.eqb c sep) eqn:E.
    + constructor; [reflexivity | exact IH].
    + destruct (Str.split sep s) as [|l ls] eqn:S.
      * constructor; [|constructor]. cbn. rewrite N.eqb_sym, E. reflexivity.
      * inversion IH; subst. constructor; [|assumption].
        cbn. rewrite N.eqb_sym, E. assumption.
Qed.

Lemma has_char_rev c (s : str) : has_char c (rev s) = has_char c s.
Proof.
  induction s as [|x s IH]; [reflexivity|].
  cbn [rev]. rewrite has_char_app, IH. cbn. rewrite orb_false_r. apply orb_comm.
Qed.

Lemma trimStart_no_char c s :
  has_char c s = false -> has_char c (Str.trimStart s) = false.
Proof.
  induction s as [|x s IH]; [reflexivity|].
  intros H. cbn [Str.trimStart]. destruct (Str.is_space x); [|exact H].
  apply IH. cbn in H. apply orb_false_iff in H. apply H.
Qed.

Lemma trim_no_char c s : has_char c s = false -> has_char c (Str.trim s) = false.
Proof.
  intros H. unfold Str.trim, Str.trimEnd. rewrite has_char_rev.
  apply trimStart_no_char. rewrite has_char_rev. apply trimStart_no_char, H.
Qed.

Lemma commaSeparated_entries v : forallb entry (commaSeparated v) = true.
Proof.
  unfold commaSeparated.
  pose proof (split_no_sep (ch ",") v) as H.
  induction H as [|x l Hx Hl IH]; [reflexivity|].
  cbn [map filter]. destruct (nonempty (Str.trim x)) eqn:N; [|exact IH].
  cbn [forallb]. rewrite IH, andb_true_r. unfold entry.
  rewrite N, trim_trim, (proj2 (Str_eqb_eq _ _) eq_refl), (trim_no_char _ _ Hx).
  reflexivity.
Qed.

Lemma split_cons_keep sep c s :
  N.eqb c sep = false ->
  Str.split sep (c :: s) = (c :: hd [] (Str.split sep s)) :: tl (Str.split sep s).
Proof.
  intros E. cbn [Str.split]. rewrite E.
  destruct (Str.split sep s) eqn:S; [|reflexivity].
  exfalso. exact (split_nonempty sep s S).
Qed.

Lemma split_app_sep sep (x : str) s :
  has_char sep x = false ->
  Str.split sep (x ++ sep :: s) = x :: Str.split sep s.
Proof.
  induction x as [|c x IH]; intros H.
  - cbn [app Str.split]. rewrite N.eqb_refl. reflexivity.
  - cbn in H. apply orb_false_iff in H. destruct H as [Hc Hx].
    change ((c :: x) ++ sep :: s) with (c :: (x ++ sep :: s)).
    rewrite split_cons_keep by (rewrite N.eqb_sym; exact Hc).
    rewrite IH by exact Hx. reflexivity.
Qed.

Lemma split_no_sep_id sep (s : str) :
  has_char sep s = false -> Str.split sep s = [s].
Proof.
  induction s as [|c s IH]; intros H; [reflexivity|].
  cbn in H. apply orb_false_iff in H. destruct H as [Hc Hs].
  rewrite split_cons_keep by (rewrite N.eqb_sym; exact Hc).
  rewrite IH by exact Hs. reflexivity.
Qed.

Lemma entry_inv x :
  entry x = true ->
  nonempty x = true /\ Str.trim x = x /\ has_char (ch ",") x = false.
Proof.
  unfold entry. intros H. apply andb_true_iff in H. destruct H as [H H3].
  apply andb_true_iff in H. destruct H as [H1 H2].
  apply Str_eqb_eq in H2. apply negb_true_iff in H3. auto.
Qed.

Lemma split_join l :
  forallb entry l = true ->
  map Str.trim (Str.split (ch ",") (Str.join (lit ", ") l)) =
  match l with [] => [[]] | _ => l end.
Proof.
  induction l as [|x l IH]; intros H; [reflexivity|].
  cbn [forallb] in H. apply andb_true_iff in H. destruct H as [Hx Hl].
  destruct (entry_inv _ Hx) as (Nx & Tx & Cx).
  destruct l as [|y l].
  - cbn [Str.join]. rewrite split_no_sep_id by exact Cx. cbn. rewrite Tx.
    reflexivity.
  - change (Str.join (lit ", ") (x :: y :: l))
      with (x ++ ch "," :: ch " " :: Str.join (lit ", ") (y :: l)).
    rewrite split_app_sep by exact Cx.
    rewrite split_cons_keep by reflexivity.
    specialize (IH Hl).
    destruct (Str.split (ch ",") (Str.join (lit ", ") (y :: l))) as [|h t] eqn:S.
    { exfalso. exact (split_nonempty _ _ S). }
    cbn [map hd tl] in *. rewrite Tx. f_equal.
    injection IH as Hh Ht. rewrite Ht. f_equal.
    rewrite <- Hh. reflexivity.
Qed.

Lemma filter_entries l : forallb entry l = true -> filter nonempty l = l.
Proof.
  induction l as [|x l IH]; intros H; [reflexivity|].
  cbn [forallb] in H. apply andb_true_iff in H. destruct H as [Hx Hl].
  cbn [filter]. destruct (entry_inv _ Hx) as (Nx & _).
  rewrite Nx, IH by exact Hl. reflexivity.
Qed.

Lemma commaSeparated_join l :
  forallb entry l = true -> commaSeparated (Str.join (lit ", ") l) = l.
Proof.
  intros H. unfold commaSeparated. rewrite split_join by exact H.
  destruct l as [|x l]; [reflexivity|]. apply filter_entries, H.
Qed.

Lemma edit_settings_entries edits : forall st,
  forallb entry (defaultAssignees st) = true ->
  forallb entry (defaultAssignees (edit_settings edits st)) = true.
Proof.
  induction edits as [|[f v] edits IH]; intros st H; [exact H|].
  cbn [edit_settings fold_left fst snd]. apply IH.
  destruct f; cbn; try exact H. apply commaSeparated_entries.
Qed.

Lemma onChange_shown f st :
  forallb entry (defaultAssignees st) = true ->
  onChange f (shownValue f st) st = st.
Proof.
  intros H. destruct st as [b t o d a]. destruct f; try reflexivity.
  cbn [onChange shownValue defaultAssignees trackerBaseURL apiToken orgId
       defaultDescription] in *.
  rewrite commaSeparated_join by exact H. reflexivity.
Qed.

(** X1: what the dialog sends as tags and what the settings tab stores as
    default assignees are clean lists, whatever was typed: every entry is
    non-empty, has no comma and no white space at either end; and an input
    that is empty or holds only commas and white space gives the empty
    list. *)
Theorem X1_comma_lists_clean :
  (forall m, forallb entry (tags (submitted m)) = true)
  /\ (forall value st,
        forallb entry (defaultAssignees (onChange DefaultAssignees value st))
        = true)
  /\ (forall value,
        forallb (fun c => N.eqb c (ch ",") || Str.is_space c) value = true ->
        commaSeparated value = []).
Proof.
  split; [|split].
  - intros m. apply commaSeparated_entries.
  - intros value st. apply commaSeparated_entries.
  - intros value H. unfold commaSeparated.
    assert (G : forall s,
               forallb (fun c => N.eqb c (ch ",") || Str.is_space c) s = true ->
               Forall (fun x => forallb Str.is_space x = true)
                      (Str.split (ch ",") s)).
    { induction s as [|c s IH]; intros Hs.
      - repeat constructor.
      - cbn [forallb] in Hs. apply andb_true_iff in Hs. destruct Hs as [Hc Hs].
        specialize (IH Hs). cbn [Str.split].
        destruct (N.eqb c (ch ",")) eqn:E.
        + constructor; [reflexivity | exact IH].
        + cbn [orb] in Hc.
          destruct (Str.split (ch ",") s) as [|l ls].
          * repeat constructor. cbn. rewrite Hc. reflexivity.
          * inversion IH; subst. constructor; [|assumption].
            cbn. rewrite Hc. assumption. }
    specialize (G value H).
    induction G as [|x l Hx Hl IH]; [reflexivity|].
    cbn [map filter].
    assert (T : Str.trim x = []).
    { unfold Str.trim.
      assert (S0 : forall y, forallb Str.is_space y = true -> Str.trimStart y = []).
      { induction y as [|c y IHy]; [reflexivity|]. cbn [forallb Str.trimStart].
        intros Hy. apply andb_true_iff in Hy. destruct Hy as [Hc Hy].
        rewrite Hc. apply IHy, Hy. }
      rewrite (S0 x Hx). reflexivity. }
    rewrite T. cbn [nonempty]. exact IH.
Qed.

(** X2: the default-assignees field round-trips.  What the settings tab
    shows for a clean list reads back as that list; so in every state
    reached from the defaults by edits in the tab, entering again what a
    field shows stores the settings unchanged. *)
Theorem X2_settings_round_trip :
  (forall l, forallb entry l = true ->
             commaSeparated (Str.join (lit ", ") l) = l)
  /\ (forall edits f,
        let st := edit_settings edits DEFAULT_SETTINGS in
        onChange f (shownValue f st) st = st)
  /\ (forall value st,
        let st1 := onChange DefaultAssignees value st in
        onChange DefaultAssignees (shownValue DefaultAssignees st1) st1 = st1).
Proof.
  split; [|split].
  - apply commaSeparated_join.
  - intros edits f st. apply onChange_shown.
    apply edit_settings_entries. reflexivity.
  - intros value st st1. apply onChange_shown. apply commaSeparated_entries.
Qed.

(** Two names typed with stray blanks and an empty entry: stored clean,
    shown as ["ann, bob"], and read back the same. *)
Lemma X2_settings_round_trip_witness :
  forallb entry [lit "ann"; lit "bob"] = true
  /\ commaSeparated (lit " ann ,, bob ") = [lit "ann"; lit "bob"]
  /\ commaSeparated (Str.join (lit ", ") [lit "ann"; lit "bob"])
     = [lit "ann"; lit "bob"].
Proof.
  split; [reflexivity | split; [reflexivity|]].
  apply (proj1 X2_settings_round_trip). reflexivity.
Defined.

(** ** The confirmation dialog *)

Lemma gestures_closed m gs : isOpen m = false -> gestures m gs = m.
Proof.
  intros H. induction gs as [|g gs IH]; [reflexivity|].
  cbn [gestures fold_left]. unfold gesture_step at 2. rewrite H. cbn [negb].
  exact IH.
Qed.

Lemma edit_keeps m g :
  isOpen m = true -> result m = None -> closing g = false ->
  isOpen (gesture_step m g) = true /\ result (gesture_step m g) = None
  /\ modalSummary (gesture_step m g) = modalSummary m.
Proof.
  intros O R C. unfold gesture_step. rewrite O. cbn [negb].
  destruct g; try discriminate C; cbn; auto.
  destruct (nth_error (assigneeButtons m) i); cbn; auto.
Qed.

Lemma dialog_answer m gs :
  isOpen m = true -> result m = None ->
  getResult (gestures m gs) =
    match find closing gs with
    | None => None
    | Some ClickCreate => Some (submitted (gestures m (edits_before gs)))
    | Some _ => Some (dismissed m)
    end
  /\ isOpen (gestures m gs) =
     match find closing gs with None => true | Some _ => false end.
Proof.
  revert m. induction gs as [|g gs IH]; intros m O R.
  - cbn. unfold getResult. auto.
  - cbn [find edits_before]. destruct (closing g) eqn:C.
    + change (gestures m (g :: gs)) with (gestures (gesture_step m g) gs).
      assert (Cl : isOpen (gesture_step m g) = false /\
                   result (gesture_step m g) =
                   Some (match g with
                         | ClickCreate => submitted m
                         | _ => dismissed m
                         end)).
      { unfold gesture_step. rewrite O. cbn [negb].
        destruct g; try discriminate C; unfold close, onClose, resolvePromise;
          rewrite R; cbn; auto. }
      destruct Cl as [Cl Rs]. rewrite (gestures_closed _ gs Cl).
      unfold getResult. rewrite Rs, Cl.
      destruct g; try discriminate C; auto.
    + change (gestures m (g :: gs)) with (gestures (gesture_step m g) gs).
      change (gestures m (g :: edits_before gs))
        with (gestures (gesture_step m g) (edits_before gs)).
      destruct (edit_keeps m g O R C) as (O' & R' & S').
      destruct (IH _ O' R') as [A B]. rewrite A, B. split; [|reflexivity].
      destruct (find closing gs) as [g'|]; [|reflexivity].
      destruct g'; try reflexivity; unfold dismissed; rewrite S'; reflexivity.
Qed.

(** X3: the first closing gesture decides the dialog's answer.  The
    dialog is answered exactly when it has left the screen; [Create]
    answers with the inputs as they stand then (trimmed, the tags split),
    and the answer [close()] gives through [onClose] right after does not
    replace it; [Cancel] and the Escape key answer unconfirmed, with the
    summary the dialog was opened with and everything else empty; later
    gestures change nothing. *)
Theorem X3_first_closing_gesture_decides
    (st : YandexTrackerSettings) (tomorrow summary0 queueKey : str)
    (gs : list gesture) :
  let m0 := openedModal st tomorrow summary0 queueKey in
  getResult (gestures m0 gs) =
    match find closing gs with
    | None => None
    | Some ClickCreate => Some (submitted (gestures m0 (edits_before gs)))
    | Some _ =>
        Some {| confirmed := false; summary := summary0; description := [];
                deadline := []; tags := []; assignee := [] |}
    end
  /\ (isOpen (gestures m0 gs) = true <-> getResult (gestures m0 gs) = None)
  /\ (forall gs', isOpen (gestures m0 gs) = false ->
                  gestures m0 (gs ++ gs') = gestures m0 gs).
Proof.
  intros m0.
  destruct (dialog_answer m0 gs eq_refl eq_refl) as [A B].
  split; [|split].
  - rewrite A. destruct (find closing gs) as [g|]; [|reflexivity].
    destruct g; reflexivity.
  - rewrite A, B. destruct (find closing gs) as [g|].
    + split; [discriminate|]. destruct g; discriminate.
    + split; reflexivity.
  - intros gs' C. unfold gestures. rewrite fold_left_app.
    apply gestures_closed, C.
Qed.

(** ** New-task detection *)

Lemma forallb_app_l {A} (p : A -> bool) a b :
  forallb p (a ++ b) = true -> forallb p a = true.
Proof. rewrite forallb_app. intros H. apply andb_true_iff in H. apply H. Qed.

Lemma first_some_seq_min {B} (f : nat -> option B) len : forall lo y,
  first_some f (seq lo len) = Some y ->
  exists m, lo <= m < lo + len /\ f m = Some y /\
            forall j, lo <= j < m -> f j = None.
Proof.
  induction len as [|len IH]; intros lo y H; [discriminate|].
  cbn [seq first_some] in H. destruct (f lo) as [z|] eqn:E.
  - injection H as <-. exists lo. split; [lia|]. split; [exact E|]. intros j Hj. lia.
  - destruct (IH _ _ H) as (m & Hm & Fm & Hmin).
    exists m. split; [lia|]. split; [exact Fm|].
    intros j Hj. destruct (Nat.eq_dec j lo) as [->|Hne]; [exact E|].
    apply Hmin. lia.
Qed.

Lemma run_len_all p (s : str) : forallb p s = true -> run_len p None s = length s.
Proof.
  intros H. rewrite <- (app_nil_r s) at 1. rewrite run_len_app by exact H.
  cbn. lia.
Qed.

Lemma newTask_attempt idx s m :
  match_at newTaskRegex idx s = Some m ->
  exists n key,
    n <= run_len dot None s /\
    trigger_at (skipn n s) = Some key /\
    (forall j, j < n -> trigger_at (skipn j s) = None) /\
    m = MResult idx
          (firstn (n + run_len is_space None (skipn n s) + 1 + length key) s)
          [(2, key); (1, firstn n s)].
Proof.
  unfold match_at. rewrite run_newTask.
  destruct (first_some _ _) as [st|] eqn:E; [|discriminate].
  intros H. injection H as <-.
  apply first_some_seq_min in E. destruct E as (n & Hn & Fn & Hmin).
  destruct (trigger_at (skipn n s)) as [key|] eqn:T; [|discriminate].
  cbn [option_map] in Fn. injection Fn as <-.
  exists n, key. split; [lia|]. split; [exact T|]. split.
  - intros j Hj. specialize (Hmin j ltac:(lia)).
    destruct (trigger_at (skipn j s)); [discriminate|reflexivity].
  - cbn [pos caps]. f_equal. f_equal. lia.
Qed.

Lemma first_some_none_inv {A B} (f : A -> option B) l x :
  first_some f l = None -> In x l -> f x = None.
Proof.
  induction l as [|y l IH]; intros H Hin; [contradiction|].
  cbn [first_some] in H. destruct (f y) eqn:E; [discriminate|].
  destruct Hin as [->|Hin]; [exact E | now apply IH].
Qed.

Lemma newTask_at_start s :
  forallb dot s = true ->
  forall k m, match_at newTaskRegex k (skipn k s) = Some m ->
  exists m0, match_at newTaskRegex 0 s = Some m0.
Proof.
  intros Hd k m H. apply newTask_attempt in H.
  destruct H as (n & key & Hn & T & _ & _).
  rewrite skipn_skipn in T.
  destruct (match_at newTaskRegex 0 s) as [m0|] eqn:E; [now exists m0|].
  exfalso. unfold match_at in E. rewrite run_newTask in E.
  destruct (first_some _ _) eqn:F; [discriminate|].
  assert (L : n + k <= length s).
  { destruct (Nat.le_gt_cases (n + k) (length s)) as [L|L]; [exact L|].
    rewrite skipn_all2 in T by lia. discriminate. }
  apply (first_some_none_inv _ _ (n + k)) in F.
  - cbv beta in F. rewrite T in F. discriminate.
  - apply in_seq. rewrite run_len_all by exact Hd. lia.
Qed.

Lemma exec_newTask_start s m :
  forallb dot s = true ->
  exec newTaskRegex s = Some m -> match_at newTaskRegex 0 s = Some m.
Proof.
  intros Hd H. unfold exec in H.
  destruct (exec_from_inv _ _ _ _ H) as (k & Hk). cbn [Nat.add] in Hk.
  destruct (newTask_at_start s Hd k m Hk) as (m0 & Hm0).
  destruct s as [|c s]; cbn [exec_from] in H; rewrite Hm0 in H; congruence.
Qed.

Lemma nts_false x :
  no_trailing_space x = false ->
  exists x' c, x = x' ++ [c] /\ is_space c = true.
Proof.
  induction x as [|c x IH]; [discriminate|].
  cbn [no_trailing_space]. destruct x as [|d x].
  - intros H. apply negb_false_iff in H. exists [], c. auto.
  - intros H. destruct (IH H) as (x' & e & -> & He).
    exists (c :: x'), e. auto.
Qed.

Lemma has_trigger_inv x :
  has_trigger x = true ->
  exists a b, x = a ++ ch "@" :: b /\ key_space b = true.
Proof.
  induction x as [|c x IH]; [discriminate|].
  cbn [has_trigger]. intros H. apply orb_true_iff in H. destruct H as [H|H].
  - apply andb_true_iff in H. destruct H as [Hc Hk]. apply N.eqb_eq in Hc.
    subst c. exists [], x. auto.
  - destruct (IH H) as (a & b & -> & Hk). exists (c :: a), b. auto.
Qed.

Lemma key_space_shape b :
  key_space b = true ->
  exists U r, b = U ++ ch " " :: r /\ forallb is_upper U = true /\ 1 <= length U.
Proof.
  unfold key_space. intros H. apply andb_true_iff in H. destruct H as [Hn Hs].
  destruct (skipn (run_len is_upper None b) b) as [|e r] eqn:S; [discriminate|].
  apply N.eqb_eq in Hs. subst e.
  exists (firstn (run_len is_upper None b) b), r. split; [|split].
  - rewrite <- S. apply firstn_run_split.
  - apply run_len_firstn.
  - rewrite length_firstn. pose proof (run_len_le is_upper b).
    apply Nat.leb_le in Hn. lia.
Qed.

Lemma key_space_intro U r :
  forallb is_upper U = true -> 1 <= length U ->
  key_space (U ++ ch " " :: r) = true.
Proof.
  intros Hu Hl. unfold key_space.
  rewrite run_len_app, run_len_stop, Nat.add_0_r by (exact Hu || reflexivity).
  rewrite skipn_app, skipn_all, Nat.sub_diag. cbn [app skipn].
  rewrite N.eqb_refl, andb_true_r. now apply Nat.leb_le.
Qed.

Lemma key_space_ext b y : key_space b = true -> key_space (b ++ y) = true.
Proof.
  intros H. destruct (key_space_shape _ H) as (U & r & -> & Hu & Hl).
  rewrite <- app_assoc. cbn [app]. now apply key_space_intro.
Qed.

Lemma trigger_at_sigil b :
  key_space b = true ->
  trigger_at (ch "@" :: b) = Some (firstn (run_len is_upper None b) b).
Proof.
  intros H. unfold trigger_at. rewrite run_len_stop by reflexivity.
  cbn [skipn]. rewrite H. reflexivity.
Qed.

Lemma app_split_at {A} (a b c d : list A) :
  a ++ b = c ++ d -> length a <= length c ->
  exists e, c = a ++ e /\ b = e ++ d.
Proof.
  revert c. induction a as [|x a IH]; intros c H L.
  - exists c. auto.
  - destruct c as [|y c]; [cbn in L; lia|].
    cbn [app] in H. injection H as -> H. cbn [length] in L.
    destruct (IH c H ltac:(lia)) as (e & -> & ->). exists e. auto.
Qed.

Lemma spaces_no_at ws : forallb is_space ws = true -> has_char (ch "@") ws = false.
Proof.
  intros H. apply (class_no_char is_space); [reflexivity | exact H].
Qed.

Lemma newTaskMatch_shape line fullMatch taskSummary queueKey :
  forallb dot line = true ->
  newTaskMatch line = Some (fullMatch, taskSummary, queueKey) ->
  exists ws post,
    line = taskSummary ++ ws ++ ch "@" :: queueKey ++ ch " " :: post /\
    fullMatch = taskSummary ++ ws ++ ch "@" :: queueKey /\
    no_trailing_space taskSummary = true /\ forallb is_space ws = true /\
    nonempty queueKey = true /\ forallb is_upper queueKey = true /\
    has_trigger (taskSummary ++ ws) = false /\
    Str.includes (lit "](") line = false.
Proof.
  intros Hd H. unfold newTaskMatch in H.
  destruct (exec newTaskRegex line) as [m|] eqn:E; [|discriminate].
  destruct (Str.includes (lit "](") line) eqn:I; [discriminate|].
  cbn [negb] in H. injection H as <- <- <-.
  apply (exec_newTask_start _ _ Hd) in E.
  apply newTask_attempt in E.
  destruct E as (n & key & Hn & T & Hmin & ->).
  cbn [matched groups]. unfold Replace.capture. cbn [group Nat.eqb].
  destruct (trigger_at_inv _ _ T) as (ws & post & Hs & Lw & Hw & Hk & Hu).
  assert (L : line = firstn n line ++ ws ++ ch "@" :: key ++ ch " " :: post).
  { rewrite <- Hs. symmetry. apply firstn_skipn. }
  assert (Ln : length (firstn n line) = n).
  { rewrite length_firstn. pose proof (run_len_le dot line). lia. }
  set (sum := firstn n line) in *.
  exists ws, post. split; [exact L|]. split.
  { rewrite <- Lw. rewrite L at 1.
    replace (n + length ws + 1 + length key)
      with (length (sum ++ ws ++ ch "@" :: key))
      by (rewrite !length_app; cbn [length]; lia).
    replace (sum ++ ws ++ ch "@" :: key ++ ch " " :: post)
      with ((sum ++ ws ++ ch "@" :: key) ++ ch " " :: post)
      by (rewrite <- !app_assoc; reflexivity).
    now rewrite firstn_app, Nat.sub_diag, firstn_all, firstn_O, app_nil_r. }
  split.
  { destruct (no_trailing_space sum) eqn:N; [reflexivity|]. exfalso.
    destruct (nts_false _ N) as (x' & c & Hx & Hc).
    assert (Lx : length x' < n).
    { rewrite <- Ln, Hx, length_app. cbn. lia. }
    specialize (Hmin _ Lx).
    rewrite L, Hx, <- app_assoc in Hmin.
    rewrite skipn_app, skipn_all, Nat.sub_diag in Hmin. cbn [app skipn] in Hmin.
    change (c :: ws ++ ch "@" :: key ++ ch " " :: post)
      with ((c :: ws) ++ ch "@" :: key ++ ch " " :: post) in Hmin.
    rewrite trigger_here in Hmin; [discriminate| |exact Hk|exact Hu].
    cbn [forallb]. now rewrite Hc, Hw. }
  split; [exact Hw|]. split; [exact Hk|]. split; [exact Hu|].
  split; [|reflexivity].
  destruct (has_trigger (sum ++ ws)) eqn:G; [|reflexivity]. exfalso.
  destruct (has_trigger_inv _ G) as (a & b & Hab & Hb).
  destruct (Nat.le_gt_cases (length sum) (length a)) as [Lsa|Lsa].
  - destruct (app_split_at sum ws a (ch "@" :: b) Hab Lsa) as (e & -> & ->).
    pose proof (spaces_no_at _ Hw) as Hat.
    rewrite has_char_app in Hat. cbn in Hat. rewrite orb_true_r in Hat.
    discriminate.
  - symmetry in Hab.
    destruct (app_split_at a (ch "@" :: b) sum ws Hab ltac:(lia)) as (e & He & Hbe).
    destruct e as [|x e].
    { rewrite app_nil_r in He. rewrite He in Lsa. lia. }
    cbn [app] in Hbe. injection Hbe as <- Hbe.
    assert (La : length a < n) by (rewrite <- Ln; exact Lsa).
    specialize (Hmin _ La).
    rewrite L, He, <- app_assoc in Hmin.
    rewrite skipn_app, skipn_all, Nat.sub_diag in Hmin. cbn [app skipn] in Hmin.
    rewrite app_assoc, <- Hbe in Hmin.
    rewrite trigger_at_sigil in Hmin; [discriminate|].
    apply key_space_ext, Hb.
Qed.

(** X4: on a line without line terminators, new-task detection is
    characterised exactly.  It returns [(fullMatch, taskSummary, queueKey)]
    if and only if the line has no ["]("] and reads [taskSummary], white
    space (possibly none), ["@"], [queueKey], a space, and the rest, where
    [queueKey] is a non-empty run of upper-case letters, [taskSummary] does
    not end in white space, no ["@KEY "] lies before that point, and
    [fullMatch] is the line up to the end of the key.  So the match always
    starts at column 0 and [taskSummary] is everything before the
    mention. *)
Theorem X4_new_task_match_characterised
    (line fullMatch taskSummary queueKey : str) :
  forallb dot line = true ->
  (newTaskMatch line = Some (fullMatch, taskSummary, queueKey) <->
   exists ws post,
     line = taskSummary ++ ws ++ lit "@" ++ queueKey ++ lit " " ++ post /\
     fullMatch = taskSummary ++ ws ++ lit "@" ++ queueKey /\
     no_trailing_space taskSummary = true /\ forallb is_space ws = true /\
     nonempty queueKey = true /\ forallb is_upper queueKey = true /\
     has_trigger (taskSummary ++ ws) = false /\
     Str.includes (lit "](") line = false).
Proof.
  intros Hd. split.
  - apply newTaskMatch_shape, Hd.
  - intros (ws & post & Hl & Hf & Hn & Hw & Hk & Hu & Ht & Hi).
    unfold newTaskMatch. rewrite Hi. rewrite Hl.
    change (lit "@" ++ queueKey ++ lit " " ++ post)
      with (ch "@" :: queueKey ++ ch " " :: post).
    rewrite (exec_newTask taskSummary ws queueKey post); auto.
    + cbn [negb matched groups]. rewrite Hf. reflexivity.
    + rewrite Hl in Hd. apply (forallb_app_l _ _ _ Hd).
Qed.

(** Two mentions on a line: the shape of the match that is found. *)
Lemma X4_new_task_match_characterised_witness :
  exists ws post,
    lit "fix it  @ABC and @XYZ "
      = lit "fix it" ++ ws ++ lit "@" ++ lit "ABC" ++ lit " " ++ post /\
    lit "fix it  @ABC" = lit "fix it" ++ ws ++ lit "@" ++ lit "ABC" /\
    no_trailing_space (lit "fix it") = true /\ forallb is_space ws = true /\
    nonempty (lit "ABC") = true /\ forallb is_upper (lit "ABC") = true /\
    has_trigger (lit "fix it" ++ ws) = false /\
    Str.includes (lit "](") (lit "fix it  @ABC and @XYZ ") = false.
Proof.
  apply (proj1 (X4_new_task_match_characterised
                  (lit "fix it  @ABC and @XYZ ") (lit "fix it  @ABC")
                  (lit "fix it") (lit "ABC") eq_refl)).
  vm_compute. reflexivity.
Defined.

(** ** [cleanMarkdown] on plain text *)

(** A pattern that cannot start at a character outside the class [p],
    nor at the end of the text, leaves a text without such characters as
    it is. *)
Lemma scan_needs r (p : char -> bool) :
  (forall i x g k,
      match x with [] => True | c :: _ => p c = false end ->
      run r (MState i x g) k = None) ->
  forall s idx, existsb p s = false -> scan r idx 0 s = map Plain s.
Proof.
  intros Hr. induction s as [|c s IH]; intros idx Hs.
  - cbn [scan]. unfold match_at. now rewrite Hr.
  - cbn [existsb] in Hs. apply orb_false_iff in Hs. destruct Hs as [Hc Hs].
    cbn [scan]. unfold match_at. rewrite Hr by exact Hc.
    cbn [map]. f_equal. apply IH, Hs.
Qed.

Lemma replace_all_needs r (p : char -> bool) tmpl s :
  (forall i x g k,
      match x with [] => True | c :: _ => p c = false end ->
      run r (MState i x g) k = None) ->
  existsb p s = false -> Replace.replace_all r tmpl s = s.
Proof.
  intros Hr Hs. unfold Replace.replace_all, match_all.
  rewrite (scan_needs r p Hr s 0 Hs).
  generalize s at 1 as whole. intros whole.
  induction s as [|c s IH]; [reflexivity|].
  cbn [existsb] in Hs. apply orb_false_iff in Hs.
  cbn [map flat_map app]. f_equal. apply IH, Hs.
Qed.

Lemma exec_from_bol r s : forall idx,
  1 <= idx -> exec_from (Seq Bol r) idx s = None.
Proof.
  induction s as [|c s IH]; intros idx Hi; cbn [exec_from];
    unfold match_at; rewrite run_Seq, run_Bol; cbn [pos];
    destruct (Nat.eqb_spec idx 0) as [->|_]; try lia; [reflexivity|].
  apply IH. lia.
Qed.

Lemma replace_first_bol r tmpl s :
  (forall k, run r (MState 0 s []) k = None) ->
  Replace.replace_first (Seq Bol r) tmpl s = s.
Proof.
  intros Hr. unfold Replace.replace_first, exec.
  assert (E : exec_from (Seq Bol r) 0 s = None).
  { destruct s as [|c s]; cbn [exec_from]; unfold match_at;
      rewrite run_Seq, run_Bol; cbn [pos Nat.eqb]; rewrite Hr; [reflexivity|].
    apply exec_from_bol. lia. }
  now rewrite E.
Qed.

Lemma existsb_sub (p q : char -> bool) (s : str) :
  (forall c, p c = true -> q c = true) ->
  existsb q s = false -> existsb p s = false.
Proof.
  intros Hpq. induction s as [|c s IH]; [reflexivity|].
  cbn [existsb]. intros H. apply orb_false_iff in H. destruct H as [Hc Hs].
  rewrite (IH Hs), orb_false_r.
  destruct (p c) eqn:E; [|reflexivity]. now rewrite (Hpq c E) in Hc.
Qed.

Lemma needs_Chr c rs i x g k :
  match x with [] => True | d :: _ => N.eqb d c = false end ->
  run (Seq (Chr c) rs) (MState i x g) k = None.
Proof.
  intros H. rewrite run_Seq, run_Chr. destruct x as [|d x]; [reflexivity|].
  now rewrite H.
Qed.

Lemma needs_Rep p hi rs i x g k :
  match x with [] => True | d :: _ => p d = false end ->
  run (Seq (Rep p 1 hi true) rs) (MState i x g) k = None.
Proof.
  intros H. rewrite run_Seq. cbn [run rest].
  assert (E : run_len p hi x = 0).
  { destruct x as [|d x]; [destruct hi as [[|h]|]; reflexivity|].
    destruct hi as [[|h]|]; cbn [run_len]; try reflexivity; now rewrite H. }
  rewrite E. reflexivity.
Qed.

Lemma needs_Cls p rs i x g k :
  match x with [] => True | d :: _ => p d = false end ->
  run (Seq (Cls p) rs) (MState i x g) k = None.
Proof.
  intros H. rewrite run_Seq, run_Cls. destruct x as [|d x]; [reflexivity|].
  now rewrite H.
Qed.

Lemma one_of_cons c x s : one_of (x :: s) c = N.eqb c x || one_of s c.
Proof. reflexivity. Qed.

Lemma cleanMarkdown_plain text :
  markdown_free text = true -> cleanMarkdown text = Str.trim text.
Proof.
  unfold markdown_free. intros H. apply andb_true_iff in H. destruct H as [Hin Hhd].
  apply negb_true_iff in Hin.
  assert (Hfirst : forall q : char -> bool,
             (forall c, q c = true ->
                        is_digit c || one_of (lit "-+>") c
                        || one_of (lit "*_`[<") c = true) ->
             match text with [] => True | c :: _ => q c = false end).
  { intros q Hq. destruct text as [|c t]; [exact I|].
    apply negb_true_iff in Hhd. cbn [existsb] in Hin.
    apply orb_false_iff in Hin. destruct Hin as [Hc _].
    destruct (q c) eqn:E; [|reflexivity].
    specialize (Hq c E). rewrite Hhd, Hc in Hq. discriminate. }
  unfold cleanMarkdown.
  assert (E1 : Replace.replace_first numberedRegex empty text = text).
  { apply replace_first_bol. intros k. apply needs_Rep.
    apply Hfirst. intros c Hc. now rewrite Hc. }
  assert (E2 : Replace.replace_first bulletRegex empty text = text).
  { apply replace_first_bol. intros k. apply needs_Cls.
    apply Hfirst. intros c Hc.
    change (lit "-*+") with [ch "-"; ch "*"; ch "+"] in Hc.
    change (lit "-+>") with [ch "-"; ch "+"; ch ">"].
    change (lit "*_`[<") with [ch "*"; ch "_"; ch "`"; ch "["; ch "<"].
    rewrite !one_of_cons in *.
    destruct (N.eqb c (ch "-")), (N.eqb c (ch "*")), (N.eqb c (ch "+"));
      try discriminate; rewrite ?orb_true_r; reflexivity. }
  assert (E3 : forall tmpl, Replace.replace_all emphasisRegex tmpl text = text).
  { intros tmpl. apply (replace_all_needs _ (one_of (lit "*_"))).
    - intros i x g k Hx. apply needs_Rep, Hx.
    - apply (existsb_sub _ _ _) with (2 := Hin). intros c Hc.
      change (lit "*_") with [ch "*"; ch "_"] in Hc.
      change (lit "*_`[<") with [ch "*"; ch "_"; ch "`"; ch "["; ch "<"].
      rewrite !one_of_cons in *.
      destruct (N.eqb c (ch "*")), (N.eqb c (ch "_")); try discriminate;
        rewrite ?orb_true_r; reflexivity. }
  assert (E4 : forall (d : char) rs tmpl,
             one_of (lit "*_`[<") d = true ->
             Replace.replace_all (Seq (Chr d) rs) tmpl text = text).
  { intros d rs tmpl Hd. apply (replace_all_needs _ (fun c => N.eqb c d)).
    - intros i x g k Hx. apply needs_Chr, Hx.
    - apply (existsb_sub _ _ _) with (2 := Hin). intros c Hc.
      apply N.eqb_eq in Hc. now subst c. }
  assert (E6 : Replace.replace_first quoteRegex empty text = text).
  { apply replace_first_bol. intros k. apply needs_Chr.
    apply (Hfirst (fun c => N.eqb c (ch ">"))). intros c Hc.
    apply N.eqb_eq in Hc. subst c. reflexivity. }
  rewrite E1, E2, E3.
  change codeRegex with (Seq (Chr (ch "`"))
    (cat [Grp 1 (plus (none_of (lit "`"))); Chr (ch "`")])).
  rewrite E4 by reflexivity.
  change mdLinkRegex with (Seq (Chr (ch "["))
    (cat [Grp 1 (plus (none_of (lit "]"))); Chr (ch "]");
          Chr (ch "("); plus (none_of (lit ")")); Chr (ch ")")])).
  rewrite E4 by reflexivity.
  rewrite E6.
  change htmlRegex with (Seq (Chr (ch "<"))
    (cat [plus (none_of (lit ">")); Chr (ch ">")])).
  rewrite E4 by reflexivity.
  reflexivity.
Qed.

Lemma existsb_rev_str (p : char -> bool) (s : str) :
  existsb p (rev s) = existsb p s.
Proof.
  induction s as [|x s IH]; [reflexivity|].
  cbn [rev existsb]. rewrite existsb_app, IH. cbn [existsb].
  rewrite orb_false_r. apply orb_comm.
Qed.

Lemma existsb_trimStart (p : char -> bool) s :
  existsb p s = false -> existsb p (Str.trimStart s) = false.
Proof.
  induction s as [|x s IH]; [reflexivity|].
  intros H. cbn [Str.trimStart]. destruct (Str.is_space x); [|exact H].
  apply IH. cbn [existsb] in H. apply orb_false_iff in H. apply H.
Qed.

Lemma existsb_trimEnd (p : char -> bool) s :
  existsb p s = false -> existsb p (Str.trimEnd s) = false.
Proof.
  intros H. unfold Str.trimEnd. rewrite existsb_rev_str.
  apply existsb_trimStart. now rewrite existsb_rev_str.
Qed.

(** Trimming plain text that does not begin with white space leaves it
    plain. *)
Lemma markdown_free_trim text :
  markdown_free text = true ->
  (forall c s, text = c :: s -> Str.is_space c = false) ->
  markdown_free (Str.trim text) = true.
Proof.
  intros H Hs. destruct text as [|c s]; [reflexivity|].
  specialize (Hs c s eq_refl).
  unfold Str.trim. cbn [Str.trimStart]. rewrite Hs.
  rewrite (trimEnd_cons c s Hs).
  unfold markdown_free in *. apply andb_true_iff in H. destruct H as [Hin Hhd].
  apply negb_true_iff in Hin. rewrite Hhd, andb_true_r.
  apply negb_true_iff.
  cbn [existsb] in *. apply orb_false_iff in Hin. destruct Hin as [Hc Hin].
  rewrite Hc. cbn [orb]. apply existsb_trimEnd, Hin.
Qed.

(** X5: [cleanMarkdown] leaves plain text alone.  A text with no [*],
    [_], backtick, [[] or [<] in it and no digit, [-], [+] or [>] as its
    first character comes back with its white space trimmed at both ends
    and nothing else changed; and when it does not begin with white space
    either, cleaning it a second time changes nothing more. *)
Theorem X5_cleanMarkdown_plain_text (text : str) :
  markdown_free text = true ->
  cleanMarkdown text = Str.trim text
  /\ ((forall c s, text = c :: s -> Str.is_space c = false) ->
      cleanMarkdown (cleanMarkdown text) = cleanMarkdown text).
Proof.
  intros H. split; [apply cleanMarkdown_plain, H|].
  intros Hs. rewrite (cleanMarkdown_plain text H).
  rewrite (cleanMarkdown_plain (Str.trim text)).
  - apply trim_trim.
  - apply markdown_free_trim; assumption.
Qed.

(** An indented list item is plain text to [cleanMarkdown]: the marker
    stays, although the same item without the indent loses it. *)
Lemma X5_cleanMarkdown_plain_text_witness :
  markdown_free (lit "  - buy milk") = true
  /\ cleanMarkdown (lit "  - buy milk") = lit "- buy milk"
  /\ cleanMarkdown (lit "- buy milk") = lit "buy milk".
Proof.
  split; [reflexivity|]. split.
  - rewrite (proj1 (X5_cleanMarkdown_plain_text (lit "  - buy milk") eq_refl)).
    reflexivity.
  - vm_compute. reflexivity.
Defined.

(** ** The pass and the dialog *)

Lemma processText_mention p fullMatch taskSummary queueKey :
  isProcessing p = false ->
  newTaskMatch (currentLine p) = Some (fullMatch, taskSummary, queueKey) ->
  has_credentials p = true ->
  processText p =
  AwaitModal (open_modal (dialogSummary taskSummary) queueKey
                         (set_isProcessing true p))
             (resumeAfterModal p fullMatch taskSummary queueKey).
Proof.
  intros Hfree Hm Hc. unfold processText. rewrite Hfree.
  cbn [ed set_isProcessing settings]. fold (currentLine p). rewrite Hm.
  fold (has_credentials p). rewrite Hc. reflexivity.
Qed.

Lemma linkTasks_total base content t :
  plain_url base = true -> exists out, linkTasks base content t = Some out.
Proof.
  intros H. exact (linkTasksFrom_total base content 0 t H).
Qed.

Lemma modals_notices l p :
  modals (fold_left (fun q n => notice n q) l p) = modals p.
Proof.
  revert p. induction l as [|n l IH]; intros p; [reflexivity|].
  cbn [fold_left]. now rewrite IH.
Qed.

Lemma notices_notices l p :
  notices (fold_left (fun q n => notice n q) l p) = notices p ++ l.
Proof.
  revert p. induction l as [|n l IH]; intros p; cbn [fold_left].
  - now rewrite app_nil_r.
  - rewrite IH. cbn [notices notice]. now rewrite <- app_assoc.
Qed.

Lemma finishPass_done content upd cur p :
  plain_url (trackerBaseURL (settings p)) = true ->
  exists updated,
    linkTasks (trackerBaseURL (settings p)) content upd = Some updated /\
    finishPass content upd cur p =
    Done (set_isProcessing false
            (if negb (Str.eqb content updated)
             then set_ed (Editor updated cur) p else p)).
Proof.
  intros H. destruct (linkTasks_total _ content upd H) as [u Hu].
  exists u. split; [exact Hu|]. unfold finishPass. rewrite Hu. reflexivity.
Qed.

Lemma createTask_notices_length r : length (createTask_notices r) <= 1.
Proof. destruct r as [e|k]; cbn; [destruct (isError e)|]; cbn; lia. Qed.

(** X6: the summary the dialog is opened with.  When a pass finds a
    mention and the credentials are set, it opens the dialog for the
    mention's queue key, a non-empty run of upper-case letters, with a
    summary that is never empty and has no white space at either end: the
    cleaned text before the mention, or ["New task"] when nothing is left
    of it.  For plain text before the mention the summary is that text
    itself, trimmed. *)
Theorem X6_dialog_summary (p : plugin) (fullMatch taskSummary queueKey : str) :
  isProcessing p = false ->
  newTaskMatch (currentLine p) = Some (fullMatch, taskSummary, queueKey) ->
  has_credentials p = true ->
  (exists k,
      processText p =
      AwaitModal (open_modal (dialogSummary taskSummary) queueKey
                             (set_isProcessing true p)) k)
  /\ nonempty (dialogSummary taskSummary) = true
  /\ Str.trim (dialogSummary taskSummary) = dialogSummary taskSummary
  /\ (markdown_free taskSummary = true ->
      dialogSummary taskSummary =
      if nonempty (Str.trim taskSummary) then Str.trim taskSummary
      else lit "New task")
  /\ nonempty queueKey = true /\ forallb is_upper queueKey = true.
Proof.
  intros Hfree Hm Hc. split; [|split; [|split; [|split]]].
  - eexists. apply (processText_mention p _ _ _ Hfree Hm Hc).
  - unfold dialogSummary.
    destruct (nonempty (Str.trim (cleanMarkdown taskSummary))) eqn:E;
      [exact E | reflexivity].
  - unfold dialogSummary.
    destruct (nonempty (Str.trim (cleanMarkdown taskSummary)));
      [apply trim_trim | reflexivity].
  - intros Hp. unfold dialogSummary.
    rewrite (cleanMarkdown_plain _ Hp), trim_trim. reflexivity.
  - destruct (newTaskMatch_inv _ _ _ _ Hm) as (ws & _ & _ & Hk & Hu). auto.
Qed.

(** A bare mention, with nothing before it: the dialog offers
    ["New task"]. *)
Lemma X6_dialog_summary_witness :
  (exists k,
      processText (editing configured (lit "@ABC ") (0, 5)) =
      AwaitModal (open_modal (dialogSummary []) (lit "ABC")
                    (set_isProcessing true
                       (editing configured (lit "@ABC ") (0, 5)))) k)
  /\ dialogSummary [] = lit "New task".
Proof.
  assert (Hm : newTaskMatch (currentLine (editing configured (lit "@ABC ") (0, 5)))
               = Some (lit "@ABC", [], lit "ABC")) by (vm_compute; reflexivity).
  destruct (X6_dialog_summary (editing configured (lit "@ABC ") (0, 5))
              (lit "@ABC") [] (lit "ABC") eq_refl Hm eq_refl)
    as (K & _ & _ & P & _).
  split; [exact K | exact (P eq_refl)].
Defined.

(** X7: the request is built from what the dialog held when [Create]
    was pressed.  The pass goes on to [createTask] only when the first
    closing gesture is [Create]; after [Cancel] or the Escape key it ends
    there, with the lock released and no request built.  The request is a
    POST to the issues endpoint with the OAuth token and the organisation
    id of the settings, the queue key of the mention, the summary,
    description and assignee inputs trimmed, the tags input split at its
    commas, and the value of the deadline input as the date to convert;
    the deadline is left out when that value is empty and the assignee
    when the input is blank.  Pressing [Create] at once gives the offered
    summary, the default description trimmed, tomorrow's date, no tags and
    no assignee. *)
Theorem X7_request_from_dialog (p : plugin)
    (fullMatch taskSummary queueKey tomorrow : str) :
  isProcessing p = false ->
  newTaskMatch (currentLine p) = Some (fullMatch, taskSummary, queueKey) ->
  has_credentials p = true ->
  let m0 := openedModal (settings p) tomorrow (dialogSummary taskSummary)
                        queueKey in
  exists p1 k,
    processText p = AwaitModal p1 k
    /\ (forall gs d,
          getResult (gestures m0 gs) = Some d ->
          let m := gestures m0 (edits_before gs) in
          match find closing gs with
          | Some ClickCreate =>
              exists k2,
                k d p1 =
                AwaitRequest p1
                  {| url := lit "https://api.tracker.yandex.net/v2/issues/";
                     method := lit "POST";
                     authorization := lit "OAuth " ++ apiToken (settings p);
                     xOrgId := orgId (settings p);
                     body_summary := Str.trim (summaryInput m);
                     body_queue_key := queueKey;
                     body_description := Str.trim (descriptionInput m);
                     body_deadline :=
                       if nonempty (deadlineInput m)
                       then Some (deadlineInput m) else None;
                     body_tags := commaSeparated (tagsInput m);
                     body_assignee :=
                       if nonempty (Str.trim (assigneeInput m))
                       then Some (Str.trim (assigneeInput m)) else None |} k2
          | _ => k d p1 = Done (set_isProcessing false p1)
          end)
    /\ (exists k2,
          k (submitted m0) p1 =
          AwaitRequest p1
            {| url := lit "https://api.tracker.yandex.net/v2/issues/";
               method := lit "POST";
               authorization := lit "OAuth " ++ apiToken (settings p);
               xOrgId := orgId (settings p);
               body_summary := dialogSummary taskSummary;
               body_queue_key := queueKey;
               body_description := Str.trim (defaultDescription (settings p));
               body_deadline :=
                 if nonempty tomorrow then Some tomorrow else None;
               body_tags := [];
               body_assignee := None |} k2).
Proof.
  intros Hfree Hm Hc m0.
  exists (open_modal (dialogSummary taskSummary) queueKey (set_isProcessing true p)),
         (resumeAfterModal p fullMatch taskSummary queueKey).
  split; [apply (processText_mention p _ _ _ Hfree Hm Hc)|]. split.
  - intros gs d Hd m.
    destruct (dialog_answer m0 gs eq_refl eq_refl) as [A _].
    rewrite A in Hd. destruct (find closing gs) as [g|]; [|discriminate].
    destruct g; injection Hd as <-; try reflexivity.
    eexists. reflexivity.
  - eexists. subst m0. unfold resumeAfterModal. cbn [confirmed submitted negb].
    unfold createTask_request, openedModal, onOpen, newConfirmationModal.
    cbn [summary description deadline tags assignee summaryInput
         descriptionInput deadlineInput tagsInput assigneeInput
         modalSummary settings open_modal set_isProcessing submitted].
    assert (T : Str.trim (dialogSummary taskSummary) = dialogSummary taskSummary).
    { unfold dialogSummary.
      destruct (nonempty (Str.trim (cleanMarkdown taskSummary)));
        [apply trim_trim | reflexivity]. }
    rewrite T. reflexivity.
Qed.

(** On ["note @ABC "]: a tag list and an assignee typed with stray blanks,
    then [Create]: the request carries them clean. *)
Lemma X7_request_from_dialog_witness :
  exists p1 k k2,
    processText (editing configured (lit "note @ABC ") (0, 10))
      = AwaitModal p1 k
    /\ k (submitted
            (gestures
               (openedModal configured (lit "2026-11-04") (lit "note") (lit "ABC"))
               [EditTags (lit "a, ,b "); EditAssignee (lit " ann ")])) p1
       = AwaitRequest p1
           {| url := lit "https://api.tracker.yandex.net/v2/issues/";
              method := lit "POST";
              authorization := lit "OAuth y0_token";
              xOrgId := lit "7";
              body_summary := lit "note";
              body_queue_key := lit "ABC";
              body_description := Str.trim DEFAULT_DESCRIPTION;
              body_deadline := Some (lit "2026-11-04");
              body_tags := [lit "a"; lit "b"];
              body_assignee := Some (lit "ann") |} k2.
Proof.
  assert (Hm : newTaskMatch
                 (currentLine (editing configured (lit "note @ABC ") (0, 10)))
               = Some (lit "note @ABC", lit "note", lit "ABC"))
    by (vm_compute; reflexivity).
  destruct (X7_request_from_dialog
              (editing configured (lit "note @ABC ") (0, 10))
              (lit "note @ABC") (lit "note") (lit "ABC") (lit "2026-11-04")
              eq_refl Hm eq_refl) as (p1 & k & Hp & Hg & _).
  destruct (Hg [EditTags (lit "a, ,b "); EditAssignee (lit " ann "); ClickCreate]
               _ eq_refl) as (k2 & Hk).
  exists p1, k, k2. split; [exact Hp | exact Hk].
Defined.

(** X8: what every pass leaves as it found it.  With a base URL free of
    pattern syntax other than dots, a pass always comes to an end,
    whatever the dialog and the tracker answer; it ends with the cursor
    where it was, the settings untouched and the lock as it found it, and
    it shows at most one notice and opens at most one dialog. *)
Theorem X8_pass_frame (p : plugin) (d : TaskCreationData) (o : http_outcome) :
  plain_url (trackerBaseURL (settings p)) = true ->
  exists p',
    runPass p d o = Some p'
    /\ cursor (ed p') = cursor (ed p)
    /\ settings p' = settings p
    /\ isProcessing p' = isProcessing p
    /\ (exists ns, notices p' = notices p ++ ns /\ length ns <= 1)
    /\ (exists ms, modals p' = modals p ++ ms /\ length ms <= 1).
Proof.
  intros Hb. unfold runPass.
  destruct (isProcessing p) eqn:Hfree.
  { unfold processText. rewrite Hfree. exists p. repeat split; auto;
      exists []; rewrite app_nil_r; split; auto. }
  destruct (newTaskMatch (currentLine p)) as [[[full sum] key]|] eqn:Hm.
  - destruct (has_credentials p) eqn:Hc.
    + rewrite (processText_mention p full sum key Hfree Hm Hc).
      unfold resumeAfterModal. destruct (confirmed d); cbn [negb].
      * unfold resumeAfterRequest.
        destruct (createTask_response o) as [e|k] eqn:Hr.
        -- eexists. split; [reflexivity|].
           cbn [ed set_isProcessing settings isProcessing notices modals].
           rewrite ed_notices, settings_notices, notices_notices, modals_notices.
           cbn. repeat split; auto.
           ++ eexists; split; [reflexivity|]. exact (createTask_notices_length (inl e)).
           ++ eexists; split; [reflexivity|]. cbn; lia.
        -- cbn [createTask_notices fold_left].
           edestruct (finishPass_done (value (ed p))) as (u & Hu & Hf);
             [|rewrite Hf].
           { cbn. exact Hb. }
           eexists. split; [reflexivity|].
           destruct (negb (Str.eqb (value (ed p)) u)); cbn; repeat split; auto;
             try (eexists; split; [reflexivity|cbn; lia]).
      * eexists. split; [reflexivity|]. cbn. repeat split; auto.
        -- exists []. rewrite app_nil_r. split; auto.
        -- eexists; split; [reflexivity|]. cbn; lia.
    + unfold processText. rewrite Hfree. cbn [ed set_isProcessing settings].
      fold (currentLine p). rewrite Hm. fold (has_credentials p). rewrite Hc.
      eexists. split; [reflexivity|]. cbn. repeat split; auto.
      * eexists; split; [reflexivity|]. cbn; lia.
      * exists []. rewrite app_nil_r. split; auto.
  - unfold processText. rewrite Hfree. cbn [ed set_isProcessing settings].
    fold (currentLine p). rewrite Hm.
    edestruct (finishPass_done (value (ed p)) (value (ed p)) (cursor (ed p))
                 (set_isProcessing true p)) as (u & Hu & Hf); [|rewrite Hf].
    { cbn. exact Hb. }
    eexists. split; [reflexivity|].
    destruct (negb (Str.eqb (value (ed p)) u)); cbn; repeat split; auto;
      exists []; rewrite app_nil_r; split; auto.
Qed.

(** A pass that rewrites the document puts the cursor back. *)
Lemma X8_pass_frame_witness :
  exists p',
    runPass (editing configured (lit "see @ABC-45 now") (0, 12))
            (cancelled []) (created (lit "ABC-1")) = Some p'
    /\ cursor (ed p') = (0, 12) /\ settings p' = configured.
Proof.
  destruct (X8_pass_frame (editing configured (lit "see @ABC-45 now") (0, 12))
              (cancelled []) (created (lit "ABC-1")) eq_refl)
    as (p' & H & C & S & _).
  exists p'. split; [exact H|]. split; [exact C | exact S].
Defined.



















(** X12: dismissing the dialog does not silence the mention.  The
    editor-change handler looks only at the character before the cursor
    and the pass only at the cursor's line, so after a dismissed dialog
    the next space typed anywhere on a line that still holds a mention
    opens the dialog again. *)
Theorem X12_dismissed_mention_triggers_again (p : plugin) (e1 e2 : editor)
    (d : TaskCreationData)
    (fullMatch1 taskSummary1 queueKey1 fullMatch2 taskSummary2 queueKey2 : str) :
  isProcessing p = false -> has_credentials p = true ->
  charBeforeCursor e1 = lit " " ->
  newTaskMatch (currentLine (set_ed e1 p))
    = Some (fullMatch1, taskSummary1, queueKey1) ->
  confirmed d = false ->
  charBeforeCursor e2 = lit " " ->
  newTaskMatch (currentLine (set_ed e2 p))
    = Some (fullMatch2, taskSummary2, queueKey2) ->
  exists s,
    steps (System p []) [EditorChange e1; ModalResult d; EditorChange e2]
      = Some s
    /\ modals (plug s)
       = modals p ++ [(dialogSummary taskSummary1, queueKey1);
                      (dialogSummary taskSummary2, queueKey2)]
    /\ length (waiting s) = 1
    /\ isProcessing (plug s) = true
    /\ ed (plug s) = e2.
Proof.
  intros Hfree Hc Hs1 Hm1 Hd Hs2 Hm2.
  cbn [steps step plug waiting]. unfold onEditorChange.
  cbn [isProcessing set_ed ed]. rewrite Hfree, Hs1. cbn [negb andb].
  rewrite (proj2 (Str_eqb_eq _ _) eq_refl).
  rewrite (processText_mention (set_ed e1 p) _ _ _ Hfree Hm1 Hc).
  cbn [settle app steps step plug waiting].
  unfold resumeAfterModal at 1. rewrite Hd. cbn [negb settle].
  cbn [steps step plug waiting]. unfold onEditorChange.
  cbn [isProcessing set_ed set_isProcessing open_modal ed].
  rewrite Hs2. cbn [negb andb]. rewrite (proj2 (Str_eqb_eq _ _) eq_refl).
  match goal with
  | |- context [processText ?q] =>
      rewrite (processText_mention q fullMatch2 taskSummary2 queueKey2
                 eq_refl Hm2 Hc)
  end.
  cbn [settle app]. eexists. split; [reflexivity|].
  cbn [plug waiting modals open_modal set_isProcessing set_ed isProcessing ed
       length].
  rewrite <- app_assoc. repeat split; reflexivity.
Qed.

(** ["note @ABC "], the dialog dismissed, then ["and "] typed on the same
    line: two dialogs have been opened. *)
Lemma X12_dismissed_mention_triggers_again_witness :
  exists s,
    steps (System (editing configured [] (0, 0)) [])
          [EditorChange (Editor (lit "note @ABC ") (0, 10));
           ModalResult (cancelled (lit "note"));
           EditorChange (Editor (lit "note @ABC and ") (0, 14))] = Some s
    /\ modals (plug s) = [(lit "note", lit "ABC"); (lit "note", lit "ABC")].
Proof.
  assert (Hm1 : newTaskMatch
                  (currentLine (set_ed (Editor (lit "note @ABC ") (0, 10))
                                       (editing configured [] (0, 0))))
                = Some (lit "note @ABC", lit "note", lit "ABC"))
    by (vm_compute; reflexivity).
  assert (Hm2 : newTaskMatch
                  (currentLine (set_ed (Editor (lit "note @ABC and ") (0, 14))
                                       (editing configured [] (0, 0))))
                = Some (lit "note @ABC", lit "note", lit "ABC"))
    by (vm_compute; reflexivity).
  destruct (X12_dismissed_mention_triggers_again
              (editing configured [] (0, 0))
              (Editor (lit "note @ABC ") (0, 10))
              (Editor (lit "note @ABC and ") (0, 14))
              (cancelled (lit "note"))
              (lit "note @ABC") (lit "note") (lit "ABC")
              (lit "note @ABC") (lit "note") (lit "ABC")
              eq_refl eq_refl eq_refl Hm1 eq_refl eq_refl Hm2)
    as (s & Hs & M & _).
  exists s. split; [exact Hs|]. rewrite M. vm_compute. reflexivity.
Defined.

(** ** The existing-task pass *)

Lemma rewrites_length base s s' : rewrites base s s' -> length s <= length s'.
Proof.
  induction 1 as [|c s s' _ IH|U D s s' _ _ IH].
  - lia.
  - cbn [length]. lia.
  - unfold taskLink. change (lit "[") with [ch "["].
    repeat (rewrite ?length_app; cbn [length app]). lia.
Qed.

Lemma split_length_cons c s :
  length (Str.split nl (c :: s)) =
  (if N.eqb c nl then 1 else 0) + length (Str.split nl s).
Proof.
  cbn [Str.split]. destruct (N.eqb c nl); [reflexivity|].
  destruct (Str.split nl s) eqn:E; [|reflexivity].
  exfalso. exact (split_nonempty _ _ E).
Qed.

Lemma split_length_app x s :
  has_char nl x = false ->
  length (Str.split nl (x ++ s)) = length (Str.split nl s).
Proof.
  induction x as [|c x IH]; intros H; [reflexivity|].
  rewrite has_char_cons in H. apply orb_false_iff in H. destruct H as [Hc Hx].
  cbn [app]. rewrite split_length_cons, N.eqb_sym, Hc. cbn [Nat.add].
  apply IH, Hx.
Qed.

Lemma rewrites_lines base s s' :
  has_char nl base = false -> rewrites base s s' ->
  length (Str.split nl s) = length (Str.split nl s').
Proof.
  intros Hb. induction 1 as [|c s s' _ IH|U D s s' Ht _ IH].
  - reflexivity.
  - rewrite !split_length_cons. now rewrite IH.
  - change (ch "@" :: (U ++ ch "-" :: D) ++ s)
      with ((ch "@" :: U ++ ch "-" :: D) ++ s).
    rewrite !split_length_app; [exact IH | |].
    + apply taskLink_no_char; auto.
    + apply ref_no_nl, Ht.
Qed.

(** X13: the existing-task pass only ever puts links in the place of
    references.  With a base URL free of pattern syntax other than dots,
    the pass over any text, with the checks made on any start text,
    returns a text that is the given one with some of its references
    [@ID] replaced by [[ID](base + ID)] and every other character kept in
    place; so the text never gets shorter, and with a base URL that holds
    no line feed the number of lines stays the same. *)
Theorem X13_pass_only_links_references (base content t : str) :
  plain_url base = true ->
  exists t',
    linkTasks base content t = Some t'
    /\ rewrites base t t'
    /\ length t <= length t'
    /\ (has_char nl base = false ->
        length (Str.split nl t') = length (Str.split nl t)).
Proof.
  intros Hb. destruct (linkTasksFrom_total base content 0 t Hb) as [t' H].
  exists t'. split; [exact H|].
  assert (R : rewrites base t t').
  { exact (linkTasksFrom_rewrites base content (length t) t 0 t' (le_n _) Hb H). }
  split; [exact R|]. split; [exact (rewrites_length _ _ _ R)|].
  intros Hi. symmetry. exact (rewrites_lines _ _ _ Hi R).
Qed.

(** Two lines, one reference each. *)
Lemma X13_pass_only_links_references_witness :
  exists t',
    linkTasks BASE (lit "@A-1 x" ++ [nl] ++ lit "@B-2 ")
                   (lit "@A-1 x" ++ [nl] ++ lit "@B-2 ") = Some t'
    /\ rewrites BASE (lit "@A-1 x" ++ [nl] ++ lit "@B-2 ") t'
    /\ length (Str.split nl t') = 2.
Proof.
  destruct (X13_pass_only_links_references BASE
              (lit "@A-1 x" ++ [nl] ++ lit "@B-2 ")
              (lit "@A-1 x" ++ [nl] ++ lit "@B-2 ") eq_refl)
    as (t' & H & R & _ & Hn).
  exists t'. split; [exact H|]. split; [exact R|]. exact (Hn eq_refl).
Defined.

Lemma token_at_nl x r : token_at (x ++ nl :: r) = token_at x.
Proof.
  destruct x as [|c s1]; [reflexivity|].
  cbn [app token_at]. destruct (N.eqb c (ch "@")); [|reflexivity].
  rewrite run_len_app_stop by reflexivity.
  set (n := run_len is_upper None s1).
  destruct (Nat.leb 1 n); [|reflexivity].
  assert (Hn : n <= length s1) by apply run_len_le.
  rewrite skipn_app_le, firstn_app_le by assumption.
  destruct (skipn n s1) as [|d s2]; [reflexivity|].
  cbn [app]. destruct (N.eqb d (ch "-")); [|reflexivity].
  rewrite run_len_app_stop by reflexivity.
  set (k := run_len is_digit None s2).
  destruct (Nat.leb 1 k); [|reflexivity].
  assert (Hk : k <= length s2) by apply run_len_le.
  rewrite skipn_app_le, firstn_app_le by assumption.
  destruct (skipn k s2) as [|e s3]; reflexivity.
Qed.

(** [Sx] is what follows a line: nothing, or a line feed and more text. *)
Lemma token_at_line x Sx :
  (Sx = [] \/ exists b, Sx = nl :: b) -> token_at (x ++ Sx) = token_at x.
Proof.
  intros [->|(b & ->)]; [now rewrite app_nil_r | apply token_at_nl].
Qed.

Lemma first_line_line x Sx :
  has_char nl x = false -> (Sx = [] \/ exists b, Sx = nl :: b) ->
  first_line (x ++ Sx) = x.
Proof.
  intros Hx HS. rewrite first_line_app by exact Hx.
  destruct HS as [->|(b & ->)].
  - cbn. now rewrite app_nil_r.
  - rewrite first_line_cons. cbn. now rewrite app_nil_r.
Qed.

Lemma last_line_line P x :
  has_char nl x = false -> (P = [] \/ exists a, P = a ++ [nl]) ->
  last_line (P ++ x) = x.
Proof.
  intros Hx [->|(a & ->)].
  - cbn [app]. apply last_line_no_nl, Hx.
  - rewrite <- app_assoc. cbn [app].
    induction a as [|c a IH].
    + cbn [app]. rewrite last_line_cons, Hx. reflexivity.
    + cbn [app]. rewrite last_line_cons.
      rewrite has_char_app. cbn [has_char existsb]. rewrite N.eqb_refl.
      cbn. rewrite orb_true_r. exact IH.
Qed.

Lemma ends_link_line P x :
  (P = [] \/ exists a, P = a ++ [nl]) -> ends_link (P ++ x) = ends_link x.
Proof.
  intros [->|(a & ->)]; [reflexivity|].
  rewrite <- app_assoc. cbn [app]. apply ends_link_after; reflexivity.
Qed.

(** The two checks of [linkTask] look at the line of the match only. *)
Lemma guards_line P a s Sx :
  (P = [] \/ exists x, P = x ++ [nl]) -> (Sx = [] \/ exists b, Sx = nl :: b) ->
  has_char nl (a ++ s) = false ->
  inside_link (P ++ (a ++ s) ++ Sx) (length P + length a) = inside_link (a ++ s) (length a)
  /\ line_of (P ++ (a ++ s) ++ Sx) (length P + length a) = line_of (a ++ s) (length a).
Proof.
  intros HP HS Hl.
  rewrite has_char_app in Hl. apply orb_false_iff in Hl. destruct Hl as [Ha Hs].
  replace (P ++ (a ++ s) ++ Sx) with ((P ++ a) ++ (s ++ Sx))
    by (now rewrite <- !app_assoc).
  rewrite <- length_app. split.
  - rewrite !inside_link_app, !endsWith_ends_link. now apply ends_link_line.
  - rewrite !line_of_app.
    rewrite (last_line_line P a Ha HP), (first_line_line s Sx Hs HS).
    rewrite (last_line_no_nl a Ha).
    rewrite <- (app_nil_r s) at 2.
    rewrite (first_line_line s [] Hs (or_introl eq_refl)). reflexivity.
Qed.

Lemma linkTasksFrom_line base P l Sx :
  plain_url base = true ->
  (P = [] \/ exists x, P = x ++ [nl]) -> (Sx = [] \/ exists b, Sx = nl :: b) ->
  has_char nl l = false ->
  forall n s a, length s <= n -> l = a ++ s ->
    linkTasksFrom base (P ++ l ++ Sx) (length P + length a) (s ++ Sx) =
    match linkTasksFrom base l (length a) s,
          linkTasksFrom base (P ++ l ++ Sx) (length P + length l) Sx with
    | Some x, Some y => Some (x ++ y)
    | _, _ => None
    end.
Proof.
  intros Hb HP HS Hl. induction n as [|n IH]; intros s a Hn El.
  - destruct s; [|cbn in Hn; lia]. rewrite app_nil_r in El. subst a.
    rewrite linkTasksFrom_nil. cbn [app].
    destruct (linkTasksFrom base _ _ Sx); reflexivity.
  - destruct s as [|c s].
    { rewrite app_nil_r in El. subst a. rewrite linkTasksFrom_nil. cbn [app].
      destruct (linkTasksFrom base _ _ Sx); reflexivity. }
    destruct (token_at (c :: s)) as [tid|] eqn:Et.
    + destruct (token_at_shape _ _ Et) as (U & D & r & Ht & -> & Hs).
      rewrite Hs in *.
      set (tid := U ++ ch "-" :: D) in *.
      assert (Hlen : length (ch " " :: r) <= n).
      { cbn [length] in Hn |- *. rewrite length_app in Hn. cbn [length] in Hn. lia. }
      replace ((ch "@" :: tid ++ ch " " :: r) ++ Sx)
        with (ch "@" :: tid ++ ch " " :: (r ++ Sx))
        by (cbn [app]; now rewrite <- app_assoc).
      rewrite (linkTasksFrom_ref base _ _ U D (r ++ Sx) Hb Ht).
      rewrite (linkTasksFrom_ref base l _ U D r Hb Ht).
      fold tid.
      assert (G := guards_line P a (ch "@" :: tid ++ ch " " :: r) Sx HP HS).
      rewrite <- El in G. destruct (G Hl) as [G1 G2]. rewrite G1, G2.
      specialize (IH (ch " " :: r) (a ++ ch "@" :: tid) Hlen).
      replace (length (a ++ ch "@" :: tid)) with (length a + 1 + length tid) in IH
        by (rewrite length_app; cbn [length]; lia).
      replace (length P + (length a + 1 + length tid))
        with (length P + length a + 1 + length tid) in IH by lia.
      change ((ch " " :: r) ++ Sx) with (ch " " :: r ++ Sx) in IH.
      rewrite IH by (rewrite El, <- app_assoc; reflexivity).
      destruct (linkTasksFrom base l _ (ch " " :: r)) as [x|]; [|reflexivity].
      destruct (linkTasksFrom base (P ++ l ++ Sx) _ Sx) as [y|]; [|reflexivity].
      cbn [option_map]. now rewrite app_assoc.
    + assert (Et' : token_at (c :: s ++ Sx) = None).
      { change (c :: s ++ Sx) with ((c :: s) ++ Sx). now rewrite token_at_line. }
      change ((c :: s) ++ Sx) with (c :: s ++ Sx).
      rewrite (linkTasksFrom_plain _ _ _ _ _ Et'), (linkTasksFrom_plain _ _ _ _ _ Et).
      specialize (IH s (a ++ [c]) ltac:(cbn [length] in Hn; lia)).
      replace (length (a ++ [c])) with (S (length a)) in IH
        by (rewrite length_app; cbn; lia).
      rewrite Nat.add_succ_r in IH.
      rewrite IH by (rewrite El, <- app_assoc; reflexivity).
      destruct (linkTasksFrom base l _ s) as [x|]; [|reflexivity].
      destruct (linkTasksFrom base (P ++ l ++ Sx) _ Sx) as [y|]; reflexivity.
Qed.

Lemma first_nl t :
  has_char nl t = true ->
  exists l t', t = l ++ nl :: t' /\ has_char nl l = false.
Proof.
  induction t as [|c t IH]; [discriminate|].
  rewrite has_char_cons. destruct (N.eqb nl c) eqn:E.
  - intros _. apply N.eqb_eq in E. subst c. exists [], t. auto.
  - cbn [orb]. intros H. destruct (IH H) as (l & t' & -> & Hl).
    exists (c :: l), t'. split; [reflexivity|]. now rewrite has_char_cons, E.
Qed.

Lemma all_some_length {A} (l : list (option A)) out :
  all_some l = Some out -> length out = length l.
Proof.
  revert out. induction l as [|[x|] l IH]; intros out H; cbn [all_some] in H.
  - now injection H as <-.
  - destruct (all_some l) as [o|]; [|discriminate]. injection H as <-.
    cbn [length]. f_equal. now apply IH.
  - discriminate.
Qed.

Lemma join_cons_ne sep (x : str) ys :
  ys <> [] -> Str.join sep (x :: ys) = x ++ sep ++ Str.join sep ys.
Proof. destruct ys; [congruence | reflexivity]. Qed.

Lemma linkTasksFrom_lines base :
  plain_url base = true ->
  forall n t P, length t <= n ->
    (P = [] \/ exists x, P = x ++ [nl]) ->
    linkTasksFrom base (P ++ t) (length P) t =
    option_map (Str.join [nl])
      (all_some (map (fun l => linkTasks base l l) (Str.split nl t))).
Proof.
  intros Hb. induction n as [|n IH]; intros t P Hn HP.
  - destruct t; [|cbn in Hn; lia]. rewrite linkTasksFrom_nil. reflexivity.
  - destruct (has_char nl t) eqn:Hnl.
    + destruct (first_nl t Hnl) as (l & t' & -> & Hl).
      pose proof (linkTasksFrom_line base P l (nl :: t') Hb HP
                    (or_intror (ex_intro _ t' eq_refl)) Hl (length l) l []
                    (le_n _) eq_refl) as L.
      cbn [length app] in L. rewrite Nat.add_0_r in L. rewrite L. clear L.
      rewrite split_app_sep by exact Hl. cbn [map all_some].
      change (linkTasksFrom base l 0 l) with (linkTasks base l l).
      destruct (linkTasks base l l) as [x|]; [|reflexivity].
      rewrite (linkTasksFrom_plain base _ _ nl t') by reflexivity.
      specialize (IH t' (P ++ l ++ [nl])).
      replace (length (P ++ l ++ [nl])) with (S (length P + length l)) in IH
        by (rewrite !length_app; cbn [length]; lia).
      replace ((P ++ l ++ [nl]) ++ t') with (P ++ l ++ nl :: t') in IH
        by (rewrite <- !app_assoc; reflexivity).
      rewrite IH.
      2:{ rewrite length_app in Hn. cbn [length] in Hn. lia. }
      2:{ right. exists (P ++ l). now rewrite <- app_assoc. }
      destruct (all_some _) as [outs|] eqn:A; [|reflexivity].
      cbn [option_map]. f_equal.
      rewrite join_cons_ne; [reflexivity|].
      apply all_some_length in A. rewrite length_map in A.
      intros ->. cbn [length] in A. symmetry in A.
      apply length_zero_iff_nil in A. exact (split_nonempty _ _ A).
    + pose proof (linkTasksFrom_line base P t [] Hb HP (or_introl eq_refl) Hnl
                    (length t) t [] (le_n _) eq_refl) as L.
      cbn [length] in L. rewrite Nat.add_0_r, !app_nil_r in L. rewrite L. clear L.
      rewrite split_no_sep_id by exact Hnl. cbn [map all_some].
      change (linkTasksFrom base t 0 t) with (linkTasks base t t).
      destruct (linkTasks base t t) as [x|]; [|reflexivity].
      rewrite linkTasksFrom_nil. cbn. now rewrite app_nil_r.
Qed.

(** X14: the existing-task pass works line by line.  With a base URL
    free of pattern syntax other than dots, the pass over a whole document
    gives what the pass over each of its lines alone gives, joined by line
    feeds again: no reference spans two lines, and neither check looks
    beyond the line of its reference. *)
Theorem X14_pass_is_line_by_line base t :
  plain_url base = true ->
  linkTasks base t t =
  option_map (Str.join [nl])
    (all_some (map (fun l => linkTasks base l l) (Str.split nl t))).
Proof.
  intros Hb.
  exact (linkTasksFrom_lines base Hb (length t) t [] (le_n _) (or_introl eq_refl)).
Qed.

(** The link on the first line does not guard the reference on the
    second. *)
Lemma X14_pass_is_line_by_line_witness :
  linkTasks BASE
    (lit "[A-1](https://tracker.yandex.ru/A-1)" ++ [nl] ++ lit "@A-1 ")
    (lit "[A-1](https://tracker.yandex.ru/A-1)" ++ [nl] ++ lit "@A-1 ")
  = option_map (Str.join [nl])
      (all_some
         (map (fun l => linkTasks BASE l l)
              (Str.split nl
                 (lit "[A-1](https://tracker.yandex.ru/A-1)" ++ [nl]
                  ++ lit "@A-1 ")))).
Proof.
  exact (X14_pass_is_line_by_line BASE
           (lit "[A-1](https://tracker.yandex.ru/A-1)" ++ [nl] ++ lit "@A-1 ")
           eq_refl).
Defined.
